(** * Food-desert accessibility pipeline: shallow embedding of
    [src/data_processing.py] and the properties of its enrichment steps.

    Conventions of the embedding.
    - Floating-point numbers are modelled by [fval]: exact rationals
      extended with the two infinities and NaN; rounding is abstracted.
    - A Python dictionary is a [gmap]; the node and edge dictionaries of a
      NetworkX graph are [gmap]s keyed by node identifier and by
      [(u, v, key)].
    - A pandas/GeoPandas table is a [frame]: a column list and a list of
      indexed rows; a cell that is absent from a row is a missing value
      (NaN / None).
    - Exceptions and [warnings.warn] are threaded through the [result]
      monad.
    - Library routines whose numeric behaviour is external to the
      repository (map projection, geometric predicates, PageRank) are
      section variables. *)

From Stdlib Require Import QArith Qabs Lqa.
From stdpp Require Import gmap strings list fin_maps sorting pretty.

Local Open Scope Z_scope.

(* ===================================================================== *)
(** * Numbers *)
(* ===================================================================== *)

Inductive fval :=
  | FNaN
  | FInf (neg : bool)
  | FNum (q : Q).

#[global] Instance Q_eq_dec : EqDecision Q.
Proof. solve_decision. Defined.
#[global] Instance fval_eq_dec : EqDecision fval.
Proof. solve_decision. Defined.

Definition Qis_zero (q : Q) : bool := Qnum q =? 0.
Definition Qis_neg (q : Q) : bool := Qnum q <? 0.

(** IEEE addition on the extended rationals. *)
Definition fadd (a b : fval) : fval :=
  match a, b with
  | FNaN, _ | _, FNaN => FNaN
  | FInf s, FInf t => if Bool.eqb s t then FInf s else FNaN
  | FInf s, FNum _ | FNum _, FInf s => FInf s
  | FNum x, FNum y => FNum (x + y)
  end.

(** IEEE (numpy) division: a zero divisor gives an infinity or NaN. *)
Definition fdiv (a b : fval) : fval :=
  match a, b with
  | FNaN, _ | _, FNaN => FNaN
  | FInf _, FInf _ => FNaN
  | FInf s, FNum y => FInf (xorb s (Qis_neg y))
  | FNum _, FInf _ => FNum 0
  | FNum x, FNum y =>
      if Qis_zero y then (if Qis_zero x then FNaN else FInf (Qis_neg x))
      else FNum (x / y)
  end.

(** Equality test [a == b] of two floats. *)
Definition feqb (a b : fval) : bool :=
  match a, b with
  | FNum x, FNum y => Qeq_bool x y
  | FInf s, FInf t => Bool.eqb s t
  | _, _ => false
  end.

(* ===================================================================== *)
(** * Exceptions and warnings *)
(* ===================================================================== *)

Inductive exn :=
  | KeyError
  | ValueError
  | AttributeError
  | ReferenceError
  | LibraryError (msg : string).

Inductive warning :=
  | UserWarning (msg : string).

Inductive result (A : Type) :=
  | Ok (ws : list warning) (a : A)
  | Raise (ws : list warning) (e : exn).
Arguments Ok {A} ws a.
Arguments Raise {A} ws e.

#[global] Instance result_ret : MRet result := λ A a, Ok [] a.
#[global] Instance result_bind : MBind result := λ A B f m,
  match m with
  | Ok ws a =>
      match f a with
      | Ok ws' b => Ok (ws ++ ws') b
      | Raise ws' e => Raise (ws ++ ws') e
      end
  | Raise ws e => Raise ws e
  end.

Definition raise {A} (e : exn) : result A := Raise [] e.
Definition warn (msg : string) : result unit := Ok [UserWarning msg] tt.

(** Monadic left fold: a [for] loop whose body may raise. *)
Fixpoint foldlM {A B} (f : A → B → result A) (a : A) (l : list B) : result A :=
  match l with
  | [] => mret a
  | b :: l' => a' ← f a b; foldlM f a' l'
  end.

(* ===================================================================== *)
(** * NetworkX graphs *)
(* ===================================================================== *)

(** Attribute values stored on nodes and edges. *)
Inductive pyval :=
  | PBool (b : bool)
  | PNum (x : fval).

#[global] Instance pyval_eq_dec : EqDecision pyval.
Proof. solve_decision. Defined.

(** Python truthiness. *)
Definition truthy (v : pyval) : bool :=
  match v with
  | PBool b => b
  | PNum (FNum q) => negb (Qis_zero q)
  | PNum _ => true
  end.

(** Numeric coercion ([True] is 1, [False] is 0). *)
Definition to_num (v : pyval) : fval :=
  match v with
  | PBool b => FNum (if b then 1 else 0)%Q
  | PNum x => x
  end.

Abbreviation attrs := (gmap string pyval).
Abbreviation edge_id := (Z * Z * Z)%type.

Record graph := Graph {
  directed : bool;
  nodes : gmap Z attrs;
  edges : gmap edge_id attrs;
}.

(** Every edge of a NetworkX graph joins two of its nodes. *)
Definition graph_wf (g : graph) : Prop :=
  ∀ u v k, is_Some (edges g !! (u, v, k)) →
    is_Some (nodes g !! u) ∧ is_Some (nodes g !! v).

Definition set_edges (g : graph) (es : gmap edge_id attrs) : graph :=
  {| directed := directed g; nodes := nodes g; edges := es |}.
Definition set_nodes (g : graph) (ns : gmap Z attrs) : graph :=
  {| directed := directed g; nodes := ns; edges := edges g |}.

(** [graph.nodes[u]] *)
Definition node_view (g : graph) (u : Z) : result attrs :=
  match nodes g !! u with
  | Some a => mret a
  | None => raise KeyError
  end.

(** [graph.edges[u, v, k]] *)
Definition edge_view (g : graph) (e : edge_id) : result attrs :=
  match edges g !! e with
  | Some a => mret a
  | None => raise KeyError
  end.

(** [list(graph.edges(keys=True))] *)
Definition edge_keys (g : graph) : list edge_id := (map_to_list (edges g)).*1.

(** [nx.set_node_attributes(graph, values, name)]: keys of [values] that
    are not nodes are skipped. *)
Definition set_node_attributes (g : graph) (values : gmap Z pyval)
    (name : string) : graph :=
  set_nodes g (map_imap (λ n a,
    Some (match values !! n with
          | Some v => <[name := v]> a
          | None => a
          end)) (nodes g)).

(** ** Edge value projection *)

Definition average_value (source_value target_value : pyval) : fval :=
  fdiv (fadd (to_num source_value) (to_num target_value)) (FNum 2).

(** One iteration of the loop of [add_average_to_edge]. *)
Definition average_step (attribute : string) (g : graph) (e : edge_id)
    : result graph :=
  let '(u, v, k) := e in
  nu ← node_view g u;
  nv ← node_view g v;
  let source_value := default (PNum FNaN) (nu !! attribute) in
  let target_value := default (PNum FNaN) (nv !! attribute) in
  ed ← edge_view g (u, v, k);
  mret (set_edges g
    (<[(u, v, k) := <[attribute := PNum (average_value source_value target_value)]> ed]>
       (edges g))).

Definition add_average_to_edge (g : graph) (attribute : string) : result graph :=
  foldlM (average_step attribute) g (edge_keys g).

(* ===================================================================== *)
(** * Shortest paths and the nearest-food travel time *)
(* ===================================================================== *)

(** A distance: [None] is infinity (no path). *)
Abbreviation dist := (option Q).

(** A weighted arc [(tail, head, weight)]. *)
Abbreviation arc := (Z * Z * Q)%type.

Definition arc_tail (a : arc) : Z := a.1.1.
Definition arc_head (a : arc) : Z := a.1.2.
Definition arc_weight (a : arc) : Q := a.2.

(** [min] of two distances; the first wins a tie, as Python's [min]. *)
Definition dmin (a b : dist) : dist :=
  match a, b with
  | None, _ => b
  | _, None => a
  | Some x, Some y => if Qle_bool x y then Some x else Some y
  end.

(** [min(ds)] for a non-empty sequence. *)
Definition dmin_list (ds : list dist) : dist :=
  match ds with
  | [] => None
  | d :: ds' => foldl dmin d ds'
  end.

Definition dist_val (d : dist) : fval :=
  match d with
  | Some q => FNum q
  | None => FInf false
  end.

(** One round of relaxation towards a fixed target: the best of the
    current estimate at [v] and of every arc leaving [v]. *)
Definition relax (arcs : list arc) (d : Z → dist) (v : Z) : dist :=
  foldr (λ a acc,
      if decide (arc_tail a = v)
      then dmin acc (Qplus (arc_weight a) <$> d (arc_head a))
      else acc)
    (d v) arcs.

(** [rounds arcs t k v]: the least weight of a walk from [v] to [t] with
    at most [k] arcs. *)
Fixpoint rounds (arcs : list arc) (t : Z) (k : nat) : Z → dist :=
  match k with
  | O => λ v, if decide (v = t) then Some 0%Q else None
  | S k' => relax arcs (rounds arcs t k')
  end.

(** The travel time from [v] to [t] in a graph of [n] vertices with
    non-negative weights. *)
Definition dist_to (arcs : list arc) (n : nat) (t v : Z) : dist :=
  rounds arcs t n v.

Definition flip_arc (a : arc) : arc := (arc_head a, arc_tail a, arc_weight a).

(** The weight under which a routing library sees an edge.  [missing] is
    the weight of an edge without the attribute ([None]: an error).
    Travel times are lengths over speeds; a value that is not a finite
    non-negative number is reported as an error. *)
Definition edge_weight (missing : option Q) (a : attrs) : result Q :=
  match a !! "travel_time" with
  | Some (PNum (FNum q)) => if Qle_bool 0 q then mret q else raise ValueError
  | Some (PBool b) => mret (if b then 1 else 0)%Q
  | Some (PNum _) => raise ValueError
  | None =>
      match missing with
      | Some q => mret q
      | None => raise (LibraryError "weight is None")
      end
  end.

Fixpoint mapM {A B} (f : A → result B) (l : list A) : result (list B) :=
  match l with
  | [] => mret []
  | a :: l' => b ← f a; bs ← mapM f l'; mret (b :: bs)
  end.

(** The arcs a traversal may follow: the edges, and for an undirected
    graph (igraph's [mode="all"], NetworkX's undirected adjacency) their
    reversals too. *)
Definition graph_arcs (missing : option Q) (g : graph) : result (list arc) :=
  arcs ← mapM (λ ea : edge_id * attrs,
                 w ← edge_weight missing ea.2;
                 mret (ea.1.1.1, ea.1.1.2, w)) (map_to_list (edges g));
  mret (if directed g then arcs else arcs ++ (flip_arc <$> arcs)).

(** [list(graph.nodes)] *)
Definition node_names (g : graph) : list Z := (map_to_list (nodes g)).*1.

(** [attr.get("grocery", False)] used as a condition. *)
Definition is_grocery (a : attrs) : bool :=
  truthy (default (PBool false) (a !! "grocery")).

(** [[node for node, attr in graph.nodes(data=True) if attr.get("grocery", False)]] *)
Definition grocery_node_ids (g : graph) : list Z :=
  (filter (λ na : Z * attrs, is_grocery na.2 = true) (map_to_list (nodes g))).*1.

(** ** igraph *)

(** [ig_graph.shortest_paths(source=sources, weights="travel_time", mode=mode)]
    with [mode="in"] on a directed graph and ["all"] on an undirected one:
    row [i], column [j] is the travel time from vertex [j] to vertex
    [sources[i]].  [names] is [ig_graph.vs["_nx_name"]]. *)
Definition ig_shortest_paths (names : list Z) (arcs : list arc)
    (sources : list nat) : list (list dist) :=
  (λ s, (λ j, dist_to arcs (length names) (names !!! s) (names !!! j))
          <$> seq 0 (length names)) <$> sources.

(** [{name: idx for idx, name in enumerate(names)}] *)
Definition index_of_names (names : list Z) : gmap Z nat :=
  list_to_map (zip names (seq 0 (length names))).

(** [{idx: name for name, idx in node_to_idx.items()}] *)
Definition idx_to_node (node_to_idx : gmap Z nat) : gmap nat Z :=
  list_to_map (prod_swap <$> map_to_list node_to_idx).

(** The distances from a grocery vertex to all OTHER grocery vertices. *)
Definition other_store_distances (grocery_indices : list nat)
    (shortest_paths : list (list dist)) (grocery_idx : nat) : list dist :=
  omap (λ i, if decide (grocery_indices !!! i ≠ grocery_idx)
             then Some ((shortest_paths !!! i) !!! grocery_idx : dist)
             else None)
    (seq 0 (length grocery_indices)).

(** The body of the loop over [grocery_indices]. *)
Definition other_store_step (idx_to_node : gmap nat Z) (grocery_indices : list nat)
    (shortest_paths : list (list dist)) (acc : gmap Z dist) (grocery_idx : nat)
    : gmap Z dist :=
  let node_name := idx_to_node !!! grocery_idx in
  match other_store_distances grocery_indices shortest_paths grocery_idx with
  | [] => acc
  | ds => <[node_name := dmin_list ds]> acc
  end.

Definition NEAREST : string := "nearest_grocery_time".

(** The igraph graph built by [Graph.from_networkx] is its vertex names
    [names] (in node order) and, once weights are read, the arcs
    [graph_arcs None g] that [mode] lets a path follow. *)
Definition add_grocery_travel_time_igraph (g : graph) : result graph :=
  let names := node_names g in
  let node_to_idx := index_of_names names in
  let idx_to_node := idx_to_node node_to_idx in
  let grocery_indices := omap (λ node, node_to_idx !! node) (grocery_node_ids g) in
  match grocery_indices with
  | [] =>
      _ ← warn "No grocery stores found in graph!";
      mret g
  | _ =>
      arcs ← graph_arcs None g;
      let shortest_paths := ig_shortest_paths names arcs grocery_indices in
      let shortest_paths_to_grocery : gmap Z dist :=
        list_to_map ((λ j, (idx_to_node !!! j,
                            dmin_list ((λ i, (shortest_paths !!! i) !!! j)
                                         <$> seq 0 (length grocery_indices))))
                       <$> seq 0 (length names)) in
      let shortest_paths_to_grocery :=
        foldl (other_store_step idx_to_node grocery_indices shortest_paths)
          shortest_paths_to_grocery grocery_indices in
      mret (set_node_attributes g
              ((λ d, PNum (dist_val d)) <$> shortest_paths_to_grocery) NEAREST)
  end.

(** ** NetworkX *)

(** Distances along the edge direction from [s]: the walks towards [s]
    in the reversed graph. *)
Definition dist_from (arcs : list arc) (n : nat) (s v : Z) : dist :=
  dist_to (flip_arc <$> arcs) n s v.

(** [nx.single_source_dijkstra_path_length(graph, node, weight="travel_time")]:
    the reachable nodes with their distance. *)
Definition single_source_dijkstra_path_length (g : graph) (source : Z)
    : result (gmap Z Q) :=
  arcs ← graph_arcs (Some 1%Q) g;
  let names := node_names g in
  mret (list_to_map
          (omap (λ v, (λ q, (v, q)) <$> dist_from arcs (length names) source v) names)).

(** [nx.multi_source_dijkstra_path_length(graph, sources, weight="travel_time")]:
    an empty [sources] is a [ValueError]. *)
Definition multi_source_dijkstra_path_length (g : graph) (sources : list Z)
    : result (gmap Z Q) :=
  match sources with
  | [] => raise ValueError
  | _ =>
      arcs ← graph_arcs (Some 1%Q) g;
      let names := node_names g in
      mret (list_to_map (omap (λ v,
              (λ q, (v, q)) <$>
                dmin_list ((λ s, dist_from arcs (length names) s v) <$> sources)) names))
  end.

(** The body of the loop that replaces the zero of a grocery node. *)
Definition nearest_other_step (g : graph) (grocery_node_ids : list Z)
    (acc : gmap Z Q) (node : Z) : result (gmap Z Q) :=
  match acc !! node with
  | None => raise KeyError
  | Some d =>
      if Qeq_bool d 0 then
        shortest_paths ← single_source_dijkstra_path_length g node;
        let non_self_distances :=
          filter (λ td : Z * Q, td.1 ∈ grocery_node_ids ∧ td.1 ≠ node) shortest_paths in
        match dmin_list (Some <$> (map_to_list non_self_distances).*2) with
        | Some m => mret (<[node := m]> acc)
        | None => mret acc
        end
      else mret acc
  end.

Definition add_grocery_travel_time (g : graph) (igraph : bool) : result graph :=
  if igraph then add_grocery_travel_time_igraph g
  else
    let grocery_node_ids := grocery_node_ids g in
    shortest_paths_to_grocery ←
      multi_source_dijkstra_path_length g grocery_node_ids;
    shortest_paths_to_grocery ←
      foldlM (nearest_other_step g grocery_node_ids)
        shortest_paths_to_grocery grocery_node_ids;
    mret (set_node_attributes g
            ((λ q, PNum (FNum q)) <$> shortest_paths_to_grocery) NEAREST).

(** ** Importance scoring *)

Section importance.

(** [nx.pagerank(graph)]: a score for every node, or a failure to
    converge. *)
Variable pagerank : graph → result (gmap Z Q).


End importance.

(* ===================================================================== *)
(** * Tables *)
(* ===================================================================== *)

Definition GEODESIC_EPSG : Z := 4326.
Definition EQUAL_AREA_EPSG : Z := 5070.

Inductive geometry :=
  | Point (x y : Q)
  | Polygon (ring : list (Q * Q)).

Inductive cell :=
  | CBool (b : bool)
  | CInt (z : Z)
  | CNum (x : fval)
  | CStr (s : string)
  | CStrs (l : list string)
  | CGeom (g : geometry).

(** A row maps column names to cells; a column without an entry holds a
    missing value. *)
Abbreviation row := (gmap string cell).

Record frame := Frame {
  crs : Z;
  columns : list string;
  rows : list (Z * row);
}.

Definition set_rows (f : frame) (rs : list (Z * row)) : frame :=
  {| crs := crs f; columns := columns f; rows := rs |}.

(** [df.index] *)
Definition index (f : frame) : list Z := (rows f).*1.

(** Store a float in a row: NaN is the missing value. *)
Definition put_num (c : string) (x : fval) (r : row) : row :=
  match x with
  | FNaN => delete c r
  | _ => <[c := CNum x]> r
  end.

Definition add_column (c : string) (cols : list string) : list string :=
  if bool_decide (c ∈ cols) then cols else cols ++ [c].

(** [df.assign(c=...)] / [df[c] = ...] with one computed cell per row. *)
Definition assign (c : string) (f : Z → row → cell) (t : frame) : frame :=
  {| crs := crs t;
     columns := add_column c (columns t);
     rows := (λ ir : Z * row, (ir.1, <[c := f ir.1 ir.2]> ir.2)) <$> rows t |}.

(** [df[mask]] with a row-wise mask. *)
Definition select (keep : Z → row → bool) (t : frame) : frame :=
  set_rows t (filter (λ ir, keep ir.1 ir.2 = true) (rows t)).

(** [df.drop(columns=cs)] for columns known to be present. *)
Definition drop_columns (cs : list string) (t : frame) : frame :=
  {| crs := crs t;
     columns := filter (λ c, c ∉ cs) (columns t);
     rows := (λ ir : Z * row, (ir.1, filter (λ kv, kv.1 ∉ cs) ir.2)) <$> rows t |}.

(** [df[c].count()]: the number of non-missing cells of a column. *)
Definition count_present (c : string) (t : frame) : nat :=
  length (filter (λ ir : Z * row, is_Some (ir.2 !! c)) (rows t)).

Definition count_missing (c : string) (t : frame) : nat :=
  length (filter (λ ir : Z * row, ir.2 !! c = None) (rows t)).

(** [df.dropna(axis="columns", thresh=thresh)] keeps the columns that
    have at least [thresh] non-missing cells. *)
Definition dropna_columns (thresh : nat) (t : frame) : frame :=
  drop_columns (filter (λ c, (count_present c t < thresh)%nat) (columns t)) t.

Definition complete_row (cols : list string) (r : row) : bool :=
  forallb (λ c, bool_decide (is_Some (r !! c))) cols.

(** [df.dropna(axis="rows", how="any")] *)
Definition dropna_rows (t : frame) : frame :=
  select (λ _ r, complete_row (columns t) r) t.

(** [df.reset_index(drop=True)] *)
Definition reset_index (t : frame) : frame :=
  set_rows t (zip (Z.of_nat <$> seq 0 (length (rows t))) (rows t).*2).

(** The integer held by a cell of an identifier column. *)
Definition cell_int (c : option cell) : option Z :=
  match c with
  | Some (CInt z) => Some z
  | _ => None
  end.

(** [set(df[c])] for an identifier column. *)
Definition column_set (c : string) (t : frame) : gset Z :=
  list_to_set (omap (λ ir : Z * row, cell_int (ir.2 !! c)) (rows t)).

(** [df[c].isin(s)] on one row. *)
Definition isin (c : string) (s : gset Z) (r : row) : bool :=
  match cell_int (r !! c) with
  | Some z => bool_decide (z ∈ s)
  | None => false
  end.

(** [df.c]: attribute access fails when the column is absent. *)
Definition require_column (c : string) (t : frame) : result unit :=
  if bool_decide (c ∈ columns t) then mret tt else raise AttributeError.

(* ===================================================================== *)
(** * Table steps of the fusion pipeline *)
(* ===================================================================== *)

(** ** [reconcile_nodes_edges] *)

Definition reconcile_nodes_edges (nodes edges : frame) : result (frame * frame) :=
  _ ← require_column "u" edges;
  _ ← require_column "v" edges;
  let complete : gset Z :=
    list_to_set (index nodes) ∩ column_set "u" edges ∩ column_set "v" edges in
  let nodes := select (λ i _, bool_decide (i ∈ complete)) nodes in
  let edges := select (λ _ r, isin "u" complete r && isin "v" complete r) edges in
  mret (nodes, edges).

(** ** [clean_edges] *)

(** [int(len(edges) * 0.95)]: the floor of [19 n / 20].  (The product is
    taken in doubles.  When [0.95 n] is an integer the double product is
    that integer, the double nearest to 0.95 being closer to it than half
    a unit in the last place; otherwise [0.95 n] is at least 1/20 away
    from an integer, far more than the rounding error.) *)
Definition thresh_95 (n : nat) : nat := (19 * n / 20)%nat.

Definition str_le (a b : string) : Prop := String.leb a b = true.
#[global] Instance str_le_dec a b : Decision (str_le a b).
Proof. unfold str_le. apply _. Defined.

(** The entries of one [highway] cell after [explode()]. *)
Definition highway_values (c : option cell) : list string :=
  match c with
  | Some (CStr s) => [s]
  | Some (CStrs l) => l
  | _ => []
  end.

(** The columns of [pd.get_dummies]: the sorted distinct values. *)
Definition dummy_categories (t : frame) : list string :=
  merge_sort str_le
    (remove_dups (mjoin ((λ ir : Z * row, highway_values (ir.2 !! "highway")) <$> rows t))).

Definition hwy_name (c : string) : string := c +:+ "_hwy".

(** One row of [get_dummies(...).groupby(level=0).sum()], with the
    renamed columns. *)
Definition dummy_row (cats : list string) (r : row) : row :=
  foldr (λ c acc,
      <[hwy_name c := CInt (Z.of_nat (length (filter (λ s, s = c)
                                            (highway_values (r !! "highway")))))]> acc)
    r cats.

(** [left.join(right)] on the row labels; overlapping column names are an
    error. *)
Definition join_dummies (cats : list string) (t : frame) : result frame :=
  if bool_decide (Exists (λ c, hwy_name c ∈ columns t) cats)
  then raise ValueError
  else mret {| crs := crs t;
               columns := columns t ++ (hwy_name <$> cats);
               rows := (λ ir : Z * row, (ir.1, dummy_row cats ir.2)) <$> rows t |}.

(** The step works on [edges.copy()]; every operation below builds a new
    table. *)
Definition clean_edges (edges : frame) : result frame :=
  let edges := dropna_columns (thresh_95 (length (rows edges))) edges in
  let edges := dropna_rows edges in
  let edges := reset_index edges in
  _ ← require_column "highway" edges;
  edges ← join_dummies (dummy_categories edges) edges;
  let edges :=
    if bool_decide ("highway" ∈ columns edges)
    then drop_columns ["highway"] edges else edges in
  mret edges.

(** ** Steps that call the geometry libraries *)

Definition row_geom (r : row) : option geometry :=
  match r !! "geometry" with
  | Some (CGeom g) => Some g
  | _ => None
  end.

(** The number held by a cell of a numeric column; a missing cell is NaN. *)
Definition cell_num (c : option cell) : fval :=
  match c with
  | Some (CInt z) => FNum (inject_Z z)
  | Some (CNum x) => x
  | Some (CBool b) => FNum (if b then 1 else 0)%Q
  | _ => FNaN
  end.

(** [df[c] = ...] with one computed float per row. *)
Definition assign_num (c : string) (f : row → fval) (t : frame) : frame :=
  {| crs := crs t;
     columns := add_column c (columns t);
     rows := (λ ir : Z * row, (ir.1, put_num c (f ir.2) ir.2)) <$> rows t |}.

(** [df[fields]] *)
Definition take_columns (fields : list string) (t : frame) : result frame :=
  if bool_decide (Forall (λ c, c ∈ columns t) fields)
  then mret {| crs := crs t;
               columns := fields;
               rows := (λ ir : Z * row,
                          (ir.1, filter (λ kv, kv.1 ∈ fields) ir.2)) <$> rows t |}
  else raise KeyError.

Section spatial.

(** pyproj: reproject a geometry from one EPSG code to another. *)
Variable project : Z → Z → geometry → geometry.
(** shapely predicates and planar distance. *)
Variable within : geometry → geometry → bool.
Variable intersects : geometry → geometry → bool.
Variable distance : geometry → geometry → Q.
(** [left.sjoin(right, how="left", predicate="within")]; may raise. *)
Variable sjoin : frame → frame → result frame.
(** [gpd.read_file(<SVI tract geodatabase>, bbox=polygon.bounds)]. *)
Variable read_file : geometry → frame.

Definition cell_to_crs (from to : Z) (c : cell) : cell :=
  match c with
  | CGeom g => CGeom (project from to g)
  | _ => c
  end.

(** [gdf.to_crs(epsg=...)]: the geometry column is reprojected. *)
Definition to_crs (epsg : Z) (t : frame) : frame :=
  {| crs := epsg;
     columns := columns t;
     rows := (λ ir : Z * row,
                (ir.1, alter (cell_to_crs (crs t) epsg) "geometry" ir.2)) <$> rows t |}.

(** *** [merge_grocery] *)

(** [n] is at least as close to [g] as every row of [cands]. *)
Definition is_nearest (g n : geometry) (cands : list (Z * row)) : bool :=
  forallb (λ jr : Z * row,
      match row_geom jr.2 with
      | Some m => Qle_bool (distance g n) (distance g m)
      | None => true
      end) cands.

(** The labels of the rows of [right] nearest to [g]; equidistant rows
    are all reported. *)
Definition nearest_labels (g : geometry) (right : list (Z * row)) : list Z :=
  omap (λ ir : Z * row,
      match row_geom ir.2 with
      | Some n => if is_nearest g n right then Some ir.1 else None
      | None => None
      end) right.

(** [left.sjoin_nearest(right)]: the pairs (left label, [index_right]). *)
Definition sjoin_nearest (left right : frame) : list (Z * Z) :=
  ir ← rows left;
  match row_geom ir.2 with
  | Some g => (λ j, (ir.1, j)) <$> nearest_labels g (rows right)
  | None => []
  end.

Definition merge_grocery (nodes groceries : frame) : frame :=
  let nodes := to_crs EQUAL_AREA_EPSG nodes in
  let groceries := to_crs EQUAL_AREA_EPSG groceries in
  let index_right := (sjoin_nearest groceries nodes).*2 in
  let nodes := assign "grocery" (λ i _, CBool (bool_decide (i ∈ index_right))) nodes in
  to_crs GEODESIC_EPSG nodes.

(** *** Region membership flags ([data_from_placename], lines 499-513;
    [edges] is the edge table after [reset_index()]) *)

Definition geom_within (area : geometry) (r : row) : bool :=
  match row_geom r with
  | Some g => within g area
  | None => false
  end.

Definition is_true_cell (c : option cell) : bool :=
  match c with
  | Some (CBool b) => b
  | _ => false
  end.

Definition tag_region_membership (area_of_analysis : geometry)
    (nodes edges : frame) : result (frame * frame) :=
  let nodes := assign "aoa" (λ _ r, CBool (geom_within area_of_analysis r)) nodes in
  let nodes := assign "buffer" (λ _ r, CBool (negb (geom_within area_of_analysis r))) nodes in
  let aoa_nodes : gset Z :=
    list_to_set (index (select (λ _ r, is_true_cell (r !! "aoa")) nodes)) in
  _ ← require_column "u" edges;
  _ ← require_column "v" edges;
  let edges := assign "aoa"
    (λ _ r, CBool (isin "u" aoa_nodes r && isin "v" aoa_nodes r)) edges in
  let edges := assign "buffer"
    (λ _ r, CBool (negb (isin "u" aoa_nodes r && isin "v" aoa_nodes r))) edges in
  mret (nodes, edges).

(** *** [merge_svi] *)

Definition merge_svi (nodes svi : frame) (svi_fields : list string)
    : result frame :=
  let fields :=
    if bool_decide ("geometry" ∈ svi_fields) then svi_fields
    else svi_fields ++ ["geometry"] in
  let nodes := to_crs EQUAL_AREA_EPSG nodes in
  let svi := to_crs EQUAL_AREA_EPSG svi in
  svi ← take_columns fields svi;
  match sjoin nodes svi with
  | Ok ws joined => Ok ws (to_crs GEODESIC_EPSG joined)
  | Raise ws e =>
      _ ← Ok ws tt;
      _ ← warn "Falling back to spatial join using GEODESIC geometry.";
      let nodes := to_crs GEODESIC_EPSG nodes in
      let svi := to_crs GEODESIC_EPSG svi in
      _ ← sjoin nodes svi;
      mret nodes
  end.

(** *** [read_svi] *)

Definition read_svi (polygon : geometry) : result frame :=
  let gdf := to_crs GEODESIC_EPSG (read_file polygon) in
  let gdf := select (λ _ r,
    match row_geom r with
    | Some g => intersects g polygon
    | None => false
    end) gdf in
  _ ← (if bool_decide ("E_TOTPOP" ∈ columns gdf) then mret tt else raise KeyError);
  _ ← (if bool_decide ("AREA_SQMI" ∈ columns gdf) then mret tt else raise KeyError);
  mret (assign_num "density"
          (λ r, fdiv (cell_num (r !! "E_TOTPOP")) (cell_num (r !! "AREA_SQMI"))) gdf).

End spatial.

(** ** The GeoJSON loader of the dashboard ([app.py]) *)

Definition is_sentinel (c : cell) : bool :=
  match c with
  | CInt z => z =? -999
  | CNum x => feqb x (FNum (-999))
  | _ => false
  end.

(** [clean_invalid_values]: every property equal to -999 becomes NaN,
    the missing value (its entry leaves the row). *)
Definition clean_invalid_values (features : list row) : list row :=
  (λ properties : row, filter (λ kv, is_sentinel kv.2 = false) properties) <$> features.

(* ===================================================================== *)
(** * Objects and references *)
(* ===================================================================== *)

(** Graphs and tables are passed by reference.  A store maps references
    to the objects they denote; a call receives references and the store
    and returns the reference of its result with the store it leaves. *)
Inductive object :=
  | OGraph (g : graph)
  | OFrame (t : frame).

Abbreviation loc := positive.
Abbreviation store := (gmap positive object).







(** ** Quantities used to state the properties *)

(** The value of [attribute] read off a node, NaN when it is absent. *)
Definition node_value (g : graph) (attribute : string) (u : Z) : fval :=
  to_num (default (PNum FNaN) (default ∅ (nodes g !! u) !! attribute)).

(** The arithmetic mean on the extended rationals. *)
Definition fmean (a b : fval) : fval := fdiv (fadd a b) (FNum 2).

(** What the loop writes on edge [e] whose attributes were [ed]. *)
Definition projected (g : graph) (attribute : string) (e : edge_id)
    (ed : attrs) : attrs :=
  <[attribute := PNum (fmean (node_value g attribute e.1.1)
                             (node_value g attribute e.1.2))]> ed.



(** The columns that survive the 95% rule, stated on missing cells: a
    column of a table with [n] rows stays when the number of its missing
    cells is at most [n - floor(0.95 n)]. *)
Definition kept_columns (t : frame) : list string :=
  filter (λ c, (count_missing c t ≤ length (rows t) - thresh_95 (length (rows t)))%nat)
    (columns t).

(** A walk towards [t]: [walk R t v p] follows the arcs [p], each
    allowed by [R], from [v] to [t]. *)
Inductive walk (R : arc → Prop) (t : Z) : Z → list arc → Prop :=
  | walk_nil : walk R t t []
  | walk_cons a p :
      R a → walk R t (arc_head a) p → walk R t (arc_tail a) (a :: p).

Definition walk_weight (p : list arc) : Q :=
  foldr (λ a acc, arc_weight a + acc)%Q 0%Q p.

(** The order on distances; infinity is the greatest. *)
Definition dle (a b : dist) : Prop :=
  match a, b with
  | _, None => True
  | None, Some _ => False
  | Some x, Some y => (x <= y)%Q
  end.

(** The arcs a traveller may follow in [g]: an edge in its direction,
    and against it when the graph is undirected, at the cost of its
    travel time. *)
Definition road (g : graph) (a : arc) : Prop :=
  ∃ k ed,
    (edges g !! (arc_tail a, arc_head a, k) = Some ed
     ∨ (directed g = false ∧ edges g !! (arc_head a, arc_tail a, k) = Some ed))
    ∧ edge_weight None ed = Ok [] (arc_weight a).

(** Every edge carries a usable travel time. *)
Definition weights_ok (g : graph) : Prop :=
  ∀ e ed, edges g !! e = Some ed → ∃ w, edge_weight None ed = Ok [] w.

Definition weights_okb (g : graph) : bool :=
  forallb (λ ea : edge_id * attrs,
      match edge_weight None ea.2 with
      | Ok [] _ => true
      | _ => false
      end) (map_to_list (edges g)).

(** The distances [single_source_dijkstra_path_length] reports from
    [node] to the other grocery nodes. *)
Definition non_self_values (names : list Z) (arcs : list arc) (G : list Z)
    (node : Z) : list Q :=
  (map_to_list
     (filter (λ td : Z * Q, td.1 ∈ G ∧ td.1 ≠ node)
        (list_to_map (M := gmap Z Q)
           (omap (λ v, (λ q, (v, q)) <$> dist_from arcs (length names) node v) names)))).*2.

(** [y] is a grocery-flagged node other than [x]. *)
Definition other_grocery (g : graph) (x y : Z) : Prop :=
  y ≠ x ∧ ∃ ay, nodes g !! y = Some ay ∧ is_grocery ay = true.

(** Some other grocery node can be reached from [x]. *)
Definition reaches_other_grocery (g : graph) (x : Z) : Prop :=
  ∃ y p, other_grocery g x y ∧ walk (road g) y x p.

(** [q] is the travel time from [x] to the nearest other grocery node:
    no walk from [x] to another grocery node is shorter, and one such
    walk takes [q]. *)
Definition least_time_to_other_grocery (g : graph) (x : Z) (q : Q) : Prop :=
  (∀ y p, other_grocery g x y → walk (road g) y x p → (q <= walk_weight p)%Q)
  ∧ ∃ y p, other_grocery g x y ∧ walk (road g) y x p ∧ (walk_weight p == q)%Q.

(** Executable form of [graph_wf]. *)
Definition graph_wfb (g : graph) : bool :=
  forallb (λ e : edge_id,
      bool_decide (is_Some (nodes g !! e.1.1))
      && bool_decide (is_Some (nodes g !! e.1.2)))
    (edge_keys g).

(* ===================================================================== *)
(** * Further steps of [data_processing.py] *)
(* ===================================================================== *)

(** ** [clean_nodes] *)

(** A cell that [replace([np.inf, -np.inf], np.nan)] leaves a value: an
    infinite float becomes NaN, the missing value. *)
Definition finite_cell (c : cell) : bool :=
  match c with
  | CNum (FNum _) => true
  | CNum _ => false
  | _ => true
  end.

(** [df.replace([np.inf, -np.inf], np.nan)] *)
Definition replace_inf (t : frame) : frame :=
  set_rows t
    ((λ ir : Z * row, (ir.1, filter (λ kv, finite_cell kv.2 = true) ir.2)) <$> rows t).

(** The columns [clean_nodes] removes when they are present. *)
Definition NODE_ARTIFACTS : list string :=
  ["lat"; "lon"; "index_right"; "highway"; "ref"].

(** [gpd.GeoDataFrame(nodes, geometry="geometry")] raises [ValueError]
    for a table without that column. *)
Definition clean_nodes (nodes : frame) : result frame :=
  let nodes :=
    drop_columns (filter (λ col, col ∈ columns nodes) NODE_ARTIFACTS) nodes in
  _ ← (if bool_decide ("geometry" ∈ columns nodes) then mret tt else raise ValueError);
  mret (dropna_rows (replace_inf nodes)).

(** ** [merge_highway_dummies_to_nodes] *)

(** [sub in s] for strings. *)
Fixpoint contains (sub s : string) : bool :=
  String.prefix sub s
  || match s with
     | EmptyString => false
     | String _ s' => contains sub s'
     end.

(** The number a cell adds to a column sum; a missing cell, or one that
    holds no number, is skipped. *)
Definition summand (c : option cell) : option fval :=
  match cell_num c with
  | FNaN => None
  | x => Some x
  end.

(** [Series.sum()] of a numeric column. *)
Definition sum_cells (cs : list (option cell)) : fval :=
  foldr (λ c acc, from_option (λ x, fadd x acc) acc (summand c)) (FNum 0) cs.

(** The rows of the group of [i] in [edges.groupby("u")]. *)
Definition out_rows (i : Z) (edges : frame) : list row :=
  (filter (λ ir : Z * row, cell_int (ir.2 !! "u") = Some i) (rows edges)).*2.

(** The cells [nodes.join(node_highways)] adds to the row labelled [i]:
    the sums of its group, and nothing when no edge leaves [i]. *)
Definition join_highways (highway_cols : list string) (edges : frame)
    (i : Z) (r : row) : row :=
  match out_rows i edges with
  | [] => r
  | group =>
      foldr (λ c acc, put_num c (sum_cells ((λ e : row, e !! c) <$> group)) acc)
        r highway_cols
  end.

(** [edges[["u"] + highway_cols]] needs the column [u]; the join refuses
    overlapping column names. *)
Definition merge_highway_dummies_to_nodes (nodes edges : frame) : result frame :=
  let highway_cols := filter (λ col, contains "_hwy" col = true) (columns edges) in
  _ ← (if bool_decide ("u" ∈ columns edges) then mret tt else raise KeyError);
  if bool_decide (Exists (λ c, c ∈ columns nodes) highway_cols)
  then raise ValueError
  else mret {| crs := crs nodes;
               columns := columns nodes ++ highway_cols;
               rows := (λ ir : Z * row,
                          (ir.1, join_highways highway_cols edges ir.1 ir.2))
                       <$> rows nodes |}.

(* ===================================================================== *)
(** * Street networks ([street_networks.py]) *)
(* ===================================================================== *)

(** [key_to_max]: a dictionary is its items in insertion order.
    [max(dictionary, key=...)] keeps the first key and replaces it by a
    later one only when that one's value is strictly greater. *)
Definition key_to_max (dictionary : list (Z * Z)) : result Z :=
  match dictionary with
  | [] => raise ValueError
  | first :: rest =>
      mret (foldl (λ best kv : Z * Z, if best.2 <? kv.2 then kv else best) first rest).1
  end.

(** [add_binary_attribute]: the loop over [G.nodes] writes the flag into
    the attribute dictionary of each node. *)
Definition add_binary_attribute (G : graph) (node_subset : gset Z)
    (attribute_label : string) : graph :=
  foldl (λ G node,
      set_nodes G
        (alter (λ a, <[attribute_label := PBool (bool_decide (node ∈ node_subset))]> a)
           node (nodes G)))
    G (node_names G).

(* ===================================================================== *)
(** * Tag dictionaries of the point-of-interest queries ([poi_queries.py]) *)
(* ===================================================================== *)

(** The value of an OSM tag: a scalar, or a list or tuple of values. *)
#[warnings="-register-all"] Inductive tagval :=
  | TBool (b : bool)
  | TStr (s : string)
  | TList (l : list tagval)
  | TTuple (l : list tagval).

(** An exception class outside the ones listed in [exn], carried by its
    name. *)
Definition TypeError : exn := LibraryError "TypeError".

(** [hash(v)] succeeds: lists are unhashable, a tuple is hashable when
    its items are. *)
Fixpoint hashable (v : tagval) : bool :=
  match v with
  | TBool _ | TStr _ => true
  | TList _ => false
  | TTuple l => forallb hashable l
  end.

(** The argument of [_make_hashable_tags_helper]: a dictionary, a list of
    dictionaries, or an object of another type. *)
Inductive tags_arg :=
  | TagsDict (d : gmap string tagval)
  | TagsList (l : list (gmap string tagval))
  | TagsOther.

(** The body of the inner loop: one [(key, value)] item merged into
    [combined_tags].  (When the first value stored under a key is itself
    a list, [append] extends the caller's list object too; what is
    modelled is the dictionary the helper builds.) *)
Definition combine_item (key : string) (value : tagval)
    (combined_tags : gmap string tagval) : gmap string tagval :=
  match combined_tags !! key with
  | Some (TList l) => <[key := TList (l ++ [value])]> combined_tags
  | Some old => <[key := TList [old; value]]> combined_tags
  | None => <[key := value]> combined_tags
  end.

(** The two nested loops.  The keys of one dictionary are distinct, so
    the order in which its items are visited does not matter. *)
Definition combine_tags (tags : list (gmap string tagval)) : gmap string tagval :=
  foldl (λ combined_tags tag, map_fold combine_item combined_tags tag) ∅ tags.

(** [frozenset(items)]: every item is hashed.  The items have distinct
    keys, so the set is the dictionary again. *)
Definition frozenset_items (d : gmap string tagval) : result (gmap string tagval) :=
  if bool_decide (map_Forall (λ _ v, hashable v = true) d) then mret d
  else raise TypeError.

(** [tuple(value) if isinstance(value, list) else value] *)
Definition list_to_tuple (v : tagval) : tagval :=
  match v with
  | TList l => TTuple l
  | _ => v
  end.

(** [list(value) if isinstance(value, tuple) else value] *)
Definition tuple_to_list (v : tagval) : tagval :=
  match v with
  | TTuple l => TList l
  | _ => v
  end.

Definition _make_hashable_tags_helper (tags : tags_arg) : result (gmap string tagval) :=
  match tags with
  | TagsDict d => frozenset_items d
  | TagsList l => frozenset_items (list_to_tuple <$> combine_tags l)
  | TagsOther => raise ValueError
  end.

(** The first lines of [_from_place_name_helper] and [_from_point_helper]:
    the tag dictionary handed to the OSM query. *)
Definition tags_of_hashable (hashable_tags : gmap string tagval) : gmap string tagval :=
  tuple_to_list <$> hashable_tags.

(** The tag definitions of the module. *)
Definition PRIMARY : gmap string tagval := {[ "shop" := TStr "supermarket" ]}.
Definition SECONDARY : list (gmap string tagval) :=
  [ {[ "shop" := TStr "general" ]}; {[ "shop" := TStr "convenience" ]};
    {[ "shop" := TStr "greengrocer" ]} ].
Definition TERTIARY : list (gmap string tagval) :=
  [ {[ "amenity" := TStr "fast_food" ]}; {[ "shop" := TStr "variety_store" ]};
    {[ "amenity" := TStr "fuel" ]} ].

(* ===================================================================== *)
(** * The disk cache and the batch driver ([data_processing.py]) *)
(* ===================================================================== *)

(** An argument value of a call. *)
Inductive argval :=
  | AStr (s : string)
  | AInt (z : Z)
  | ABool (b : bool).

#[global] Instance argval_eq_dec : EqDecision argval.
Proof. solve_decision. Defined.
#[global] Instance argval_countable : Countable argval.
Proof.
  refine (inj_countable'
    (λ a, match a with
          | AStr s => inl s
          | AInt z => inr (inl z)
          | ABool b => inr (inr b)
          end)
    (λ x, match x with
          | inl s => AStr s
          | inr (inl z) => AInt z
          | inr (inr b) => ABool b
          end) _).
  by intros [].
Defined.

(** The objects gathered in the results dictionary. *)
Inductive pyobj :=
  | PyStr (s : string)
  | PyNum (x : fval)
  | PyGeom (g : geometry)
  | PyGraph (g : graph)
  | PyFrame (t : frame).

(** What [data_from_placename] returns (or what a cache file holds): the
    results dictionary, or the pair [(nodes, edges)]. *)
Inductive retval :=
  | RDict (d : gmap string pyobj)
  | RPair (nodes edges : frame).

(** How a call ends: it returns, or raises
    [requests.exceptions.ConnectTimeout],
    [osmnx._errors.InsufficientResponseError], or another exception;
    [msg] is [str(e)]. *)
Inductive outcome :=
  | Returned (value : retval)
  | ConnectTimeout
  | InsufficientResponseError (msg : string)
  | Failure (msg : string).

(** The cache directory: the file of a key holds a pickled value, or
    bytes that [pickle.load] rejects.  The key is the MD5 digest of the
    function name, [str(args)] and [str(sorted(kwargs.items()))]; it is
    modelled by the name, the positional arguments and the set of keyword
    arguments themselves. *)
Abbreviation cache_key := (string * list argval * gmap string argval)%type.
Abbreviation cache_dir := (gmap cache_key (option retval)).

(** [def data_from_placename(placename, radius_m=10_000, buffer=5_000,
    return_dictionary=False)] *)
Definition PARAMETERS : list string :=
  ["placename"; "radius_m"; "buffer"; "return_dictionary"].

(** The interpreter matches the keyword arguments of a call, in order,
    against the parameter names before anything else: a keyword that
    names no parameter, or a parameter already filled by position, is a
    [TypeError]. *)
Fixpoint check_keywords (positional : nat) (kwargs : list (string * argval))
    : option string :=
  match kwargs with
  | [] => None
  | kv :: rest =>
      match list_find (λ p, p = kv.1) PARAMETERS with
      | Some (i, _) =>
          if bool_decide (i < positional)%nat
          then Some ("data_from_placename() got multiple values for argument '"
                       +:+ kv.1 +:+ "'")
          else check_keywords positional rest
      | None =>
          Some ("data_from_placename() got an unexpected keyword argument '"
                  +:+ kv.1 +:+ "'")
      end
  end.

(** [result and isinstance(result, dict) and "nodes" in result] *)
Definition valid_result (value : retval) : bool :=
  match value with
  | RDict d => bool_decide (is_Some (d !! "nodes"))
  | RPair _ _ => false
  end.

Definition retries : nat := 3.
Definition retry_delay : Z := 60.

Definition failed_message (placename msg : string) : string :=
  "Failed to process " +:+ placename +:+ " after " +:+ pretty retries
    +:+ " attempts - " +:+ msg.

(** The keyword arguments of the call in the retry loop. *)
Definition batch_kwargs : list (string * argval) :=
  [("radius_m", AInt 10000); ("buffer", AInt 5000);
   ("refresh_cache", ABool false); ("return_dictionary", ABool true)].

Section cached_call.

(** The state outside the cache directory (network, other files). *)
Variable W : Type.

(** The function under the decorators, once its keyword arguments are
    accepted: the rest of the argument binding and the pipeline. *)
Variable body : list argval → list (string * argval) → W → outcome * W.

(** [@disk_cache]: a readable cache file is returned without calling the
    function; otherwise the function is called and, when it returns, its
    value is stored. *)
Definition disk_cache (name : string)
    (func : list argval → list (string * argval) → W → outcome * W)
    (args : list argval) (kwargs : list (string * argval))
    (σ : W * cache_dir) : outcome * (W * cache_dir) :=
  let key : cache_key := (name, args, list_to_map kwargs) in
  match σ.2 !! key with
  | Some (Some value) => (Returned value, σ)
  | _ =>
      let '(o, w) := func args kwargs σ.1 in
      match o with
      | Returned value => (o, (w, <[key := Some value]> σ.2))
      | _ => (o, (w, σ.2))
      end
  end.

Definition data_from_placename_function (args : list argval)
    (kwargs : list (string * argval)) (w : W) : outcome * W :=
  match check_keywords (length args) kwargs with
  | Some msg => (Failure msg, w)
  | None => body args kwargs w
  end.

(** The decorated function ([@timer] only prints). *)
Definition data_from_placename : list argval → list (string * argval) →
    W * cache_dir → outcome * (W * cache_dir) :=
  disk_cache "data_from_placename" data_from_placename_function.

(** The retry loop for one place: the value of a successful attempt if
    there is one, with the waits ([time.sleep]) in seconds. *)
Fixpoint attempt_loop (placename : string) (attempts : list nat)
    (σ : W * cache_dir) : result (option retval * list Z * (W * cache_dir)) :=
  match attempts with
  | [] => mret (None, [], σ)
  | attempt :: rest =>
      let '(o, σ) := data_from_placename [AStr placename] batch_kwargs σ in
      match o with
      | Returned value =>
          if valid_result value then mret (Some value, [], σ)
          else
            _ ← warn (failed_message placename
                        ("Invalid result format for " +:+ placename));
            attempt_loop placename rest σ
      | ConnectTimeout =>
          if bool_decide (attempt < retries - 1)%nat then
            let wait_time := retry_delay * (Z.of_nat attempt + 1) in
            _ ← warn ("Timeout for " +:+ placename +:+ ", waiting "
                        +:+ pretty wait_time +:+ "s before retry "
                        +:+ pretty (attempt + 1)%nat);
            r ← attempt_loop placename rest σ;
            mret (r.1.1, wait_time :: r.1.2, r.2)
          else
            _ ← warn ("Failed to process " +:+ placename +:+ " after "
                        +:+ pretty retries +:+ " attempts - Timeout");
            attempt_loop placename rest σ
      | InsufficientResponseError msg =>
          _ ← warn ("Unable to complete data pull for " +:+ placename
                      +:+ ": " +:+ msg);
          mret (None, [], σ)
      | Failure msg =>
          _ ← warn (failed_message placename msg);
          attempt_loop placename rest σ
      end
  end.

(** The variables of [batch_process_cities] and what it leaves behind. *)
Record tally := Tally {
  places : gmap string retval;
  successful_cities : list string;
  failed_cities : list string;
  slept : list Z;
  after : W * cache_dir;
}.

(** The body of the loop over [placenames]. *)
Definition city_step (acc : tally) (placename : string) : result tally :=
  r ← attempt_loop placename (seq 0 retries) (after acc);
  mret (match r.1.1 with
        | Some value =>
            {| places := <[placename := value]> (places acc);
               successful_cities := successful_cities acc ++ [placename];
               failed_cities := failed_cities acc;
               slept := slept acc ++ r.1.2;
               after := r.2 |}
        | None =>
            {| places := places acc;
               successful_cities := successful_cities acc;
               failed_cities := failed_cities acc ++ [placename];
               slept := slept acc ++ r.1.2;
               after := r.2 |}
        end).

(** It returns [(places, {"successful": successful_cities,
    "failed": failed_cities})]. *)
Definition batch_process_cities (placenames : list string) (σ : W * cache_dir)
    : result tally :=
  foldlM city_step
    {| places := ∅; successful_cities := []; failed_cities := [];
       slept := []; after := σ |}
    placenames.

End cached_call.

Arguments disk_cache {W} name func args kwargs σ.
Arguments data_from_placename_function {W} body args kwargs w.
Arguments data_from_placename {W} body _ _ _.
Arguments attempt_loop {W} body placename attempts σ.
Arguments Tally {W} _ _ _ _ _.
Arguments places {W} _.
Arguments successful_cities {W} _.
Arguments failed_cities {W} _.
Arguments slept {W} _.
Arguments after {W} _.
Arguments city_step {W} body acc placename.
Arguments batch_process_cities {W} body placenames σ.

(* ===================================================================== *)
(** * The cleaning of the two tables ([data_from_placename], lines 533-551) *)
(* ===================================================================== *)

Definition AssertionError : exn := LibraryError "AssertionError".

(** [assert c in t.columns] *)
Definition assert_column (c : string) (t : frame) : result unit :=
  if bool_decide (c ∈ columns t) then mret tt else raise AssertionError.

Definition clean_tables (nodes edges : frame) : result (frame * frame) :=
  edges ← clean_edges edges;
  nodes ← clean_nodes nodes;
  _ ← assert_column "geometry" nodes;
  _ ← assert_column "geometry" edges;
  ne ← reconcile_nodes_edges nodes edges;
  nodes ← merge_highway_dummies_to_nodes ne.1 ne.2;
  _ ← assert_column "x" nodes;
  _ ← assert_column "y" nodes;
  mret (nodes, ne.2).

(* ===================================================================== *)
(** * The choropleth of the dashboard ([app.py]) *)
(* ===================================================================== *)

(** ** [create_geo_json_data] *)

Definition FileNotFoundError : exn := LibraryError "FileNotFoundError".

Definition lower_ascii (a : Ascii.ascii) : Ascii.ascii :=
  let n := Ascii.nat_of_ascii a in
  if (65 <=? n)%nat && (n <=? 90)%nat then Ascii.ascii_of_nat (n + 32) else a.

(** [s.lower()] on ASCII text. *)
Fixpoint lower (s : string) : string :=
  match s with
  | EmptyString => EmptyString
  | String a s' => String (lower_ascii a) (lower s')
  end.

(** The two places where the file of a state is looked for. *)
Definition geo_json_paths (location_state : string) : list string :=
  let filename := "geo_json_" +:+ lower location_state +:+ ".json" in
  ["data/" +:+ filename; "src/data/" +:+ filename].

(** [files] gives, for the path of an existing file, the property
    dictionaries of its features.  With [gdf=True] the function reaches
    [gpd.from_file], which GeoPandas does not define: an
    [AttributeError], which the handler for [FileNotFoundError] does not
    catch. *)
Definition create_geo_json_data (files : string → option (list row))
    (location_state : string) (gdf : bool) : result (list row) :=
  foldr (λ file_path next,
      if gdf then raise AttributeError
      else match files file_path with
           | Some features => mret (clean_invalid_values features)
           | None => next
           end)
    (raise FileNotFoundError) (geo_json_paths location_state).

(** ** [generate_style_handle] *)

(** IEEE multiplication. *)
Definition fmul (a b : fval) : fval :=
  match a, b with
  | FNaN, _ | _, FNaN => FNaN
  | FInf s, FInf t => FInf (xorb s t)
  | FInf s, FNum y | FNum y, FInf s =>
      if Qis_zero y then FNaN else FInf (xorb s (Qis_neg y))
  | FNum x, FNum y => FNum (x * y)
  end.

(** [x > y] on floats: false when either side is NaN. *)
Definition fgtb (x y : fval) : bool :=
  match x, y with
  | FNum a, FNum b => negb (Qle_bool a b)
  | FInf false, FNum _ | FInf false, FInf true | FNum _, FInf true => true
  | _, _ => false
  end.

(** [max(values)]: the first item, replaced by a later one only when
    that one compares greater. *)
Definition py_max (values : list fval) : result fval :=
  match values with
  | [] => raise ValueError
  | x :: rest => mret (foldl (λ m y, if fgtb y m then y else m) x rest)
  end.

Definition ZeroDivisionError : exn := LibraryError "ZeroDivisionError".
Definition UnboundLocalError : exn := LibraryError "UnboundLocalError".

(** [a / b] on Python numbers: a zero divisor raises. *)
Definition py_div (a b : fval) : result fval :=
  match b with
  | FNum q => if Qis_zero q then raise ZeroDivisionError else mret (fdiv a b)
  | _ => mret (fdiv a b)
  end.

(** [feature["properties"][name]]; NaN is the missing value.  (Every
    feature of a tract file carries every field; a field that the file
    lacks altogether is not modelled.) *)
Definition property (properties : row) (name : string) : fval :=
  cell_num (properties !! name).

Definition properties_values (svi : string) (features : list row)
    : result (list fval) :=
  if decide (svi = "POP_DENSITY") then
    mapM (λ properties : row,
            py_div (property properties "E_TOTPOP") (property properties "AREA_SQMI"))
      features
  else
    mret (filter (λ x, feqb x (FNum (-999)) = false)
            ((λ properties : row, property properties svi) <$> features)).

(** [np.linspace(0, stop, num).tolist()] *)
Definition linspace0 (stop : fval) (num : nat) : list fval :=
  (λ i : nat,
     if decide (i = num - 1)%nat then stop
     else fmul (FNum (inject_Z (Z.of_nat i)))
            (fdiv stop (FNum (inject_Z (Z.of_nat (num - 1))))))
  <$> seq 0 num.

(** The number of colours of the scale. *)
Definition COLORS : nat := 8.

(** The function returns the style function, the colour scale, the
    classes, the style and the colour bar; the scale and the style are
    constants, and the colour bar runs from 0 to [properties_max].  The
    model returns the classes and [properties_max].  A variable whose
    name has none of the known prefixes leaves [properties_max]
    unassigned. *)
Definition generate_style_handle (svi : string) (features : list row)
    : result (list fval * fval) :=
  properties_values ← properties_values svi features;
  properties_max ←
    (if String.prefix "E_" svi then
       m ← py_max properties_values; mret (Some m)
     else if String.prefix "EPL_" svi || String.prefix "RPL_" svi
             || String.prefix "EP_" svi then mret (Some (FNum 1))
     else mret None);
  match properties_max with
  | None => raise UnboundLocalError
  | Some properties_max =>
      mret (linspace0 (fmul properties_max (FNum (1001 # 1000))) (COLORS + 1),
            properties_max)
  end.

(* ===================================================================== *)
(** * Quantities used to state the further properties *)
(* ===================================================================== *)

(** The cell of column [c] is present and finite. *)
Definition usable (r : row) (c : string) : Prop :=
  ∃ x, r !! c = Some x ∧ finite_cell x = true.

(** Every cell of a row belongs to a column of its table. *)
Definition rows_within_columns (t : frame) : Prop :=
  ∀ i r c, (i, r) ∈ rows t → is_Some (r !! c) → c ∈ columns t.

Definition rows_within_columnsb (t : frame) : bool :=
  forallb (λ ir : Z * row,
      forallb (λ kv : string * cell, bool_decide (kv.1 ∈ columns t)) (map_to_list ir.2))
    (rows t).

(** The values stored under [key] across the dictionaries, in order. *)
Definition values_of (key : string) (tags : list (gmap string tagval)) : list tagval :=
  omap (λ tag : gmap string tagval, tag !! key) tags.

(** A value that is neither a list nor a tuple. *)
Definition scalar (v : tagval) : bool :=
  match v with
  | TBool _ | TStr _ => true
  | _ => false
  end.

(** A scalar, or a list of scalars. *)
Definition plain (v : tagval) : bool :=
  match v with
  | TBool _ | TStr _ => true
  | TList l => forallb scalar l
  | TTuple _ => false
  end.

(** What the query receives for a key whose values across the list are
    [vs]. *)
Definition merged_value (vs : list tagval) : option tagval :=
  match vs with
  | [] => None
  | [v] => Some v
  | _ => Some (TList vs)
  end.

(** The value [combined_tags[key]] after one more value arrives. *)
Definition merge_step (cur : option tagval) (value : tagval) : option tagval :=
  Some (match cur with
        | Some (TList l) => TList (l ++ [value])
        | Some old => TList [old; value]
        | None => value
        end).

(** The cache file that the retry loop looks up for [placename]. *)
Definition batch_key (placename : string) : cache_key :=
  ("data_from_placename", [AStr placename], list_to_map batch_kwargs).

(** No readable cache file for the key. *)
Definition cache_miss (cache : cache_dir) (key : cache_key) : Prop :=
  cache !! key = None ∨ cache !! key = Some None.

(** [str(e)] of the [TypeError] the call in the retry loop ends in. *)
Definition UNEXPECTED_REFRESH_CACHE : string :=
  "data_from_placename() got an unexpected keyword argument 'refresh_cache'".

(** The longest the retry loop can wait over the given attempts. *)
Definition wait_budget (attempts : list nat) : Z :=
  foldr (λ a acc, (if bool_decide (a < retries - 1)%nat
                   then retry_delay * (Z.of_nat a + 1) else 0) + acc) 0 attempts.

(** The seconds slept in all. *)
Definition total_wait (l : list Z) : Z := foldr Z.add 0 l.

(** [d] is the least travel time of a walk from [x] to a grocery node;
    [None] when no grocery node can be reached from [x]. *)
Definition least_time_to_grocery (g : graph) (x : Z) (d : dist) : Prop :=
  (∀ y ay p, nodes g !! y = Some ay → is_grocery ay = true →
     walk (road g) y x p → dle d (Some (walk_weight p)))
  ∧ (∀ q, d = Some q →
       ∃ y ay p, nodes g !! y = Some ay ∧ is_grocery ay = true
         ∧ walk (road g) y x p ∧ (walk_weight p == q)%Q).

(** [d] is the least travel time of a walk from a grocery node to [x];
    [None] when [x] can be reached from no grocery node. *)
Definition least_time_from_grocery (g : graph) (x : Z) (d : dist) : Prop :=
  (∀ y ay p, nodes g !! y = Some ay → is_grocery ay = true →
     walk (road g) x y p → dle d (Some (walk_weight p)))
  ∧ (∀ q, d = Some q →
       ∃ y ay p, nodes g !! y = Some ay ∧ is_grocery ay = true
         ∧ walk (road g) x y p ∧ (walk_weight p == q)%Q).



(* ===================================================================== *)
(** * Concrete inputs *)
(* ===================================================================== *)

Definition num (q : Q) : pyval := PNum (FNum q).

(** A one-way street 1 → 2 → 3 with a parallel carriageway 1 ⇉ 2; node 3
    carries no importance score. *)
Definition G_line : graph :=
  {| directed := true;
     nodes := list_to_map
       [ (1, {[ "pagerank" := num (1#2) ]});
         (2, {[ "pagerank" := num (1#4) ]});
         (3, ∅) ];
     edges := list_to_map
       [ ((1, 2, 0), {[ "travel_time" := num 3 ]});
         ((1, 2, 1), {[ "travel_time" := num 4 ]});
         ((2, 3, 0), {[ "travel_time" := num 5 ]}) ] |}.

Definition pt (x y : Z) : cell := CGeom (Point (inject_Z x) (inject_Z y)).

(** Four intersections on a line and four road segments; the segment
    5 → 1 starts at an intersection that is not in the node table. *)
Definition T_nodes : frame :=
  {| crs := GEODESIC_EPSG;
     columns := ["geometry"];
     rows := [ (1, {[ "geometry" := pt 0 0 ]});
               (2, {[ "geometry" := pt 10 0 ]});
               (3, {[ "geometry" := pt 20 0 ]});
               (4, {[ "geometry" := pt 30 0 ]}) ] |}.

Definition edge_row (u v : Z) (highway : cell) : row :=
  {[ "u" := CInt u; "v" := CInt v; "key" := CInt 0; "highway" := highway ]}.

Definition T_edges : frame :=
  {| crs := GEODESIC_EPSG;
     columns := ["u"; "v"; "key"; "highway"];
     rows := [ (0, edge_row 1 2 (CStr "residential"));
               (1, edge_row 2 1 (CStr "residential"));
               (2, edge_row 2 3 (CStrs ["primary"; "secondary"]));
               (3, edge_row 5 1 (CStr "primary")) ] |}.

(** A geometry lies within the area when its abscissa is at most 15. *)
Definition within_x15 (g _ : geometry) : bool :=
  match g with
  | Point x _ => Qle_bool x 15
  | Polygon _ => false
  end.

(** Two supermarkets: one beside node 1, one halfway between nodes 3
    and 4. *)
Definition T_groceries : frame :=
  {| crs := GEODESIC_EPSG;
     columns := ["osmid"; "geometry"; "grocery"];
     rows := [ (0, {[ "osmid" := CInt 100; "geometry" := pt 1 0; "grocery" := CBool true ]});
               (1, {[ "osmid" := CInt 101; "geometry" := pt 25 0; "grocery" := CBool true ]}) ] |}.

(** Distance along the abscissa. *)
Definition distance_x (a b : geometry) : Q :=
  match a, b with
  | Point x _, Point x' _ => Qabs (x - x')
  | _, _ => 0
  end.

(** A projection that leaves coordinates alone. *)
Definition project_id (_ _ : Z) (g : geometry) : geometry := g.

(** Ten road segments; [name] is missing on one of them (10%) and
    [maxspeed] on two (20%). *)
Definition edge10 (i : Z) (name maxspeed : option cell) : Z * row :=
  (i, let r := edge_row i (i + 1) (CStr "residential") in
      let r := match name with Some c => <["name" := c]> r | None => r end in
      match maxspeed with Some c => <["maxspeed" := c]> r | None => r end).

Definition T_edges10 : frame :=
  {| crs := GEODESIC_EPSG;
     columns := ["u"; "v"; "key"; "highway"; "name"; "maxspeed"];
     rows := [ edge10 0 (Some (CStr "Main St")) (Some (CInt 30));
               edge10 1 (Some (CStr "Main St")) (Some (CInt 30));
               edge10 2 (Some (CStr "Main St")) (Some (CInt 30));
               edge10 3 (Some (CStr "Main St")) (Some (CInt 30));
               edge10 4 (Some (CStr "Main St")) (Some (CInt 30));
               edge10 5 (Some (CStr "Main St")) (Some (CInt 30));
               edge10 6 (Some (CStr "Main St")) (Some (CInt 30));
               edge10 7 (Some (CStr "Main St")) (Some (CInt 30));
               edge10 8 (Some (CStr "Main St")) None;
               edge10 9 None None ] |}.

(** Two census tracts; the second one has no population estimate: the
    data source writes -999 there. *)
Definition T_svi : frame :=
  {| crs := GEODESIC_EPSG;
     columns := ["E_TOTPOP"; "AREA_SQMI"; "E_POV150"; "geometry"];
     rows := [ (0, {[ "E_TOTPOP" := CInt 1200; "AREA_SQMI" := CNum (FNum 2);
                      "E_POV150" := CInt 300;
                      "geometry" := CGeom (Polygon [(0, 0); (15, 0); (15, 9); (0, 9)]%Q) ]});
               (1, {[ "E_TOTPOP" := CInt (-999); "AREA_SQMI" := CNum (FNum 4);
                      "E_POV150" := CInt (-999);
                      "geometry" := CGeom (Polygon [(15, 0); (40, 0); (40, 9); (15, 9)]%Q) ]}) ] |}.

Definition read_file_T (_ : geometry) : frame := T_svi.
Definition intersects_all (_ _ : geometry) : bool := true.

(** A left join on a containment predicate, as [sjoin] builds it when it
    succeeds. *)
Definition left_join (within : geometry → geometry → bool) (left right : frame)
    : frame :=
  {| crs := crs left;
     columns := columns left ++ "index_right" :: filter (λ c, c ≠ "geometry") (columns right);
     rows :=
       ir ← rows left;
       let matches :=
         filter (λ jr : Z * row,
             match row_geom ir.2, row_geom jr.2 with
             | Some a, Some b => within a b
             | _, _ => false
             end = true) (rows right) in
       match matches with
       | [] => [ir]
       | _ => (λ jr : Z * row,
                 (ir.1, <["index_right" := CInt jr.1]> ir.2 ∪ delete "geometry" jr.2))
              <$> matches
       end |}.

(** Containment of a point in an axis-parallel box given by its ring. *)
Definition within_box (a b : geometry) : bool :=
  match a, b with
  | Point x y, Polygon ring =>
      existsb (λ p : Q * Q, Qle_bool p.1 x) ring
      && existsb (λ p : Q * Q, Qle_bool x p.1) ring
      && existsb (λ p : Q * Q, Qle_bool p.2 y) ring
      && existsb (λ p : Q * Q, Qle_bool y p.2) ring
  | _, _ => false
  end.

(** A spatial join that fails in the equal-area projection and succeeds
    in geodetic coordinates. *)
Definition sjoin_T (left right : frame) : result frame :=
  if crs left =? EQUAL_AREA_EPSG
  then raise (LibraryError "GEOSException")
  else mret (left_join within_box left right).

(** The tract table as [read_svi] returns it. *)
Definition T_svi_read : frame :=
  match read_svi project_id intersects_all read_file_T (Polygon []) with
  | Ok _ t => t
  | Raise _ _ => T_svi
  end.

(** Its [density] and [geometry] columns, in the equal-area projection. *)
Definition T_svi_fields : frame :=
  match take_columns ["density"; "geometry"]
          (to_crs project_id EQUAL_AREA_EPSG T_svi_read) with
  | Ok _ t => t
  | Raise _ _ => T_svi
  end.

(** The table the geodetic join builds for the nodes of [T_nodes]. *)
Definition T_joined : frame :=
  left_join within_box
    (to_crs project_id GEODESIC_EPSG (to_crs project_id EQUAL_AREA_EPSG T_nodes))
    (to_crs project_id GEODESIC_EPSG T_svi_fields).



(** Ten road segments whose classification is missing on two of them. *)
Definition T_edges_unclassified : frame :=
  {| crs := GEODESIC_EPSG;
     columns := ["u"; "v"; "key"; "highway"];
     rows := ((λ i, (i, edge_row i (i + 1) (CStr "residential")))
                <$> [0; 1; 2; 3; 4; 5; 6; 7])
             ++ [ (8, delete "highway" (edge_row 8 9 (CStr "")));
                  (9, delete "highway" (edge_row 9 10 (CStr ""))) ] |}.



Definition shop (b : bool) : attrs := {[ "grocery" := PBool b ]}.
Definition street (t : Q) : attrs := {[ "travel_time" := num t ]}.

(** Supermarkets at nodes 1 and 3 of a one-way ring 1 → 2 → 3 → 1 with
    a second carriageway 1 ⇉ 2 and a feeder 4 → 1. *)
Definition G_shops : graph :=
  {| directed := true;
     nodes := list_to_map [ (1, shop true); (2, ∅); (3, shop true); (4, shop false) ];
     edges := list_to_map
       [ ((1, 2, 0), street 3); ((1, 2, 1), street 2); ((2, 3, 0), street 5);
         ((3, 1, 0), street 4); ((4, 1, 0), street 1) ] |}.

(** Two supermarkets joined by a segment so short that its rounded
    travel time is zero. *)
Definition G_zero : graph :=
  {| directed := true;
     nodes := list_to_map [ (1, shop true); (2, shop true) ];
     edges := list_to_map [ ((1, 2, 0), street 0); ((2, 1, 0), street 6) ] |}.

(** Two supermarkets on streets that do not meet. *)
Definition G_apart : graph :=
  {| directed := true;
     nodes := list_to_map [ (1, shop true); (2, shop true); (3, ∅) ];
     edges := list_to_map [ ((1, 3, 0), street 2) ] |}.

(** The travel time to food a step left on node [n]. *)
Definition nearest_of (r : result graph) (n : Z) : option pyval :=
  match r with
  | Ok _ g' => (nodes g' !! n) ≫= (.!! NEAREST)
  | Raise _ _ => None
  end.

(** ** Inputs of the further properties *)

(** An intersection table as the demographic join leaves it: node 2
    cannot reach a supermarket (infinite travel time), node 3 lies in no
    census tract (no density). *)
Definition node_row (x : Z) (time : fval) (density : option Q) : row :=
  let r : row :=
    {[ "geometry" := pt x 0; "x" := CNum (FNum (inject_Z x)); "y" := CNum (FNum 0);
       "highway" := CStr "traffic_signals"; "index_right" := CInt 0;
       "nearest_grocery_time" := CNum time ]} in
  match density with
  | Some q => <["density" := CNum (FNum q)]> r
  | None => r
  end.

Definition T_nodes_joined : frame :=
  {| crs := GEODESIC_EPSG;
     columns := ["geometry"; "x"; "y"; "highway"; "index_right";
                 "nearest_grocery_time"; "density"];
     rows := [ (1, node_row 0 (FNum 7) (Some 600%Q));
               (2, node_row 10 (FInf false) (Some 600%Q));
               (3, node_row 20 (FNum 4) None);
               (4, node_row 30 (FNum 1) (Some 250%Q)) ] |}.

Definition T_nodes_cleaned : frame :=
  match clean_nodes T_nodes_joined with
  | Ok _ t => t
  | Raise _ _ => T_nodes_joined
  end.

(** Three cleaned road segments: two leave node 1, one leaves node 2. *)
Definition hwy_row (u v primary residential : Z) : row :=
  {[ "u" := CInt u; "v" := CInt v;
     "primary_hwy" := CInt primary; "residential_hwy" := CInt residential ]}.

Definition T_edges_hwy : frame :=
  {| crs := GEODESIC_EPSG;
     columns := ["u"; "v"; "primary_hwy"; "residential_hwy"];
     rows := [ (0, hwy_row 1 2 0 1); (1, hwy_row 1 3 1 0); (2, hwy_row 2 1 0 1) ] |}.

Definition T_nodes_hwy : frame :=
  match merge_highway_dummies_to_nodes T_nodes T_edges_hwy with
  | Ok _ t => t
  | Raise _ _ => T_nodes
  end.

(** A tag dictionary with a list of alternatives. *)
Definition D_shops : gmap string tagval :=
  {[ "shop" := TList [TStr "supermarket"; TStr "convenience"] ]}.

(** The tag dictionary a query sends for the tags it is given. *)
Definition query_tags (tags : tags_arg) : option (gmap string tagval) :=
  match _make_hashable_tags_helper tags with
  | Ok _ hashable_tags => Some (tags_of_hashable hashable_tags)
  | Raise _ _ => None
  end.

(** A results dictionary, and a pipeline that would return it for every
    place. *)
Definition V_ok : retval :=
  RDict {[ "nodes" := PyFrame T_nodes; "edges" := PyFrame T_edges ]}.

Definition body_ok (_ : list argval) (_ : list (string * argval)) (w : unit)
    : outcome * unit :=
  (Returned V_ok, w).

(** A pipeline that has become unreachable. *)
Definition body_down (_ : list argval) (_ : list (string * argval)) (w : unit)
    : outcome * unit :=
  (ConnectTimeout, w).

(** The call of the module's entry point. *)
Definition main_kwargs : list (string * argval) := [("refresh_cache", ABool true)].

(** Road segments with their geometry (given by its end points). *)
Definition segment (u v : Z) (highway : cell) : row :=
  <["geometry" := CGeom (Polygon [(inject_Z u, 0%Q); (inject_Z v, 0%Q)])]>
    (edge_row u v highway).

Definition T_segments : frame :=
  {| crs := GEODESIC_EPSG;
     columns := ["u"; "v"; "key"; "highway"; "geometry"];
     rows := [ (0, segment 1 4 (CStr "primary"));
               (1, segment 4 1 (CStr "primary"));
               (2, segment 1 2 (CStr "residential"));
               (3, segment 2 1 (CStr "residential"));
               (4, segment 3 4 (CStrs ["residential"; "primary"])) ] |}.

Definition T_cleaned : frame * frame :=
  match clean_tables T_nodes_joined T_segments with
  | Ok _ p => p
  | Raise _ _ => (T_nodes_joined, T_segments)
  end.

(** The state files of the dashboard: only the fallback copy of the
    Colorado file exists; its first tract has no poverty estimate. *)
Definition tract (pop pov : Z) : row :=
  {[ "E_TOTPOP" := CInt pop; "E_POV150" := CInt pov; "AREA_SQMI" := CNum (FNum 2) ]}.

Definition F_colorado : list row :=
  [ tract 1200 (-999); tract 800 200; tract 4000 1000 ].

Definition files_T (path : string) : option (list row) :=
  if decide (path = "src/data/geo_json_co.json") then Some F_colorado else None.

(* ===================================================================== *)
(** * Proofs *)
(* ===================================================================== *)

(** Membership in a literal list. *)
Ltac elem_of_tac :=
  simpl; repeat first [ apply list_elem_of_here | apply list_elem_of_further ].

Lemma bind_Ok_nil {A B} (f : A → result B) (a : A) : (Ok [] a ≫= f) = f a.
Proof. unfold mbind, result_bind. by destruct (f a). Qed.

Lemma bind_mret {A B} (f : A → result B) (a : A) : (mret a ≫= f) = f a.
Proof. apply bind_Ok_nil. Qed.

Lemma fmean_num x y : fmean (FNum x) (FNum y) = FNum ((x + y) / 2).
Proof. reflexivity. Qed.

Lemma fmean_nan_l b : fmean FNaN b = FNaN.
Proof. reflexivity. Qed.

Lemma fmean_nan_r a : fmean a FNaN = FNaN.
Proof. by destruct a. Qed.

(** ** Edge value projection *)

Lemma average_step_ok g attribute u v k ed :
  edges g !! (u, v, k) = Some ed →
  is_Some (nodes g !! u) → is_Some (nodes g !! v) →
  average_step attribute g (u, v, k) =
    Ok [] (set_edges g (<[(u, v, k) := projected g attribute (u, v, k) ed]> (edges g))).
Proof.
  intros He [nu Hu] [nv Hv].
  unfold average_step, node_view, edge_view, projected, node_value, fmean,
    average_value.
  simpl. rewrite Hu, Hv, He. reflexivity.
Qed.

Lemma foldlM_average attribute l : ∀ g,
  NoDup l →
  (∀ e, e ∈ l → is_Some (edges g !! e)) →
  graph_wf g →
  ∃ g', foldlM (average_step attribute) g l = Ok [] g'
    ∧ directed g' = directed g
    ∧ nodes g' = nodes g
    ∧ ∀ e, edges g' !! e =
        if decide (e ∈ l) then projected g attribute e <$> edges g !! e
        else edges g !! e.
Proof.
  induction l as [|[[u v] k] l IH]; intros g Hnd Hin Hwf.
  - exists g. repeat split; done.
  - apply NoDup_cons in Hnd as [Hnotin Hnd].
    destruct (Hin (u, v, k)) as [ed Hed]; [left|].
    destruct (Hwf u v k) as [Hu Hv]; [by eexists|].
    set (g1 := set_edges g (<[(u, v, k) := projected g attribute (u, v, k) ed]> (edges g))).
    destruct (IH g1) as (g' & Hfold & Hdir & Hnodes & Hedges).
    + done.
    + intros e He. unfold g1; simpl.
      destruct (decide (e = (u, v, k))) as [->|Hne].
      * rewrite lookup_insert_eq. by eexists.
      * rewrite lookup_insert_ne by done. apply Hin. by right.
    + intros u' v' k' [x Hx]. unfold g1 in Hx; simpl in Hx.
      unfold g1; simpl.
      destruct (decide ((u', v', k') = (u, v, k))) as [Heq|Hne].
      * injection Heq as -> -> ->. done.
      * rewrite lookup_insert_ne in Hx by done. apply (Hwf u' v' k'). by eexists.
    + exists g'. cbn [foldlM]. rewrite (average_step_ok _ _ _ _ _ ed) by done.
      fold g1. rewrite bind_Ok_nil, Hfold. repeat split; try done.
      intros e. rewrite Hedges. unfold g1 at 2 3. simpl.
      destruct (decide (e = (u, v, k))) as [->|Hne].
      * rewrite decide_False by done. rewrite decide_True by left.
        rewrite lookup_insert_eq, Hed. done.
      * rewrite lookup_insert_ne by done.
        destruct (decide (e ∈ l)) as [Hl|Hl].
        -- rewrite decide_True by (by right). done.
        -- rewrite decide_False; [done|]. intros [?|?]%elem_of_cons; done.
Qed.

Lemma graph_wfb_spec g : graph_wfb g = true → graph_wf g.
Proof.
  unfold graph_wfb, graph_wf, edge_keys. intros H u v k [ed Hed].
  rewrite forallb_forall in H.
  specialize (H (u, v, k)). simpl in H.
  rewrite andb_true_iff, !bool_decide_eq_true in H. apply H.
  apply list_elem_of_In, list_elem_of_fmap. exists ((u, v, k), ed). split; [done|].
  by apply elem_of_map_to_list.
Qed.

(** The whole loop: every edge is rewritten once, with the mean of its
    own endpoints; nothing else changes. *)
Lemma add_average_to_edge_run (g : graph) (attribute : string) :
  graph_wf g →
  ∃ g', add_average_to_edge g attribute = Ok [] g'
    ∧ directed g' = directed g
    ∧ nodes g' = nodes g
    ∧ ∀ e, edges g' !! e = projected g attribute e <$> edges g !! e.
Proof.
  intros Hwf.
  destruct (foldlM_average attribute (edge_keys g) g) as (g' & Hrun & Hd & Hn & He).
  - apply NoDup_fst_map_to_list.
  - intros e [[e' ed] [-> Hin]]%list_elem_of_fmap.
    apply elem_of_map_to_list in Hin. by eexists.
  - done.
  - exists g'. split; [exact Hrun|]. split; [exact Hd|]. split; [exact Hn|].
    intros e. rewrite He. destruct (decide (e ∈ edge_keys g)) as [|Hnin]; [done|].
    destruct (edges g !! e) as [ed|] eqn:Hed; [|done].
    exfalso. apply Hnin. apply list_elem_of_fmap. exists (e, ed). split; [done|].
    by apply elem_of_map_to_list.
Qed.

(** C8: for every edge [(u, v, k)] of a graph, [add_average_to_edge] stores
    under [attribute] the arithmetic mean of the values its two endpoint
    nodes carry for [attribute]; a value that is absent from an endpoint
    counts as NaN, and a NaN at either endpoint (hence also at both) makes
    the edge value NaN.  The call returns normally, keeps the node table
    and the set of edges, and leaves the other edge attributes alone. *)
Theorem add_average_to_edge_mean (g : graph) (attribute : string) :
  graph_wf g →
  ∃ g', add_average_to_edge g attribute = Ok [] g'
    ∧ nodes g' = nodes g
    ∧ dom (edges g') = dom (edges g)
    ∧ ∀ u v k ed, edges g !! (u, v, k) = Some ed →
        ∃ val, edges g' !! (u, v, k) = Some (<[attribute := PNum val]> ed)
          ∧ val = fmean (node_value g' attribute u) (node_value g' attribute v)
          ∧ (∀ x y, node_value g' attribute u = FNum x →
                    node_value g' attribute v = FNum y →
                    val = FNum ((x + y) / 2))
          ∧ (node_value g' attribute u = FNaN ∨ node_value g' attribute v = FNaN →
             val = FNaN).
Proof.
  intros Hwf.
  destruct (add_average_to_edge_run g attribute Hwf) as (g' & Hrun & _ & Hn & He).
  exists g'. split; [exact Hrun|]. split; [exact Hn|]. split.
  - apply set_eq. intros e. rewrite !elem_of_dom, He. by rewrite fmap_is_Some.
  - intros u v k ed Hed.
    assert (Hnv : ∀ w, node_value g' attribute w = node_value g attribute w)
      by (intros w; unfold node_value; by rewrite Hn).
    exists (fmean (node_value g attribute u) (node_value g attribute v)).
    rewrite !Hnv. split; [|split; [done|split]].
    + by rewrite He, Hed.
    + intros x y -> ->. reflexivity.
    + intros [-> | ->]; [apply fmean_nan_l | apply fmean_nan_r].
Qed.

Lemma add_average_to_edge_mean_witness :
  ∃ g', add_average_to_edge G_line "pagerank" = Ok [] g'
    ∧ nodes g' = nodes G_line
    ∧ dom (edges g') = dom (edges G_line)
    ∧ ∀ u v k ed, edges G_line !! (u, v, k) = Some ed →
        ∃ val, edges g' !! (u, v, k) = Some (<["pagerank" := PNum val]> ed)
          ∧ val = fmean (node_value g' "pagerank" u) (node_value g' "pagerank" v)
          ∧ (∀ x y, node_value g' "pagerank" u = FNum x →
                    node_value g' "pagerank" v = FNum y →
                    val = FNum ((x + y) / 2))
          ∧ (node_value g' "pagerank" u = FNaN ∨ node_value g' "pagerank" v = FNaN →
             val = FNaN).
Proof.
  apply (add_average_to_edge_mean G_line "pagerank").
  apply graph_wfb_spec. vm_compute. reflexivity.
Defined.

Example add_average_to_edge_G_line :
  (λ r, match r with
        | Ok _ g' => (edges g' !! (1, 2, 1)) ≫= (.!! "pagerank")
        | Raise _ _ => None
        end) (add_average_to_edge G_line "pagerank") = Some (PNum (FNum (((1#2) + (1#4)) / 2)))
  ∧ (λ r, match r with
        | Ok _ g' => (edges g' !! (2, 3, 0)) ≫= (.!! "pagerank")
        | Raise _ _ => None
        end) (add_average_to_edge G_line "pagerank") = Some (PNum FNaN).
Proof. split; vm_compute; reflexivity. Qed.

(** ** Reconciliation *)

Lemma elem_of_select keep t i r :
  (i, r) ∈ rows (select keep t) ↔ (i, r) ∈ rows t ∧ keep i r = true.
Proof. unfold select. simpl. rewrite list_elem_of_filter. simpl. tauto. Qed.

Lemma elem_of_column_set c t z :
  z ∈ column_set c t ↔ ∃ i r, (i, r) ∈ rows t ∧ r !! c = Some (CInt z).
Proof.
  unfold column_set. rewrite elem_of_list_to_set, list_elem_of_omap. split.
  - intros [[i r] [Hin Hc]]. exists i, r. split; [done|]. simpl in Hc.
    destruct (r !! c) as [[]|]; simpl in Hc; try done. congruence.
  - intros (i & r & Hin & Hc). exists (i, r). split; [done|]. simpl. by rewrite Hc.
Qed.

Lemma isin_true c s r :
  isin c s r = true ↔ ∃ z, r !! c = Some (CInt z) ∧ z ∈ s.
Proof.
  unfold isin. split.
  - destruct (r !! c) as [[]|]; simpl; try done.
    rewrite bool_decide_eq_true. eauto.
  - intros (z & -> & Hz). simpl. by rewrite bool_decide_eq_true.
Qed.

(** C3: [reconcile_nodes_edges] returns whenever the edge table has its
    [u] and [v] columns; every edge it retains has both endpoints among
    the labels of the retained node table, and every retained node label
    is the [u] endpoint of some edge and the [v] endpoint of some edge of
    the edge table it was given. *)
Theorem reconcile_nodes_edges_consistent (nodes edges : frame) :
  "u" ∈ columns edges → "v" ∈ columns edges →
  ∃ nodes' edges',
    reconcile_nodes_edges nodes edges = Ok [] (nodes', edges')
    ∧ (∀ i r, (i, r) ∈ rows edges' →
         ∃ u v, r !! "u" = Some (CInt u) ∧ r !! "v" = Some (CInt v)
                ∧ u ∈ index nodes' ∧ v ∈ index nodes')
    ∧ (∀ n, n ∈ index nodes' →
         (∃ i r, (i, r) ∈ rows edges ∧ r !! "u" = Some (CInt n))
         ∧ (∃ i r, (i, r) ∈ rows edges ∧ r !! "v" = Some (CInt n))).
Proof.
  intros Hu Hv. unfold reconcile_nodes_edges, require_column.
  rewrite !bool_decide_eq_true_2 by done.
  eexists _, _. split; [reflexivity|].
  set (complete := list_to_set (index nodes) ∩ column_set "u" edges ∩ column_set "v" edges).
  assert (Hidx : ∀ z, z ∈ complete →
            z ∈ index (select (λ i _, bool_decide (i ∈ complete)) nodes)).
  { intros z Hz. assert (Hz' := Hz). unfold complete in Hz'.
    rewrite !elem_of_intersection, elem_of_list_to_set in Hz'.
    destruct Hz' as [[Hn _] _]. unfold index in Hn.
    apply list_elem_of_fmap in Hn as [[i r] [-> Hin]].
    unfold index. apply list_elem_of_fmap. exists (i, r). split; [done|].
    apply elem_of_select. split; [done|]. by rewrite bool_decide_eq_true. }
  split.
  - intros i r [Hin Hkeep]%elem_of_select.
    apply andb_true_iff in Hkeep as [Hku Hkv].
    apply isin_true in Hku as (u & Hcu & Hcompu).
    apply isin_true in Hkv as (v & Hcv & Hcompv).
    exists u, v. auto.
  - intros n Hn. unfold index in Hn.
    apply list_elem_of_fmap in Hn as [[i r] [-> [Hin Hkeep]%elem_of_select]].
    simpl in *. rewrite bool_decide_eq_true in Hkeep. unfold complete in Hkeep.
    rewrite !elem_of_intersection, !elem_of_column_set in Hkeep.
    destruct Hkeep as [[_ H1] H2]. done.
Qed.

Lemma reconcile_nodes_edges_consistent_witness :
  ("u" ∈ columns T_edges ∧ "v" ∈ columns T_edges)
  ∧ ∃ nodes' edges',
    reconcile_nodes_edges T_nodes T_edges = Ok [] (nodes', edges')
    ∧ (∀ i r, (i, r) ∈ rows edges' →
         ∃ u v, r !! "u" = Some (CInt u) ∧ r !! "v" = Some (CInt v)
                ∧ u ∈ index nodes' ∧ v ∈ index nodes')
    ∧ (∀ n, n ∈ index nodes' →
         (∃ i r, (i, r) ∈ rows T_edges ∧ r !! "u" = Some (CInt n))
         ∧ (∃ i r, (i, r) ∈ rows T_edges ∧ r !! "v" = Some (CInt n))).
Proof.
  assert (Hu : "u" ∈ columns T_edges) by elem_of_tac.
  assert (Hv : "v" ∈ columns T_edges) by elem_of_tac.
  split; [by split|].
  exact (reconcile_nodes_edges_consistent T_nodes T_edges Hu Hv).
Defined.

Example reconcile_T :
  match reconcile_nodes_edges T_nodes T_edges with
  | Ok _ (nodes', edges') => (index nodes', index edges')
  | Raise _ _ => ([], [])
  end = ([1; 2], [0; 1]).
Proof. vm_compute. reflexivity. Qed.

(** ** Region membership flags *)






(** The segment 2 → 3 straddles the boundary and is tagged [buffer]. *)
Example region_flags_T :
  match tag_region_membership within_x15 (Polygon []) T_nodes T_edges with
  | Ok _ (_, edges') =>
      (λ ir : Z * row, (ir.2 !! "aoa", ir.2 !! "buffer")) <$> rows edges'
  | Raise _ _ => []
  end = [ (Some (CBool true), Some (CBool false));
          (Some (CBool true), Some (CBool false));
          (Some (CBool false), Some (CBool true));
          (Some (CBool false), Some (CBool true)) ].
Proof. vm_compute. reflexivity. Qed.

(** ** Grocery attachment *)







(** Node 1 is nearest to the first supermarket; nodes 3 and 4 are both
    at distance 5 from the second one and are both flagged. *)
Example merge_grocery_T :
  (λ ir : Z * row, (ir.1, ir.2 !! "grocery"))
    <$> rows (merge_grocery project_id distance_x T_nodes T_groceries)
  = [ (1, Some (CBool true)); (2, Some (CBool false));
      (3, Some (CBool true)); (4, Some (CBool true)) ].
Proof. vm_compute. reflexivity. Qed.

(** ** Edge cleaning *)

Lemma count_present_missing c t :
  (count_present c t + count_missing c t = length (rows t))%nat.
Proof.
  unfold count_present, count_missing.
  induction (rows t) as [|[i r] l IH]; [done|].
  rewrite !filter_cons. simpl.
  destruct (r !! c) eqn:Hc.
  - rewrite decide_True by (by eexists). rewrite decide_False by done. simpl. lia.
  - rewrite decide_False by (by intros []). rewrite decide_True by done. simpl. lia.
Qed.

Lemma filter_ext_in {A} (P Q : A → Prop) `{!∀ x, Decision (P x)} `{!∀ x, Decision (Q x)}
    (l : list A) :
  (∀ x, x ∈ l → P x ↔ Q x) → filter P l = filter Q l.
Proof.
  induction l as [|a l IH]; intros Hext; [done|].
  rewrite !filter_cons.
  assert (Ha : P a ↔ Q a) by (apply Hext; left).
  rewrite IH by (intros x Hx; apply Hext; by right).
  destruct (decide (P a)), (decide (Q a)); tauto || done.
Qed.

Lemma thresh_95_le n : (thresh_95 n ≤ n)%nat.
Proof. unfold thresh_95. apply Nat.Div0.div_le_upper_bound. lia. Qed.

Lemma columns_drop_columns cs t :
  columns (drop_columns cs t) = filter (λ c, c ∉ cs) (columns t).
Proof. reflexivity. Qed.

Lemma columns_dropna_columns t :
  columns (dropna_columns (thresh_95 (length (rows t))) t) = kept_columns t.
Proof.
  unfold dropna_columns, kept_columns. rewrite columns_drop_columns.
  apply filter_ext_in. intros c Hc.
  rewrite list_elem_of_filter.
  pose proof (count_present_missing c t). pose proof (thresh_95_le (length (rows t))).
  split.
  - intros Hn. destruct (decide (count_present c t < thresh_95 (length (rows t)))%nat) as [Hlt|Hge]; [|lia].
    destruct Hn. done.
  - intros Hle [Hlt _]. lia.
Qed.

Lemma hwy_name_not_highway c : hwy_name c ≠ "highway".
Proof.
  unfold hwy_name.
  destruct c as [|a1 [|a2 [|a3 [|a4 [|a5 [|a6 [|a7 [|a8 c]]]]]]]]; simpl;
    intros H; repeat (injection H as _ H); discriminate.
Qed.

Lemma elem_of_kept_columns c t :
  c ∈ kept_columns t ↔
  c ∈ columns t ∧ (count_missing c t ≤ length (rows t) - thresh_95 (length (rows t)))%nat.
Proof. unfold kept_columns. rewrite list_elem_of_filter. tauto. Qed.

Lemma filter_not_highway_dummies (cats : list string) :
  filter (λ c, c ∉ ["highway"]) (hwy_name <$> cats) = hwy_name <$> cats.
Proof.
  induction cats as [|c cats IH]; [done|].
  rewrite fmap_cons, filter_cons, IH. rewrite decide_True; [done|].
  intros [H|H]%elem_of_cons; [by apply hwy_name_not_highway in H|by apply elem_of_nil in H].
Qed.

Lemma lookup_dummy_row_Some (cats : list string) (r : row) (c : string) :
  is_Some (r !! c) → is_Some (dummy_row cats r !! c).
Proof.
  intros H. induction cats as [|x cats IH]; [done|]. simpl.
  destruct (decide (hwy_name x = c)) as [->|Hne].
  - rewrite lookup_insert_eq. by eexists.
  - by rewrite lookup_insert_ne.
Qed.

Lemma lookup_dummy_row_cat (cats : list string) (r : row) (x : string) :
  x ∈ cats → is_Some (dummy_row cats r !! hwy_name x).
Proof.
  induction cats as [|y cats IH]; [by intros ?%elem_of_nil|].
  intros [->|Hin]%elem_of_cons; simpl.
  - rewrite lookup_insert_eq. by eexists.
  - destruct (decide (hwy_name y = hwy_name x)) as [->|Hne].
    + rewrite lookup_insert_eq. by eexists.
    + rewrite lookup_insert_ne by done. auto.
Qed.

Lemma complete_row_spec (cols : list string) (r : row) :
  complete_row cols r = true ↔ ∀ c, c ∈ cols → is_Some (r !! c).
Proof.
  unfold complete_row. rewrite forallb_forall. split.
  - intros H c Hc. apply list_elem_of_In in Hc. apply H in Hc.
    by apply bool_decide_eq_true in Hc.
  - intros H c Hc. apply bool_decide_eq_true, H. by apply list_elem_of_In.
Qed.

Lemma length_rows_reset_index t : length (rows (reset_index t)) = length (rows t).
Proof.
  unfold reset_index. simpl. rewrite length_zip, !length_fmap, length_seq. lia.
Qed.

Lemma elem_of_rows_reset_index t i r :
  (i, r) ∈ rows (reset_index t) → r ∈ (rows t).*2.
Proof. unfold reset_index. simpl. apply elem_of_zip_r. Qed.

Lemma length_complete_drop_columns (cols cs : list string) (t : frame) :
  (∀ c, c ∈ cols → c ∉ cs) →
  length (filter (λ ir : Z * row, complete_row cols ir.2 = true)
            (rows (drop_columns cs t)))
  = length (filter (λ ir : Z * row, complete_row cols ir.2 = true) (rows t)).
Proof.
  intros Hcs. unfold drop_columns. cbn [rows].
  induction (rows t) as [|[i r] l IH]; [done|].
  rewrite fmap_cons, !filter_cons. cbn [fst snd].
  assert (Heq : complete_row cols (filter (λ kv : string * cell, kv.1 ∉ cs) r)
                = complete_row cols r).
  { apply eq_true_iff_eq. rewrite !complete_row_spec. split; intros Hall c Hc.
    - destruct (Hall c Hc) as [x Hx]. apply map_lookup_filter_Some in Hx as [Hx _]. by eexists.
    - destruct (Hall c Hc) as [x Hx]. exists x. apply map_lookup_filter_Some.
      split; [done|]. simpl. auto. }
  rewrite Heq. destruct (decide _); simpl; by rewrite IH.
Qed.

Lemma lookup_filter_not_in (cs : list string) (r : row) (c : string) :
  c ∉ cs → filter (λ kv : string * cell, kv.1 ∉ cs) r !! c = r !! c.
Proof.
  intros Hc. destruct (r !! c) as [x|] eqn:Hx.
  - by apply map_lookup_filter_Some.
  - apply map_lookup_filter_None. by left.
Qed.

Lemma lookup_dummy_row_other (cats : list string) (r : row) (c : string) :
  (∀ x, c ≠ hwy_name x) → dummy_row cats r !! c = r !! c.
Proof.
  intros Hc. induction cats as [|x cats IH]; [done|]. simpl.
  rewrite lookup_insert_ne; [done|]. intros Heq. by apply (Hc x).
Qed.

Lemma rows_clean_edges_origin (edges : frame) (cats cols : list string) epsg i r :
  (∀ c x, c ∈ columns edges → c ≠ hwy_name x) →
  (i, r) ∈ rows (drop_columns ["highway"]
      {| crs := epsg;
         columns := cols;
         rows := (λ ir : Z * row, (ir.1, dummy_row cats ir.2))
                   <$> rows (reset_index (dropna_rows
                          (dropna_columns (thresh_95 (length (rows edges))) edges))) |}) →
  ∃ i0 r0, (i0, r0) ∈ rows edges
    ∧ complete_row (kept_columns edges) r0 = true
    ∧ ∀ c, c ∈ kept_columns edges → c ≠ "highway" → r !! c = r0 !! c.
Proof.
  intros Hfresh Hin. unfold drop_columns in Hin. cbn [rows] in Hin.
  apply list_elem_of_fmap in Hin as [[i' r4] [Heq Hin]].
  cbn [fst snd] in Heq. injection Heq as -> ->.
  apply list_elem_of_fmap in Hin as [[i'' r3] [Heq Hin]].
  cbn [fst snd] in Heq. injection Heq as -> ->.
  apply elem_of_rows_reset_index in Hin.
  apply list_elem_of_fmap in Hin as [[j r2] [-> Hin]]. cbn [fst snd].
  apply elem_of_select in Hin as [Hin Hcomplete].
  rewrite columns_dropna_columns in Hcomplete.
  unfold dropna_columns, drop_columns in Hin. cbn [rows] in Hin.
  apply list_elem_of_fmap in Hin as [[i0 r0] [Heq Hin]].
  cbn [fst snd] in Heq. injection Heq as -> ->.
  assert (Hkeep : ∀ c, c ∈ kept_columns edges →
            filter (λ kv : string * cell,
              kv.1 ∉ filter (λ c0, (count_present c0 edges
                                     < thresh_95 (length (rows edges)))%nat)
                       (columns edges)) r0 !! c = r0 !! c).
  { intros c [Hc Hk]%elem_of_kept_columns.
    apply lookup_filter_not_in.
    intros [Hlt _]%list_elem_of_filter.
    pose proof (count_present_missing c edges).
    pose proof (thresh_95_le (length (rows edges))). lia. }
  exists i0, r0. split; [done|]. split.
  - apply complete_row_spec. intros c Hc. rewrite <- Hkeep by done.
    by apply (proj1 (complete_row_spec _ _) Hcomplete).
  - intros c Hc Hne.
    rewrite lookup_filter_not_in by (by rewrite list_elem_of_singleton).
    rewrite lookup_dummy_row_other.
    + by apply Hkeep.
    + intros x. apply Hfresh. by apply elem_of_kept_columns in Hc as [Hc _].
Qed.

(** C7 (as the code has it): on a table of [n] rows in which [highway]
    survives the 95% rule and no column is named like an indicator
    column, [clean_edges] returns a table whose columns are the input
    columns with at most [n - floor(0.95 n)] missing cells, in their
    order and without [highway], followed by the [_hwy] indicator
    columns; its rows are the input rows without a missing cell in the
    surviving columns, and no row of the result has a missing cell; the
    raw [highway] column is absent. *)
Theorem clean_edges_spec (edges : frame) :
  "highway" ∈ kept_columns edges →
  (∀ c x, c ∈ columns edges → c ≠ hwy_name x) →
  ∃ res dummies,
    clean_edges edges = Ok [] res
    ∧ columns res = filter (λ c, c ≠ "highway") (kept_columns edges) ++ dummies
    ∧ Forall (λ d, ∃ x, d = hwy_name x) dummies
    ∧ (∀ i r c, (i, r) ∈ rows res → c ∈ columns res → is_Some (r !! c))
    ∧ (∀ i r, (i, r) ∈ rows res →
         ∃ i0 r0, (i0, r0) ∈ rows edges
           ∧ complete_row (kept_columns edges) r0 = true
           ∧ ∀ c, c ∈ kept_columns edges → c ≠ "highway" → r !! c = r0 !! c)
    ∧ length (rows res)
      = length (filter (λ ir : Z * row, complete_row (kept_columns edges) ir.2 = true)
                  (rows edges))
    ∧ "highway" ∉ columns res.
Proof.
  intros Hhwy Hfresh. unfold clean_edges.
  set (t1 := dropna_columns _ edges).
  set (t2 := dropna_rows t1).
  set (t3 := reset_index t2).
  assert (Hc1 : columns t1 = kept_columns edges) by apply columns_dropna_columns.
  assert (Hc3 : columns t3 = kept_columns edges) by done.
  unfold require_column. rewrite bool_decide_eq_true_2 by (by rewrite Hc3).
  unfold mret, result_ret. rewrite bind_Ok_nil.
  set (cats := dummy_categories t3).
  unfold join_dummies. rewrite bool_decide_eq_false_2; last first.
  { rewrite Exists_exists. intros (x & _ & Hx). rewrite Hc3 in Hx.
    apply elem_of_kept_columns in Hx as [Hx _]. by apply (Hfresh _ x) in Hx. }
  rewrite bind_mret.
  assert (Hhwy3 : "highway" ∈ columns t3) by (by rewrite Hc3).
  rewrite bool_decide_eq_true_2 by (apply elem_of_app; left; exact Hhwy3).
  eexists _, (hwy_name <$> cats). split; [reflexivity|].
  assert (Hcols : columns (drop_columns ["highway"]
            {| crs := crs t3; columns := columns t3 ++ (hwy_name <$> cats);
               rows := (λ ir : Z * row, (ir.1, dummy_row cats ir.2)) <$> rows t3 |})
          = filter (λ c, c ≠ "highway") (kept_columns edges) ++ (hwy_name <$> cats)).
  { rewrite columns_drop_columns. cbn [columns]. rewrite filter_app, Hc3.
    rewrite filter_not_highway_dummies. f_equal.
    apply filter_ext_in. intros c _. rewrite list_elem_of_singleton. done. }
  split; [exact Hcols|]. split; [|split; [|split; [|split]]].
  - apply Forall_forall. intros d [x [-> _]]%list_elem_of_fmap. by exists x.
  - intros i r c Hin Hc. rewrite Hcols in Hc.
    unfold drop_columns in Hin. cbn [rows] in Hin.
    apply list_elem_of_fmap in Hin as [[i' r4] [Heq Hin]].
    cbn [fst snd] in Heq. injection Heq as -> ->.
    apply list_elem_of_fmap in Hin as [[i'' r3] [Heq Hin]].
    cbn [fst snd] in Heq. injection Heq as -> ->.
    apply elem_of_rows_reset_index in Hin.
    apply list_elem_of_fmap in Hin as [[j r2] [-> Hin]]. cbn [fst snd].
    apply elem_of_select in Hin as [_ Hcomplete].
    rewrite Hc1 in Hcomplete.
    assert (Hne : c ≠ "highway").
    { apply elem_of_app in Hc as [[? _]%list_elem_of_filter|[x [-> _]]%list_elem_of_fmap];
        [done|apply hwy_name_not_highway]. }
    assert (Hsome : is_Some (dummy_row cats r2 !! c)).
    { apply elem_of_app in Hc as [[_ Hk]%list_elem_of_filter|[x [-> Hx]]%list_elem_of_fmap].
      - apply lookup_dummy_row_Some. by apply (proj1 (complete_row_spec _ _) Hcomplete).
      - by apply lookup_dummy_row_cat. }
    destruct Hsome as [x Hx]. exists x. apply map_lookup_filter_Some. split; [done|].
    simpl. by rewrite list_elem_of_singleton.
  - intros i r Hin.
    exact (rows_clean_edges_origin edges cats (columns t3 ++ (hwy_name <$> cats))
             (crs t3) i r Hfresh Hin).
  - unfold drop_columns. cbn [rows]. rewrite !length_fmap.
    unfold t3. rewrite length_rows_reset_index.
    unfold t2, dropna_rows, select, set_rows. cbn [rows]. rewrite Hc1.
    unfold t1, dropna_columns.
    apply length_complete_drop_columns.
    intros c [Hc Hk]%elem_of_kept_columns [Hlt _]%list_elem_of_filter.
    pose proof (count_present_missing c edges).
    pose proof (thresh_95_le (length (rows edges))). lia.
  - rewrite Hcols. intros [[? _]%list_elem_of_filter|[x [Heq _]]%list_elem_of_fmap]%elem_of_app;
      [done|]. symmetry in Heq. by apply hwy_name_not_highway in Heq.
Qed.

Lemma T_edges10_no_indicator_names c x :
  c ∈ columns T_edges10 → c ≠ hwy_name x.
Proof.
  intros Hc. simpl in Hc. unfold hwy_name.
  repeat (apply elem_of_cons in Hc as [->|Hc]); [..|by apply elem_of_nil in Hc].
  all: destruct x as [|? [|? [|? [|? [|? [|? [|? [|? [|? ?]]]]]]]]]; simpl;
    intros H; repeat (injection H as _ H); discriminate.
Qed.

Lemma clean_edges_spec_witness :
  ("highway" ∈ kept_columns T_edges10
   ∧ ∀ c x, c ∈ columns T_edges10 → c ≠ hwy_name x)
  ∧ ∃ res dummies,
    clean_edges T_edges10 = Ok [] res
    ∧ columns res = filter (λ c, c ≠ "highway") (kept_columns T_edges10) ++ dummies
    ∧ Forall (λ d, ∃ x, d = hwy_name x) dummies
    ∧ (∀ i r c, (i, r) ∈ rows res → c ∈ columns res → is_Some (r !! c))
    ∧ (∀ i r, (i, r) ∈ rows res →
         ∃ i0 r0, (i0, r0) ∈ rows T_edges10
           ∧ complete_row (kept_columns T_edges10) r0 = true
           ∧ ∀ c, c ∈ kept_columns T_edges10 → c ≠ "highway" → r !! c = r0 !! c)
    ∧ length (rows res)
      = length (filter (λ ir : Z * row, complete_row (kept_columns T_edges10) ir.2 = true)
                  (rows T_edges10))
    ∧ "highway" ∉ columns res.
Proof.
  assert (H1 : "highway" ∈ kept_columns T_edges10) by (vm_compute; elem_of_tac).
  split; [split; [exact H1 | exact T_edges10_no_indicator_names]|].
  exact (clean_edges_spec T_edges10 H1 T_edges10_no_indicator_names).
Defined.

(** One cell in ten of [name] is missing, which is more than 5%, and the
    column is retained: the threshold [int(10 * 0.95)] is 9 present
    cells. *)
Lemma clean_edges_five_percent_counterexample :
  (length (rows T_edges10) < 20 * count_missing "name" T_edges10)%nat
  ∧ ∃ res, clean_edges T_edges10 = Ok [] res
           ∧ "name" ∈ columns res
           ∧ columns res = ["u"; "v"; "key"; "name"; "residential_hwy"].
Proof.
  split; [vm_compute; lia|].
  eexists. split; [vm_compute; reflexivity|]. split; [elem_of_tac|reflexivity].
Qed.

(** When the classification column itself falls to the 95% rule the
    step ends in the [AttributeError] of [edges.highway]. *)
Example clean_edges_unclassified :
  clean_edges T_edges_unclassified = Raise [] AttributeError.
Proof. vm_compute. reflexivity. Qed.

(** ** Demographic join *)

Lemma columns_to_crs project epsg t : columns (to_crs project epsg t) = columns t.
Proof. reflexivity. Qed.

(** C5 (what the code does): when the equal-area join raises and the
    geodetic join succeeds, [merge_svi] warns and returns the node table
    merely reprojected: the table [joined] that the fallback join built
    is dropped, and the result has exactly the columns of the input node
    table, so no demographic field is attached. *)
Theorem merge_svi_fallback_drops_join (project : Z → Z → geometry → geometry)
    (sjoin : frame → frame → result frame)
    (nodes svi svi' joined : frame) (svi_fields : list string)
    (ws ws' : list warning) (e : exn) :
  let nodes_ea := to_crs project EQUAL_AREA_EPSG nodes in
  take_columns
    (if bool_decide ("geometry" ∈ svi_fields) then svi_fields
     else svi_fields ++ ["geometry"])
    (to_crs project EQUAL_AREA_EPSG svi) = Ok [] svi' →
  sjoin nodes_ea svi' = Raise ws e →
  sjoin (to_crs project GEODESIC_EPSG nodes_ea)
        (to_crs project GEODESIC_EPSG svi') = Ok ws' joined →
  merge_svi project sjoin nodes svi svi_fields
    = Ok (ws ++ UserWarning "Falling back to spatial join using GEODESIC geometry." :: ws')
         (to_crs project GEODESIC_EPSG nodes_ea)
  ∧ ∀ res, merge_svi project sjoin nodes svi svi_fields
             = Ok (ws ++ UserWarning "Falling back to spatial join using GEODESIC geometry." :: ws') res →
      columns res = columns nodes.
Proof.
  intros nodes_ea Htake Hfail Hok.
  assert (Hrun : merge_svi project sjoin nodes svi svi_fields
    = Ok (ws ++ UserWarning "Falling back to spatial join using GEODESIC geometry." :: ws')
         (to_crs project GEODESIC_EPSG nodes_ea)).
  { unfold merge_svi. rewrite Htake. unfold mbind at 1, result_bind at 1.
    fold nodes_ea. rewrite Hfail.
    unfold mbind, result_bind, warn, mret, result_ret. rewrite Hok. simpl.
    by rewrite !app_nil_r. }
  split; [exact Hrun|]. intros res Hres. rewrite Hrun in Hres.
  injection Hres as <-. reflexivity.
Qed.

Lemma merge_svi_fallback_drops_join_witness :
  (take_columns ["density"; "geometry"]
     (to_crs project_id EQUAL_AREA_EPSG T_svi_read) = Ok [] T_svi_fields
   ∧ sjoin_T (to_crs project_id EQUAL_AREA_EPSG T_nodes) T_svi_fields
     = Raise [] (LibraryError "GEOSException")
   ∧ sjoin_T (to_crs project_id GEODESIC_EPSG (to_crs project_id EQUAL_AREA_EPSG T_nodes))
             (to_crs project_id GEODESIC_EPSG T_svi_fields) = Ok [] T_joined)
  ∧ merge_svi project_id sjoin_T T_nodes T_svi_read ["density"]
    = Ok [UserWarning "Falling back to spatial join using GEODESIC geometry."]
         (to_crs project_id GEODESIC_EPSG (to_crs project_id EQUAL_AREA_EPSG T_nodes))
  ∧ ∀ res, merge_svi project_id sjoin_T T_nodes T_svi_read ["density"]
           = Ok [UserWarning "Falling back to spatial join using GEODESIC geometry."] res →
      columns res = columns T_nodes.
Proof.
  assert (H1 : take_columns ["density"; "geometry"]
                 (to_crs project_id EQUAL_AREA_EPSG T_svi_read) = Ok [] T_svi_fields)
    by (vm_compute; reflexivity).
  assert (H2 : sjoin_T (to_crs project_id EQUAL_AREA_EPSG T_nodes) T_svi_fields
               = Raise [] (LibraryError "GEOSException")) by reflexivity.
  assert (H3 : sjoin_T (to_crs project_id GEODESIC_EPSG
                          (to_crs project_id EQUAL_AREA_EPSG T_nodes))
                 (to_crs project_id GEODESIC_EPSG T_svi_fields) = Ok [] T_joined)
    by reflexivity.
  split; [split; [exact H1|split; [exact H2|exact H3]]|].
  exact (merge_svi_fallback_drops_join project_id sjoin_T T_nodes T_svi_read
           T_svi_fields T_joined ["density"] [] [] _ H1 H2 H3).
Defined.

(** At that input the fallback join did attach [density] to every node,
    and the table the step returns has no such column. *)
Example merge_svi_fallback_T :
  (λ ir : Z * row, (ir.1, ir.2 !! "density")) <$> rows T_joined
    = [ (1, Some (CNum (FNum (1200 # 2)))); (2, Some (CNum (FNum (1200 # 2))));
        (3, Some (CNum (FNum (-999 # 4)))); (4, Some (CNum (FNum (-999 # 4)))) ]
  ∧ match merge_svi project_id sjoin_T T_nodes T_svi_read ["density"] with
    | Ok ws res => (ws, columns res)
    | Raise ws _ => (ws, [])
    end = ([UserWarning "Falling back to spatial join using GEODESIC geometry."],
           ["geometry"]).
Proof. split; vm_compute; reflexivity. Qed.

(** The primary branch, for comparison: when the equal-area join
    succeeds its result is what the step returns. *)
Lemma merge_svi_primary (project : Z → Z → geometry → geometry)
    (sjoin : frame → frame → result frame)
    (nodes svi svi' joined : frame) (svi_fields : list string) (ws : list warning) :
  take_columns
    (if bool_decide ("geometry" ∈ svi_fields) then svi_fields
     else svi_fields ++ ["geometry"])
    (to_crs project EQUAL_AREA_EPSG svi) = Ok [] svi' →
  sjoin (to_crs project EQUAL_AREA_EPSG nodes) svi' = Ok ws joined →
  merge_svi project sjoin nodes svi svi_fields
    = Ok ws (to_crs project GEODESIC_EPSG joined).
Proof.
  intros Htake Hok. unfold merge_svi. rewrite Htake.
  unfold mbind at 1, result_bind at 1. by rewrite Hok.
Qed.

(** ** Demographic dataset reader *)

Lemma lookup_put_num_ne c c' x (r : row) : c ≠ c' → put_num c x r !! c' = r !! c'.
Proof.
  intros Hne. unfold put_num.
  destruct x; [by rewrite lookup_delete_ne|by rewrite lookup_insert_ne..].
Qed.

(** C6 (what the code does): [read_svi] hands every field of the records
    it reads through unchanged: a cell of the returned table, in any
    column but the added [density] (and the reprojected [geometry]), is
    the cell of a record of the file, so the sentinel -999 comes back as
    the number -999. *)
Theorem read_svi_passes_fields_through (project : Z → Z → geometry → geometry)
    (intersects : geometry → geometry → bool) (read_file : geometry → frame)
    (polygon : geometry) (ws : list warning) (res : frame) :
  read_svi project intersects read_file polygon = Ok ws res →
  ∀ i r, (i, r) ∈ rows res →
    ∃ r0, (i, r0) ∈ rows (read_file polygon)
      ∧ (∀ c, c ≠ "density" → c ≠ "geometry" → r !! c = r0 !! c)
      ∧ (∀ z, r0 !! "E_TOTPOP" = Some (CInt z) → r !! "E_TOTPOP" = Some (CInt z)).
Proof.
  unfold read_svi. intros Hrun i r Hin.
  destruct (bool_decide ("E_TOTPOP" ∈ _)) in Hrun; [|discriminate].
  rewrite bind_mret in Hrun.
  destruct (bool_decide ("AREA_SQMI" ∈ _)) in Hrun; [|discriminate].
  rewrite bind_mret in Hrun. injection Hrun as <- <-.
  unfold assign_num in Hin. cbn [rows] in Hin.
  apply list_elem_of_fmap in Hin as [[i1 r1] [Heq Hin]]. cbn [fst snd] in Heq.
  injection Heq as -> ->.
  apply elem_of_select in Hin as [Hin _].
  unfold to_crs in Hin. cbn [rows] in Hin.
  apply list_elem_of_fmap in Hin as [[i0 r0] [Heq Hin]]. cbn [fst snd] in Heq.
  injection Heq as -> ->.
  exists r0. split; [done|].
  split.
  - intros c Hd Hg. rewrite lookup_put_num_ne by done. by rewrite lookup_alter_ne.
  - intros z Hz. rewrite lookup_put_num_ne by done. by rewrite lookup_alter_ne.
Qed.

Lemma read_svi_passes_fields_through_witness :
  read_svi project_id intersects_all read_file_T (Polygon []) = Ok [] T_svi_read
  ∧ ∀ i r, (i, r) ∈ rows T_svi_read →
    ∃ r0, (i, r0) ∈ rows (read_file_T (Polygon []))
      ∧ (∀ c, c ≠ "density" → c ≠ "geometry" → r !! c = r0 !! c)
      ∧ (∀ z, r0 !! "E_TOTPOP" = Some (CInt z) → r !! "E_TOTPOP" = Some (CInt z)).
Proof.
  assert (H : read_svi project_id intersects_all read_file_T (Polygon [])
              = Ok [] T_svi_read) by (vm_compute; reflexivity).
  split; [exact H|].
  exact (read_svi_passes_fields_through project_id intersects_all read_file_T
           (Polygon []) [] T_svi_read H).
Defined.

(** The second tract reads back with -999 as its population and as its
    poverty estimate, and with a negative density. *)
Example read_svi_T :
  (λ ir : Z * row, (ir.2 !! "E_TOTPOP", ir.2 !! "E_POV150", ir.2 !! "density"))
    <$> rows T_svi_read
  = [ (Some (CInt 1200), Some (CInt 300), Some (CNum (FNum (1200 # 2))));
      (Some (CInt (-999)), Some (CInt (-999)), Some (CNum (FNum (-999 # 4)))) ].
Proof. vm_compute. reflexivity. Qed.

(** The loader of the dashboard does normalise the sentinel: no property
    it returns is -999. *)
Lemma clean_invalid_values_no_sentinel (features : list row) (r : row) (c : string) :
  r ∈ clean_invalid_values features → r !! c ≠ Some (CInt (-999)).
Proof.
  unfold clean_invalid_values. intros [r0 [-> _]]%list_elem_of_fmap Hc.
  apply map_lookup_filter_Some in Hc as [_ Hc]. simpl in Hc. discriminate.
Qed.

(** ** Effects of the steps on the objects they receive *)




Lemma lookup_set_node_attributes g values name n :
  nodes (set_node_attributes g values name) !! n =
  (λ a, match values !! n with
        | Some v => <[name := v]> a
        | None => a
        end) <$> nodes g !! n.
Proof.
  unfold set_node_attributes. simpl. rewrite map_lookup_imap.
  by destruct (nodes g !! n).
Qed.




(** ** Shortest paths *)

Lemma dle_refl a : dle a a.
Proof. destruct a; simpl; [apply Qle_refl|done]. Qed.

Lemma dle_trans a b c : dle a b → dle b c → dle a c.
Proof.
  destruct a, b, c; simpl; try done. apply Qle_trans.
Qed.

Lemma dmin_cases a b : dmin a b = a ∨ dmin a b = b.
Proof. destruct a, b; simpl; auto. destruct (Qle_bool _ _); auto. Qed.

Lemma dmin_le_l a b : dle (dmin a b) a.
Proof.
  destruct a as [x|], b as [y|]; simpl; try done; try apply Qle_refl.
  destruct (Qle_bool x y) eqn:H; simpl; [apply Qle_refl|].
  apply Qlt_le_weak, Qnot_le_lt. intros Hle. apply Qle_bool_iff in Hle. congruence.
Qed.

Lemma dmin_le_r a b : dle (dmin a b) b.
Proof.
  destruct a as [x|], b as [y|]; simpl; try done; try apply Qle_refl.
  destruct (Qle_bool x y) eqn:H; simpl; [by apply Qle_bool_iff|apply Qle_refl].
Qed.

Lemma relax_cases arcs d v :
  relax arcs d v = d v
  ∨ ∃ a, a ∈ arcs ∧ arc_tail a = v
         ∧ relax arcs d v = Qplus (arc_weight a) <$> d (arc_head a).
Proof.
  unfold relax. induction arcs as [|a arcs IH]; simpl; [by left|].
  destruct (decide (arc_tail a = v)) as [Ha|Ha].
  - destruct (dmin_cases (foldr (λ a acc,
        if decide (arc_tail a = v)
        then dmin acc (Qplus (arc_weight a) <$> d (arc_head a)) else acc) (d v) arcs)
      (Qplus (arc_weight a) <$> d (arc_head a))) as [-> | ->].
    + destruct IH as [IH|(b & Hb & Hbv & IH)]; [by left|].
      right. exists b. split; [by right|done].
    + right. exists a. split; [left|done].
  - destruct IH as [IH|(b & Hb & Hbv & IH)]; [by left|].
    right. exists b. split; [by right|done].
Qed.

Lemma relax_le_self arcs d v : dle (relax arcs d v) (d v).
Proof.
  unfold relax. induction arcs as [|a arcs IH]; simpl; [apply dle_refl|].
  destruct (decide _); [|done].
  eapply dle_trans; [apply dmin_le_l|done].
Qed.

Lemma relax_le_arc arcs d v a :
  a ∈ arcs → arc_tail a = v →
  dle (relax arcs d v) (Qplus (arc_weight a) <$> d (arc_head a)).
Proof.
  unfold relax. intros Hin Hv. induction arcs as [|b arcs IH]; [by apply elem_of_nil in Hin|].
  simpl. apply elem_of_cons in Hin as [<-|Hin].
  - rewrite decide_True by done. apply dmin_le_r.
  - destruct (decide _); [|auto].
    eapply dle_trans; [apply dmin_le_l|auto].
Qed.

(** Every finite estimate is the weight of a walk. *)
Lemma rounds_attained arcs t k : ∀ v q,
  rounds arcs t k v = Some q →
  ∃ p, walk (.∈ arcs) t v p ∧ walk_weight p = q ∧ (length p ≤ k)%nat.
Proof.
  induction k as [|k IH]; intros v q Hq; simpl in Hq.
  - destruct (decide (v = t)) as [->|]; [|done]. injection Hq as <-.
    exists []. split; [constructor|done].
  - destruct (relax_cases arcs (rounds arcs t k) v) as [Heq|(a & Ha & Hav & Heq)];
      rewrite Heq in Hq.
    + destruct (IH v q Hq) as (p & Hp & Hw & Hl). exists p. repeat split; try done. lia.
    + destruct (rounds arcs t k (arc_head a)) as [q'|] eqn:Hq'; [|done].
      simpl in Hq. injection Hq as <-.
      destruct (IH _ _ Hq') as (p & Hp & Hw & Hl).
      exists (a :: p). split; [|split].
      * rewrite <- Hav. by constructor.
      * simpl. by rewrite Hw.
      * simpl. lia.
Qed.

(** After [k] rounds no walk of at most [k] arcs beats the estimate. *)
Lemma rounds_le_walk arcs t k : ∀ v p,
  walk (.∈ arcs) t v p → (length p ≤ k)%nat →
  dle (rounds arcs t k v) (Some (walk_weight p)).
Proof.
  induction k as [|k IH]; intros v p Hp Hl.
  - destruct Hp; [|simpl in Hl; lia]. simpl. rewrite decide_True by done.
    simpl. apply Qle_refl.
  - destruct Hp as [|a p Ha Hp].
    + change (rounds arcs t (S k) t) with (relax arcs (rounds arcs t k) t).
      eapply dle_trans; [apply relax_le_self|]. apply IH; [constructor|simpl; lia].
    + simpl in Hl.
      change (rounds arcs t (S k) (arc_tail a))
        with (relax arcs (rounds arcs t k) (arc_tail a)).
      eapply dle_trans; [by apply (relax_le_arc _ (rounds arcs t k) _ a)|].
      assert (Hih := IH _ _ Hp ltac:(lia)).
      destruct (rounds arcs t k (arc_head a)) as [q'|]; [|done].
      simpl in *. lra.
Qed.

Section nonneg.

Variable arcs : list arc.
Hypothesis arcs_nonneg : ∀ a, a ∈ arcs → (0 <= arc_weight a)%Q.

Lemma walk_weight_nonneg t v p : walk (.∈ arcs) t v p → (0 <= walk_weight p)%Q.
Proof.
  induction 1 as [|a p Ha Hp IH]; simpl; [apply Qle_refl|].
  specialize (arcs_nonneg a Ha). lra.
Qed.

(** A walk can be entered at any vertex it visits. *)
Lemma walk_from_visited t u p :
  walk (.∈ arcs) t u p → ∀ x, x ∈ u :: (arc_head <$> p) →
  NoDup (u :: (arc_head <$> p)) →
  ∃ p', walk (.∈ arcs) t x p' ∧ (walk_weight p' <= walk_weight p)%Q
        ∧ NoDup (x :: (arc_head <$> p')).
Proof.
  induction 1 as [|a p Ha Hp IH]; intros x Hx Hnd.
  - apply list_elem_of_singleton in Hx as ->. exists []. split; [constructor|].
    split; [apply Qle_refl|done].
  - rewrite fmap_cons in Hx, Hnd. apply elem_of_cons in Hx as [->|Hx].
    + exists (a :: p). split; [by constructor|]. split; [apply Qle_refl|done].
    + apply NoDup_cons in Hnd as [_ Hnd].
      destruct (IH x Hx Hnd) as (p' & Hp' & Hw & Hnd').
      exists p'. split; [done|]. split; [|done].
      simpl. specialize (arcs_nonneg a Ha). lra.
Qed.

(** With non-negative weights a walk can be replaced by one that is no
    heavier and visits no vertex twice. *)
Lemma walk_shorten t v p :
  walk (.∈ arcs) t v p →
  ∃ p', walk (.∈ arcs) t v p' ∧ (walk_weight p' <= walk_weight p)%Q
        ∧ NoDup (v :: (arc_head <$> p')).
Proof.
  induction 1 as [|a p Ha Hp IH].
  - exists []. split; [constructor|]. split; [apply Qle_refl|].
    apply NoDup_singleton.
  - destruct IH as (p' & Hp' & Hw & Hnd).
    pose proof (arcs_nonneg a Ha) as Hpos.
    destruct (decide (arc_tail a ∈ arc_head a :: (arc_head <$> p'))) as [Hin|Hnin].
    + destruct (walk_from_visited _ _ _ Hp' _ Hin Hnd) as (p3 & Hp3 & Hw3 & Hnd3).
      exists p3. split; [done|]. split; [|done]. simpl. lra.
    + exists (a :: p'). split; [by constructor|]. split; [simpl; lra|].
      rewrite fmap_cons. by apply NoDup_cons.
Qed.

Lemma walk_heads t v p (names : list Z) :
  (∀ a, a ∈ arcs → arc_head a ∈ names) →
  walk (.∈ arcs) t v p → ∀ x, x ∈ arc_head <$> p → x ∈ names.
Proof.
  intros Hnames. induction 1 as [|a p Ha Hp IH]; intros x Hx.
  - by apply elem_of_nil in Hx.
  - rewrite fmap_cons in Hx. apply elem_of_cons in Hx as [->|Hx]; auto.
Qed.

(** [dist_to] is the least weight of a walk: as many rounds as there
    are vertices suffice. *)
Lemma dist_to_least (names : list Z) t v :
  (∀ a, a ∈ arcs → arc_head a ∈ names) →
  (∀ p, walk (.∈ arcs) t v p → dle (dist_to arcs (length names) t v) (Some (walk_weight p)))
  ∧ (∀ q, dist_to arcs (length names) t v = Some q →
       ∃ p, walk (.∈ arcs) t v p ∧ walk_weight p = q).
Proof.
  intros Hnames. split.
  - intros p Hp. destruct (walk_shorten _ _ _ Hp) as (p' & Hp' & Hw & Hnd).
    apply NoDup_cons in Hnd as [_ Hnd].
    assert (Hlen : (length p' ≤ length names)%nat).
    { rewrite <- (length_fmap arc_head). apply submseteq_length.
      apply NoDup_submseteq; [done|]. by apply (walk_heads t v). }
    eapply dle_trans; [by apply (rounds_le_walk _ _ _ _ p')|]. done.
  - intros q Hq. destruct (rounds_attained _ _ _ _ _ Hq) as (p & Hp & Hw & _). eauto.
Qed.

End nonneg.

(** ** The igraph computation *)

(** [node_to_idx] maps a name to its position. *)
Lemma index_of_names_lookup (names : list Z) (x : Z) (i : nat) :
  NoDup names → index_of_names names !! x = Some i ↔ names !! i = Some x.
Proof.
  intros Hnd. unfold index_of_names.
  rewrite <- elem_of_list_to_map by (rewrite fst_zip; [done | rewrite length_seq; lia]).
  rewrite list_elem_of_lookup. split.
  - intros [k Hk]. apply lookup_zip_Some in Hk as [Hx Hi].
    apply lookup_seq in Hi as [-> _]. done.
  - intros Hx. exists i. apply lookup_zip_Some. split; [done|].
    apply lookup_seq. split; [done|]. by apply lookup_lt_Some in Hx.
Qed.

(** [grocery_indices] lists the positions of the grocery nodes, in
    their order. *)
Lemma grocery_indices_spec (names G : list Z) :
  NoDup names → (∀ x, x ∈ G → x ∈ names) →
  Forall2 (λ node i, names !! i = Some node) G
    (omap (λ node, index_of_names names !! node) G).
Proof.
  intros Hnd. induction G as [|x G IH]; intros HG; [constructor|].
  assert (Hx : x ∈ names) by (apply HG; left).
  apply list_elem_of_lookup in Hx as [i Hi].
  simpl. rewrite (proj2 (index_of_names_lookup names x i Hnd) Hi).
  constructor; [done|]. apply IH. intros y Hy. apply HG. by right.
Qed.

Lemma foldl_dmin_spec (ds : list dist) : ∀ d,
  foldl dmin d ds ∈ d :: ds ∧ ∀ x, x ∈ d :: ds → dle (foldl dmin d ds) x.
Proof.
  induction ds as [|a ds IH]; intros d; simpl.
  - split; [left|]. intros x ->%list_elem_of_singleton. apply dle_refl.
  - destruct (IH (dmin d a)) as [Hin Hle]. split.
    + apply elem_of_cons in Hin as [Heq|Hin]; [|by do 2 right].
      rewrite Heq. destruct (dmin_cases d a) as [-> | ->]; [left|right; left].
    + intros x Hx.
      assert (Hda : dle (foldl dmin (dmin d a) ds) (dmin d a)) by (apply Hle; left).
      apply elem_of_cons in Hx as [->|Hx].
      { eapply dle_trans; [exact Hda|apply dmin_le_l]. }
      apply elem_of_cons in Hx as [->|Hx].
      { eapply dle_trans; [exact Hda|apply dmin_le_r]. }
      apply Hle. by right.
Qed.

Lemma dmin_list_spec (ds : list dist) :
  ds ≠ [] → dmin_list ds ∈ ds ∧ ∀ x, x ∈ ds → dle (dmin_list ds) x.
Proof. destruct ds as [|d ds]; [done|]. intros _. apply foldl_dmin_spec. Qed.

Lemma foldl_other_store_untouched (i2n : gmap nat Z) gi sp (l : list nat) :
  ∀ (acc : gmap Z dist) k,
  (∀ j, j ∈ l → i2n !!! j ≠ k) →
  foldl (other_store_step i2n gi sp) acc l !! k = acc !! k.
Proof.
  induction l as [|a l IH]; intros acc k Hk; [done|]. simpl.
  rewrite IH by (intros j Hj; apply Hk; by right).
  unfold other_store_step. destruct (other_store_distances gi sp a); [done|].
  rewrite lookup_insert_ne; [done|]. apply Hk. left.
Qed.

(** The loop over [grocery_indices] leaves on each grocery node the
    minimum of its distances to the other grocery vertices. *)
Lemma foldl_other_store_hit (i2n : gmap nat Z) gi sp (l : list nat) :
  ∀ (acc : gmap Z dist) i,
  NoDup ((i2n !!!.) <$> l) → i ∈ l →
  other_store_distances gi sp i ≠ [] →
  foldl (other_store_step i2n gi sp) acc l !! (i2n !!! i)
  = Some (dmin_list (other_store_distances gi sp i)).
Proof.
  induction l as [|a l IH]; intros acc i Hnd Hin Hne; [by apply elem_of_nil in Hin|].
  rewrite fmap_cons in Hnd. apply NoDup_cons in Hnd as [Hnotin Hnd]. simpl.
  apply elem_of_cons in Hin as [->|Hin]; [|by apply IH].
  rewrite foldl_other_store_untouched.
  - unfold other_store_step. destruct (other_store_distances gi sp a); [done|].
    by rewrite lookup_insert_eq.
  - intros j Hj Heq. apply Hnotin. rewrite <- Heq. apply list_elem_of_fmap. eauto.
Qed.

Lemma ig_shortest_paths_lookup names arcs (gi : list nat) k j :
  (k < length gi)%nat → (j < length names)%nat →
  (ig_shortest_paths names arcs gi !!! k) !!! j
  = dist_to arcs (length names) (names !!! (gi !!! k)) (names !!! j).
Proof.
  intros Hk Hj. unfold ig_shortest_paths.
  rewrite (list_lookup_total_fmap _ gi k Hk).
  rewrite (list_lookup_total_fmap _ (seq 0 (length names)) j)
    by (by rewrite length_seq).
  by rewrite lookup_total_seq_lt.
Qed.

(** The distances collected for a grocery vertex are those to the
    grocery nodes other than itself. *)
Lemma elem_of_other_store_distances (names G : list Z) arcs (gi : list nat) ix d :
  NoDup names →
  Forall2 (λ node i, names !! i = Some node) G gi →
  (ix < length names)%nat →
  d ∈ other_store_distances gi (ig_shortest_paths names arcs gi) ix ↔
  ∃ m, m ∈ G ∧ m ≠ names !!! ix
       ∧ d = dist_to arcs (length names) m (names !!! ix).
Proof.
  intros Hnd HF Hix. unfold other_store_distances. rewrite list_elem_of_omap. split.
  - intros (k & [_ Hk]%elem_of_seq & Hd). simpl in Hk.
    destruct (decide (gi !!! k ≠ ix)) as [Hne|]; [|done]. injection Hd as <-.
    rewrite ig_shortest_paths_lookup by done.
    pose proof (list_lookup_lookup_total_lt gi k Hk) as Hgik.
    destruct (Forall2_lookup_r _ _ _ _ _ HF Hgik) as (m & HGk & Hm).
    rewrite (list_lookup_total_correct _ _ _ Hm).
    exists m. split; [by eapply list_elem_of_lookup_2|]. split; [|done].
    intros ->. apply Hne.
    apply (proj1 (NoDup_alt names) Hnd _ _ _ Hm).
    by apply list_lookup_lookup_total_lt.
  - intros (m & [k HGk]%list_elem_of_lookup & Hne & ->).
    destruct (Forall2_lookup_l _ _ _ _ _ HF HGk) as (i & Hgik & Hi).
    exists k. split; [apply elem_of_seq; apply lookup_lt_Some in Hgik; lia|].
    rewrite (list_lookup_total_correct _ _ _ Hgik).
    rewrite decide_True.
    + rewrite ig_shortest_paths_lookup by (done || by eapply lookup_lt_Some).
      by rewrite (list_lookup_total_correct _ _ _ Hgik), (list_lookup_total_correct _ _ _ Hi).
    + intros ->. apply Hne. by rewrite (list_lookup_total_correct _ _ _ Hi).
Qed.

Lemma match_nonempty {A B} (l : list A) (a b : B) :
  l ≠ [] → match l with [] => a | _ :: _ => b end = b.
Proof. by destruct l. Qed.

Lemma walk_impl (R R' : arc → Prop) t v p :
  (∀ a, R a → R' a) → walk R t v p → walk R' t v p.
Proof. intros HR. induction 1; constructor; auto. Qed.

Lemma mapM_ok {A B} (f : A → result B) (l : list A) :
  (∀ x, x ∈ l → ∃ y, f x = Ok [] y) →
  ∃ ys, mapM f l = Ok [] ys ∧ Forall2 (λ x y, f x = Ok [] y) l ys.
Proof.
  induction l as [|x l IH]; intros Hf.
  - exists []. split; [done|constructor].
  - destruct (Hf x) as [y Hy]; [left|].
    destruct IH as (ys & Hys & HF); [intros z Hz; apply Hf; by right|].
    exists (y :: ys). split; [|by constructor].
    simpl. rewrite Hy, bind_Ok_nil, Hys, bind_Ok_nil. done.
Qed.

Lemma edge_weight_missing m ed w :
  edge_weight None ed = Ok [] w → edge_weight m ed = Ok [] w.
Proof.
  unfold edge_weight. destruct (ed !! "travel_time") as [[b|[| |q]]|]; try done.
Qed.

Lemma edge_weight_nonneg m ed w :
  edge_weight m ed = Ok [] w → m = None → (0 <= w)%Q.
Proof.
  unfold edge_weight. intros H ->.
  destruct (ed !! "travel_time") as [[b|[| |q]]|]; try done.
  - injection H as <-. by destruct b.
  - destruct (Qle_bool 0 q) eqn:Hq; [|done]. injection H as <-. by apply Qle_bool_iff.
Qed.

Lemma flip_arc_involutive a : flip_arc (flip_arc a) = a.
Proof. by destruct a as [[u v] w]. Qed.

(** The arcs handed to the routing library are the roads of the graph. *)
Lemma graph_arcs_spec g :
  weights_ok g →
  ∃ arcs, (∀ m, graph_arcs m g = Ok [] arcs) ∧ ∀ a, a ∈ arcs ↔ road g a.
Proof.
  intros Hw.
  destruct (mapM_ok (λ ea : edge_id * attrs,
              w ← edge_weight None ea.2; mret (ea.1.1.1, ea.1.1.2, w))
            (map_to_list (edges g))) as (arcs0 & Hrun & HF).
  { intros [e ed] Hin%elem_of_map_to_list. destruct (Hw e ed Hin) as [w Hwe].
    simpl. rewrite Hwe, bind_Ok_nil. by eexists. }
  assert (Hin0 : ∀ a, a ∈ arcs0 ↔
            ∃ k ed, edges g !! (arc_tail a, arc_head a, k) = Some ed
                    ∧ edge_weight None ed = Ok [] (arc_weight a)).
  { intros a. split.
    - intros [i Hi]%list_elem_of_lookup.
      destruct (Forall2_lookup_r _ _ _ _ _ HF Hi) as ([[[u v] k] ed] & Hl & Hf).
      simpl in Hf.
      assert (He : edges g !! (u, v, k) = Some ed).
      { apply elem_of_map_to_list. by eapply list_elem_of_lookup_2. }
      destruct (Hw (u, v, k) ed He) as [w' Hw'].
      rewrite Hw', bind_Ok_nil in Hf.
      injection Hf as <-. exists k, ed. by split.
    - intros (k & ed & He & Hwe). apply elem_of_map_to_list in He.
      apply list_elem_of_lookup in He as [i Hi].
      destruct (Forall2_lookup_l _ _ _ _ _ HF Hi) as (b & Hb & Hf).
      simpl in Hf. rewrite Hwe, bind_Ok_nil in Hf. injection Hf as <-.
      destruct a as [[u v] w]. by eapply list_elem_of_lookup_2. }
  exists (if directed g then arcs0 else arcs0 ++ (flip_arc <$> arcs0)). split.
  - intros m. unfold graph_arcs.
    assert (Hm : mapM (λ ea : edge_id * attrs,
              w ← edge_weight m ea.2; mret (ea.1.1.1, ea.1.1.2, w))
            (map_to_list (edges g)) = Ok [] arcs0).
    { rewrite <- Hrun. clear -Hw.
      assert (Hall : ∀ ea, ea ∈ map_to_list (edges g) →
                 edge_weight m ea.2 = edge_weight None ea.2).
      { intros [e ed] Hin%elem_of_map_to_list. destruct (Hw e ed Hin) as [w Hwe].
        simpl. rewrite Hwe. by apply edge_weight_missing. }
      induction (map_to_list (edges g)) as [|ea l IH]; [done|].
      simpl. rewrite Hall by left. rewrite IH; [done|].
      intros ? ?. apply Hall. by right. }
    rewrite Hm, bind_Ok_nil. done.
  - intros a. unfold road. destruct (directed g).
    + rewrite Hin0. split.
      * intros (k & ed & He & Hwe). exists k, ed. auto.
      * intros (k & ed & [He|[? _]] & Hwe); [|done]. eauto.
    + rewrite elem_of_app, Hin0. split.
      * intros [(k & ed & He & Hwe)|Hflip]; [exists k, ed; auto|].
        apply list_elem_of_fmap in Hflip as (b & -> & Hb).
        apply Hin0 in Hb as (k & ed & He & Hwe). exists k, ed.
        destruct b as [[u v] w]. simpl in *. auto.
      * intros (k & ed & [He|[_ He]] & Hwe); [left; eauto|].
        right. apply list_elem_of_fmap. exists (flip_arc a).
        split; [by rewrite flip_arc_involutive|].
        apply Hin0. exists k, ed. by destruct a as [[u v] w].
Qed.

Lemma elem_of_node_names g x : x ∈ node_names g ↔ is_Some (nodes g !! x).
Proof.
  unfold node_names. rewrite list_elem_of_fmap. split.
  - intros [[y a] [-> Hin%elem_of_map_to_list]]. by eexists.
  - intros [a Ha]. exists (x, a). split; [done|]. by apply elem_of_map_to_list.
Qed.

Lemma elem_of_grocery_node_ids g x :
  x ∈ grocery_node_ids g ↔ ∃ a, nodes g !! x = Some a ∧ is_grocery a = true.
Proof.
  unfold grocery_node_ids. rewrite list_elem_of_fmap. split.
  - intros [[y a] [-> [Hg Hin%elem_of_map_to_list]%list_elem_of_filter]]. eauto.
  - intros (a & Ha & Hg). exists (x, a). split; [done|].
    apply list_elem_of_filter. split; [done|]. by apply elem_of_map_to_list.
Qed.

Lemma NoDup_grocery_node_ids g : NoDup (grocery_node_ids g).
Proof.
  unfold grocery_node_ids.
  eapply sublist_NoDup; [apply (NoDup_fst_map_to_list (nodes g))|].
  apply fmap_sublist, sublist_filter.
Qed.

Lemma road_head_is_node g a : graph_wf g → road g a → arc_head a ∈ node_names g.
Proof.
  intros Hwf (k & ed & [He|[_ He]] & _); apply elem_of_node_names.
  - apply (Hwf (arc_tail a) (arc_head a) k). by eexists.
  - apply (Hwf (arc_head a) (arc_tail a) k). by eexists.
Qed.

Lemma idx_to_node_lookup (names : list Z) (j : nat) (x : Z) :
  NoDup names → names !! j = Some x →
  idx_to_node (index_of_names names) !!! j = x.
Proof.
  intros Hnd Hj. apply lookup_total_correct. unfold idx_to_node.
  apply elem_of_list_to_map_1.
  - rewrite <- list_fmap_compose.
    apply NoDup_fmap_2_strong; [|apply NoDup_map_to_list].
    intros [y1 i1] [y2 i2] H1%elem_of_map_to_list H2%elem_of_map_to_list Heq.
    simpl in Heq. subst i2.
    apply index_of_names_lookup in H1; [|done].
    apply index_of_names_lookup in H2; [|done]. congruence.
  - apply list_elem_of_fmap. exists (x, j). split; [done|].
    apply elem_of_map_to_list. by apply index_of_names_lookup.
Qed.

Lemma names_of_indices (names G : list Z) (gi : list nat) :
  NoDup names →
  Forall2 (λ node i, names !! i = Some node) G gi →
  (idx_to_node (index_of_names names) !!!.) <$> gi = G.
Proof.
  intros Hnd. induction 1 as [|x i G gi Hx _ IH]; [done|].
  rewrite fmap_cons, IH. by rewrite (idx_to_node_lookup names i x).
Qed.

Lemma walk_to_other_nonempty R t v p :
  walk R t v p → v ≠ t → ∃ a p', p = a :: p' ∧ R a ∧ walk R t (arc_head a) p'.
Proof. destruct 1; [done|]. eauto. Qed.

(** The igraph path on a grocery node [x] when another grocery node
    exists: the stored distance [d] is the least weight of a walk from
    [x] to another grocery node, infinite when there is none. *)
Lemma nearest_other_grocery_igraph (g : graph) (x : Z) (ax : attrs) :
  graph_wf g → weights_ok g →
  nodes g !! x = Some ax → is_grocery ax = true →
  (∃ y ay, y ≠ x ∧ nodes g !! y = Some ay ∧ is_grocery ay = true) →
  ∃ g' d,
    add_grocery_travel_time g true = Ok [] g'
    ∧ nodes g' !! x = Some (<[NEAREST := PNum (dist_val d)]> ax)
    ∧ (∀ y ay p, y ≠ x → nodes g !! y = Some ay → is_grocery ay = true →
         walk (road g) y x p → dle d (Some (walk_weight p)))
    ∧ (∀ q, d = Some q →
         ∃ y ay p, y ≠ x ∧ nodes g !! y = Some ay ∧ is_grocery ay = true
                   ∧ walk (road g) y x p ∧ walk_weight p = q)
    ∧ ((∀ a, road g a → (0 < arc_weight a)%Q) → ∀ q, d = Some q → (0 < q)%Q).
Proof.
  intros Hwf Hw Hx Hgx (y & ay & Hyx & Hy & Hgy).
  destruct (graph_arcs_spec g Hw) as (arcs & Harcs & Hroad).
  set (names := node_names g).
  set (G := grocery_node_ids g).
  set (gi := omap (λ node, index_of_names names !! node) G).
  set (sp := ig_shortest_paths names arcs gi).
  assert (Hnd : NoDup names) by apply NoDup_fst_map_to_list.
  assert (HGnames : ∀ z, z ∈ G → z ∈ names).
  { intros z (a & Ha & _)%elem_of_grocery_node_ids. apply elem_of_node_names. by eexists. }
  assert (HF : Forall2 (λ node i, names !! i = Some node) G gi)
    by by apply grocery_indices_spec.
  assert (HxG : x ∈ G) by (apply elem_of_grocery_node_ids; eauto).
  assert (HyG : y ∈ G) by (apply elem_of_grocery_node_ids; eauto).
  destruct (proj1 (list_elem_of_lookup _ _) HxG) as [kx Hkx].
  destruct (Forall2_lookup_l _ _ _ _ _ HF Hkx) as (ix & Hgix & Hix).
  assert (Hixn : names !!! ix = x) by by apply list_lookup_total_correct.
  assert (Hi2n : idx_to_node (index_of_names names) !!! ix = x)
    by by apply idx_to_node_lookup.
  assert (Hixlt : (ix < length names)%nat) by by eapply lookup_lt_Some.
  assert (Hgi : gi ≠ []) by (intros Hnil; by rewrite Hnil in Hgix).
  assert (Helem := λ d, elem_of_other_store_distances names G arcs gi ix d Hnd HF Hixlt).
  fold sp in Helem. rewrite Hixn in Helem.
  set (ds := other_store_distances gi sp ix) in *.
  assert (Hds : ds ≠ []).
  { intros Hnil.
    assert (Hin : dist_to arcs (length names) y x ∈ ds) by (apply Helem; eauto).
    rewrite Hnil in Hin. by apply elem_of_nil in Hin. }
  destruct (dmin_list_spec ds Hds) as [Hmin_in Hmin_le].
  assert (Hnonneg : ∀ a, a ∈ arcs → (0 <= arc_weight a)%Q).
  { intros a (k & ed & _ & Hwe)%Hroad. by eapply edge_weight_nonneg. }
  assert (Hheads : ∀ a, a ∈ arcs → arc_head a ∈ names).
  { intros a Ha%Hroad. by apply road_head_is_node. }
  eexists _, (dmin_list ds). split; [|split; [|split; [|split]]].
  - unfold add_grocery_travel_time, add_grocery_travel_time_igraph.
    fold names G gi. rewrite (match_nonempty gi _ _ Hgi).
    rewrite Harcs, bind_Ok_nil. reflexivity.
  - rewrite lookup_set_node_attributes, Hx. simpl. rewrite lookup_fmap.
    fold sp. rewrite <- Hi2n at 1.
    rewrite foldl_other_store_hit; [done|..].
    + rewrite (names_of_indices names G gi Hnd HF). apply NoDup_grocery_node_ids.
    + by eapply list_elem_of_lookup_2.
    + done.
  - intros z az p Hzx Hz Hgz Hp.
    assert (HzG : z ∈ G) by (apply elem_of_grocery_node_ids; eauto).
    eapply dle_trans; [apply Hmin_le, Helem; eauto|].
    apply (dist_to_least arcs Hnonneg names z x Hheads).
    eapply walk_impl; [|exact Hp]. intros a. apply (proj2 (Hroad a)).
  - intros q Hq. rewrite Hq in Hmin_in.
    apply Helem in Hmin_in as (m & HmG & Hmx & Hm).
    apply elem_of_grocery_node_ids in HmG as (am & Ham & Hgm).
    symmetry in Hm.
    destruct (proj2 (dist_to_least arcs Hnonneg names m x Hheads) q Hm) as (p & Hp & Hwp).
    exists m, am, p. split; [done|]. split; [done|]. split; [done|].
    split; [|done]. eapply walk_impl; [|exact Hp]. intros a. apply (proj1 (Hroad a)).
  - intros Hpos q Hq. rewrite Hq in Hmin_in.
    apply Helem in Hmin_in as (m & HmG & Hmx & Hm). symmetry in Hm.
    destruct (proj2 (dist_to_least arcs Hnonneg names m x Hheads) q Hm) as (p & Hp & <-).
    destruct (walk_to_other_nonempty _ _ _ _ Hp) as (a & p' & -> & Ha & Hp'); [done|].
    simpl. pose proof (walk_weight_nonneg arcs Hnonneg _ _ _ Hp').
    specialize (Hpos a (proj1 (Hroad a) Ha)). lra.
Qed.

(** ** The NetworkX computation *)

Lemma walk_app R t m v p1 p2 :
  walk R m v p1 → walk R t m p2 → walk R t v (p1 ++ p2).
Proof. induction 1; intros H2; simpl; [done|]. constructor; auto. Qed.

Lemma walk_weight_app p1 p2 :
  (walk_weight (p1 ++ p2) == walk_weight p1 + walk_weight p2)%Q.
Proof. induction p1 as [|a p1 IH]; simpl; lra. Qed.

(** A walk read backwards is a walk in the reversed graph, of the same
    weight. *)
Lemma walk_reverse R t v p :
  walk R t v p → walk (λ a, R (flip_arc a)) v t (reverse (flip_arc <$> p)).
Proof.
  induction 1 as [|a p Ha Hp IH]; [constructor|].
  rewrite fmap_cons, reverse_cons. eapply walk_app; [exact IH|].
  apply (walk_cons _ (arc_tail a) (flip_arc a) []);
    [by rewrite flip_arc_involutive|constructor].
Qed.

Lemma walk_weight_reverse p :
  (walk_weight (reverse (flip_arc <$> p)) == walk_weight p)%Q.
Proof.
  induction p as [|a p IH]; [reflexivity|].
  rewrite fmap_cons, reverse_cons, walk_weight_app. simpl.
  change (arc_weight (flip_arc a)) with (arc_weight a). lra.
Qed.

Lemma dle_Qeq d a b : (a == b)%Q → dle d (Some a) → dle d (Some b).
Proof. destruct d; simpl; [|done]. intros. lra. Qed.

Lemma elem_of_flip_arcs (arcs : list arc) a :
  a ∈ flip_arc <$> arcs ↔ flip_arc a ∈ arcs.
Proof.
  rewrite list_elem_of_fmap. split.
  - intros (b & -> & Hb). by rewrite flip_arc_involutive.
  - intros Ha. exists (flip_arc a). by rewrite flip_arc_involutive.
Qed.

(** [dist_from] is the least weight of a walk along the edges. *)
Lemma dist_from_least (arcs : list arc) (names : list Z) s v :
  (∀ a, a ∈ arcs → (0 <= arc_weight a)%Q) →
  (∀ a, a ∈ arcs → arc_tail a ∈ names) →
  (∀ p, walk (.∈ arcs) v s p →
     dle (dist_from arcs (length names) s v) (Some (walk_weight p)))
  ∧ (∀ q, dist_from arcs (length names) s v = Some q →
       ∃ p, walk (.∈ arcs) v s p ∧ (walk_weight p == q)%Q).
Proof.
  intros Hnonneg Htails. unfold dist_from.
  assert (Hnn : ∀ a, a ∈ flip_arc <$> arcs → (0 <= arc_weight a)%Q).
  { intros a Ha%elem_of_flip_arcs. by apply Hnonneg in Ha. }
  assert (Hh : ∀ a, a ∈ flip_arc <$> arcs → arc_head a ∈ names).
  { intros a Ha%elem_of_flip_arcs. by apply Htails in Ha. }
  destruct (dist_to_least (flip_arc <$> arcs) Hnn names s v Hh) as [Hle Hatt].
  split.
  - intros p Hp. apply (dle_Qeq _ _ _ (walk_weight_reverse p)). apply Hle.
    eapply walk_impl; [|apply walk_reverse, Hp].
    intros a Ha. by apply elem_of_flip_arcs.
  - intros q Hq. destruct (Hatt q Hq) as (p & Hp & <-).
    exists (reverse (flip_arc <$> p)). split; [|apply walk_weight_reverse].
    eapply walk_impl; [|apply walk_reverse, Hp].
    intros a Ha. apply (proj1 (elem_of_flip_arcs arcs (flip_arc a))) in Ha.
    by rewrite flip_arc_involutive in Ha.
Qed.

(** Lookup in a dictionary built from the reachable nodes. *)
Lemma lookup_tabulate {A} (f : Z → option A) (names : list Z) v :
  list_to_map (M := gmap Z A) (omap (λ v, (λ q, (v, q)) <$> f v) names) !! v
  = if decide (v ∈ names) then f v else None.
Proof.
  induction names as [|y names IH].
  - simpl. rewrite lookup_empty. destruct (decide (v ∈ [])) as [Hin|]; [|done].
    by apply elem_of_nil in Hin.
  - assert (Htail : ∀ o : option A, y ≠ v →
              (if decide (v ∈ names) then o else None)
              = (if decide (v ∈ y :: names) then o else None)).
    { intros o Hne. destruct (decide (v ∈ names)) as [Hin|Hnin].
      - rewrite decide_True by (by right). done.
      - rewrite decide_False; [done|]. intros [?|?]%elem_of_cons; congruence. }
    cbn [omap list_omap]. destruct (f y) as [q|] eqn:Hfy; cbn [fmap option_fmap option_map].
    + rewrite list_to_map_cons. destruct (decide (y = v)) as [->|Hne].
      * rewrite lookup_insert_eq. rewrite decide_True by left. done.
      * rewrite lookup_insert_ne by done. rewrite IH. by apply Htail.
    + rewrite IH. destruct (decide (y = v)) as [->|Hne].
      * rewrite (decide_True (P := v ∈ v :: names)) by left. rewrite Hfy.
        by destruct (decide _).
      * by apply Htail.
Qed.

Lemma road_tail_is_node g a : graph_wf g → road g a → arc_tail a ∈ node_names g.
Proof.
  intros Hwf (k & ed & [He|[_ He]] & _); apply elem_of_node_names.
  - apply (Hwf (arc_tail a) (arc_head a) k). by eexists.
  - apply (Hwf (arc_head a) (arc_tail a) k). by eexists.
Qed.

Lemma elem_of_non_self_values names arcs G node q :
  (∀ z, z ∈ G → z ∈ names) →
  q ∈ non_self_values names arcs G node ↔
  ∃ t, t ∈ G ∧ t ≠ node ∧ dist_from arcs (length names) node t = Some q.
Proof.
  intros HG. unfold non_self_values. rewrite list_elem_of_fmap. split.
  - intros [[t q'] [-> Hin%elem_of_map_to_list]]. simpl.
    apply map_lookup_filter_Some in Hin as [Hl [Ht Hne]]. simpl in *.
    rewrite lookup_tabulate in Hl. destruct (decide (t ∈ names)); [|done]. eauto.
  - intros (t & Ht & Hne & Hd). exists (t, q). split; [done|].
    apply elem_of_map_to_list, map_lookup_filter_Some. split; [|done].
    rewrite lookup_tabulate. rewrite decide_True by auto. done.
Qed.

Lemma nearest_other_step_ok g arcs (acc : gmap Z Q) node d :
  (∀ m, graph_arcs m g = Ok [] arcs) →
  acc !! node = Some d → Qeq_bool d 0 = true →
  nearest_other_step g (grocery_node_ids g) acc node
  = Ok [] (match dmin_list (Some <$> non_self_values (node_names g) arcs
                                       (grocery_node_ids g) node) with
           | Some m => <[node := m]> acc
           | None => acc
           end).
Proof.
  intros Harcs Hacc Hd. unfold nearest_other_step. rewrite Hacc, Hd.
  unfold single_source_dijkstra_path_length. rewrite Harcs, bind_Ok_nil, bind_mret.
  fold (non_self_values (node_names g) arcs (grocery_node_ids g) node).
  by destruct (dmin_list _).
Qed.

(** The loop over [grocery_node_ids]: each grocery node, still at
    distance zero, receives the least of its distances to the other
    grocery nodes when there is one, and keeps its zero otherwise. *)
Lemma foldlM_nearest_other g arcs (l : list Z) : ∀ (acc : gmap Z Q),
  (∀ m, graph_arcs m g = Ok [] arcs) →
  NoDup l →
  (∀ node, node ∈ l → ∃ d, acc !! node = Some d ∧ Qeq_bool d 0 = true) →
  ∃ acc', foldlM (nearest_other_step g (grocery_node_ids g)) acc l = Ok [] acc'
    ∧ ∀ k, acc' !! k =
        if decide (k ∈ l)
        then match dmin_list (Some <$> non_self_values (node_names g) arcs
                                         (grocery_node_ids g) k) with
             | Some m => Some m
             | None => acc !! k
             end
        else acc !! k.
Proof.
  induction l as [|node l IH]; intros acc Harcs Hnd Hacc.
  - exists acc. split; [done|]. intros k.
    destruct (decide (k ∈ [])) as [Hin|]; [by apply elem_of_nil in Hin|done].
  - apply NoDup_cons in Hnd as [Hnotin Hnd].
    destruct (Hacc node) as (d & Hd & Hd0); [left|].
    set (acc1 := match dmin_list (Some <$> non_self_values (node_names g) arcs
                                           (grocery_node_ids g) node) with
                 | Some m => <[node := m]> acc
                 | None => acc
                 end).
    assert (Hother : ∀ k, k ≠ node → acc1 !! k = acc !! k).
    { intros k Hk. unfold acc1. destruct (dmin_list _); [|done].
      by rewrite lookup_insert_ne. }
    destruct (IH acc1 Harcs Hnd) as (acc' & Hrun & Hlook).
    { intros k Hk. rewrite Hother by (intros ->; done). apply Hacc. by right. }
    exists acc'. split.
    + cbn [foldlM]. rewrite (nearest_other_step_ok g arcs acc node d) by done.
      fold acc1. by rewrite bind_Ok_nil.
    + intros k. rewrite Hlook. destruct (decide (k = node)) as [->|Hne].
      * rewrite decide_False by done. rewrite decide_True by left.
        unfold acc1. destruct (dmin_list _); [|done]. by rewrite lookup_insert_eq.
      * rewrite Hother by done. destruct (decide (k ∈ l)).
        -- rewrite decide_True by (by right). done.
        -- rewrite decide_False; [done|]. intros [?|?]%elem_of_cons; done.
Qed.

(** The NetworkX path on a grocery node [x]. *)
Lemma nearest_other_grocery_networkx (g : graph) (x : Z) (ax : attrs) :
  graph_wf g → weights_ok g →
  nodes g !! x = Some ax → is_grocery ax = true →
  ∃ g' q,
    add_grocery_travel_time g false = Ok [] g'
    ∧ nodes g' !! x = Some (<[NEAREST := PNum (FNum q)]> ax)
    ∧ (reaches_other_grocery g x → least_time_to_other_grocery g x q)
    ∧ (¬ reaches_other_grocery g x → (q == 0)%Q).
Proof.
  intros Hwf Hw Hx Hgx.
  destruct (graph_arcs_spec g Hw) as (arcs & Harcs & Hroad).
  set (names := node_names g).
  set (G := grocery_node_ids g).
  assert (HGnames : ∀ z, z ∈ G → z ∈ names).
  { intros z (a & Ha & _)%elem_of_grocery_node_ids. apply elem_of_node_names. by eexists. }
  assert (HxG : x ∈ G) by (apply elem_of_grocery_node_ids; eauto).
  assert (HG : G ≠ []) by (intros Hnil; rewrite Hnil in HxG; by apply elem_of_nil in HxG).
  assert (Hnonneg : ∀ a, a ∈ arcs → (0 <= arc_weight a)%Q).
  { intros a (k & ed & _ & Hwe)%Hroad. by eapply edge_weight_nonneg. }
  assert (Htails : ∀ a, a ∈ arcs → arc_tail a ∈ names).
  { intros a Ha%Hroad. by apply road_tail_is_node. }
  assert (HDF := λ s v, dist_from_least arcs names s v Hnonneg Htails).
  (* the multi-source run *)
  set (M0 := list_to_map (M := gmap Z Q) (omap (λ v,
              (λ q, (v, q)) <$>
                dmin_list ((λ s, dist_from arcs (length names) s v) <$> G)) names)).
  assert (Hmulti : multi_source_dijkstra_path_length g G = Ok [] M0).
  { unfold multi_source_dijkstra_path_length. rewrite (match_nonempty G _ _ HG).
    by rewrite Harcs, bind_Ok_nil. }
  assert (Hzero : ∀ z, z ∈ G → ∃ d, M0 !! z = Some d ∧ Qeq_bool d 0 = true).
  { intros z Hz. unfold M0. rewrite lookup_tabulate. rewrite decide_True by auto.
    set (ds := (λ s, dist_from arcs (length names) s z) <$> G).
    assert (Hds : ds ≠ []).
    { intros Hnil. apply fmap_nil_inv in Hnil. done. }
    destruct (dmin_list_spec ds Hds) as [Hin Hle].
    assert (Hself : dle (dmin_list ds) (Some 0%Q)).
    { eapply dle_trans; [apply Hle; apply list_elem_of_fmap; by exists z|].
      apply (proj1 (HDF z z) []). constructor. }
    destruct (dmin_list ds) as [d|] eqn:Hd; [|done]. exists d. split; [done|].
    apply list_elem_of_fmap in Hin as (s & Hs & _). symmetry in Hs.
    destruct (proj2 (HDF s z) d Hs) as (p & Hp & Hwp).
    pose proof (walk_weight_nonneg arcs Hnonneg _ _ _ Hp).
    apply Qeq_bool_iff. simpl in Hself. lra. }
  destruct (foldlM_nearest_other g arcs G M0 Harcs (NoDup_grocery_node_ids g) Hzero)
    as (acc' & Hfold & Hlook).
  destruct (Hzero x HxG) as (d0 & Hd0 & Hd00).
  set (vals := non_self_values names arcs G x).
  assert (Hvals := λ q, elem_of_non_self_values names arcs G x q HGnames).
  fold vals in Hvals.
  assert (Hfinal : acc' !! x = match dmin_list (Some <$> vals) with
                               | Some m => Some m
                               | None => Some d0
                               end).
  { rewrite Hlook, decide_True by done. fold names G vals. by rewrite Hd0. }
  assert (Hrun : add_grocery_travel_time g false
                 = Ok [] (set_node_attributes g ((λ q, PNum (FNum q)) <$> acc') NEAREST)).
  { unfold add_grocery_travel_time. fold G. fold G in Hfold.
    rewrite Hmulti, bind_Ok_nil.
    rewrite Hfold, bind_Ok_nil. done. }
  assert (Hreach : reaches_other_grocery g x → vals ≠ []).
  { intros (y & p & [Hyx (ay & Hy & Hgy)] & Hp) Hnil.
    assert (Hp' : walk (.∈ arcs) y x p).
    { eapply walk_impl; [|exact Hp]. intros a. apply (proj2 (Hroad a)). }
    pose proof (proj1 (HDF x y) p Hp') as Hle.
    destruct (dist_from arcs (length names) x y) as [q|] eqn:Hq; [|done].
    assert (Hin : q ∈ vals).
    { apply Hvals. exists y. split; [|done]. apply elem_of_grocery_node_ids. eauto. }
    rewrite Hnil in Hin. by apply elem_of_nil in Hin. }
  destruct (decide (vals = [])) as [Hnil|Hne].
  - (* no other grocery node is reachable: the zero stays *)
    exists (set_node_attributes g ((λ q, PNum (FNum q)) <$> acc') NEAREST), d0.
    split; [exact Hrun|]. split; [|split].
    + rewrite lookup_set_node_attributes, Hx. simpl. rewrite lookup_fmap, Hfinal.
      by rewrite Hnil.
    + intros Hr. by apply Hreach in Hr.
    + intros _. by apply Qeq_bool_iff.
  - assert (Hne' : Some <$> vals ≠ []).
    { intros H%fmap_nil_inv. done. }
    destruct (dmin_list_spec (Some <$> vals) Hne') as [Hin Hle].
    apply list_elem_of_fmap in Hin as (m & Hm & Hmin).
    exists (set_node_attributes g ((λ q, PNum (FNum q)) <$> acc') NEAREST), m.
    split; [exact Hrun|]. split; [|split].
    + rewrite lookup_set_node_attributes, Hx. simpl. rewrite lookup_fmap, Hfinal.
      by rewrite Hm.
    + intros _. split.
      * intros y p [Hyx (ay & Hy & Hgy)] Hp.
        assert (Hp' : walk (.∈ arcs) y x p).
        { eapply walk_impl; [|exact Hp]. intros a. apply (proj2 (Hroad a)). }
        pose proof (proj1 (HDF x y) p Hp') as Hley.
        destruct (dist_from arcs (length names) x y) as [q|] eqn:Hq; [|done].
        assert (Hq_in : Some q ∈ Some <$> vals).
        { apply list_elem_of_fmap. exists q. split; [done|]. apply Hvals.
          exists y. split; [|done]. apply elem_of_grocery_node_ids. eauto. }
        apply Hle in Hq_in. rewrite Hm in Hq_in. simpl in *. lra.
      * apply Hvals in Hmin as (t & (at_ & Hat & Hgt)%elem_of_grocery_node_ids & Htx & Ht).
        destruct (proj2 (HDF x t) m Ht) as (p & Hp & Hwp).
        exists t, p. split; [split; eauto|]. split; [|done].
        eapply walk_impl; [|exact Hp]. intros a. apply (proj1 (Hroad a)).
    + intros Hnr. exfalso. apply Hnr.
      apply Hvals in Hmin as (t & (at_ & Hat & Hgt)%elem_of_grocery_node_ids & Htx & Ht).
      destruct (proj2 (HDF x t) m Ht) as (p & Hp & Hwp).
      exists t, p. split; [split; eauto|].
      eapply walk_impl; [|exact Hp]. intros a. apply (proj1 (Hroad a)).
Qed.

(** ** Nearest-food travel time of the grocery nodes *)

Lemma weights_okb_spec g : weights_okb g = true → weights_ok g.
Proof.
  unfold weights_okb, weights_ok. rewrite forallb_forall. intros H e ed He.
  specialize (H (e, ed)). simpl in H.
  destruct (edge_weight None ed) as [[|] w|] eqn:Hw.
  - by eexists.
  - discriminate H. by apply list_elem_of_In, elem_of_map_to_list.
  - discriminate H. by apply list_elem_of_In, elem_of_map_to_list.
Qed.

Lemma walk_weight_nonneg_on (R : arc → Prop) t v p :
  (∀ a, R a → (0 <= arc_weight a)%Q) → walk R t v p → (0 <= walk_weight p)%Q.
Proof.
  intros HR. induction 1 as [|a p Ha Hp IH]; simpl; [apply Qle_refl|].
  specialize (HR a Ha). lra.
Qed.

Lemma least_time_positive g x q :
  (∀ a, road g a → (0 < arc_weight a)%Q) →
  least_time_to_other_grocery g x q → (0 < q)%Q.
Proof.
  intros Hpos [_ (y & p & [Hyx _] & Hp & Hq)].
  destruct (walk_to_other_nonempty _ _ _ _ Hp) as (a & p' & -> & Ha & Hp');
    [done|].
  assert (0 <= walk_weight p')%Q.
  { apply (walk_weight_nonneg_on (road g) y (arc_head a)); [|done].
    intros b Hb. apply Qlt_le_weak. auto. }
  specialize (Hpos a Ha). simpl in Hq. lra.
Qed.

(** C1 (as the code has it): in a graph whose edges carry finite
    non-negative travel times and in which at least two nodes are
    flagged [grocery], the nearest-food step returns, and on every
    grocery-flagged node [x] it stores:
    - when another grocery node can be reached from [x], the travel time
      [q] of a shortest walk from [x] to another grocery node (on either
      routing path); [q] is positive when every travel time is positive;
    - when no other grocery node can be reached from [x], infinity on
      the igraph path and zero on the NetworkX path. *)
Theorem nearest_grocery_time_of_grocery_node (g : graph) (igraph : bool)
    (x : Z) (ax : attrs) :
  graph_wf g → weights_ok g →
  nodes g !! x = Some ax → is_grocery ax = true →
  (∃ y, other_grocery g x y) →
  ∃ g' v,
    add_grocery_travel_time g igraph = Ok [] g'
    ∧ nodes g' !! x = Some (<[NEAREST := PNum v]> ax)
    ∧ (reaches_other_grocery g x →
         ∃ q, v = FNum q ∧ least_time_to_other_grocery g x q
              ∧ ((∀ a, road g a → (0 < arc_weight a)%Q) → (0 < q)%Q))
    ∧ (¬ reaches_other_grocery g x →
         if igraph then v = FInf false else ∃ q, v = FNum q ∧ (q == 0)%Q).
Proof.
  intros Hwf Hw Hx Hgx (y & Hyx & ay & Hy & Hgy). destruct igraph.
  - destruct (nearest_other_grocery_igraph g x ax Hwf Hw Hx Hgx)
      as (g' & d & Hrun & Hval & Hle & Hatt & Hpos); [by exists y, ay|].
    exists g', (dist_val d). split; [done|]. split; [done|]. split.
    + intros (z & p & [Hzx (az & Hz & Hgz)] & Hp).
      pose proof (Hle z az p Hzx Hz Hgz Hp) as Hd.
      destruct d as [q|]; [|done]. exists q. split; [done|].
      assert (Hleast : least_time_to_other_grocery g x q).
      { split.
        - intros z' p' [Hzx' (az' & Hz' & Hgz')] Hp'.
          apply (Hle z' az' p' Hzx' Hz' Hgz' Hp').
        - destruct (Hatt q eq_refl) as (m & am & pm & Hmx & Hm & Hgm & Hpm & Hwm).
          exists m, pm. split; [split; eauto|]. split; [done|]. by rewrite Hwm. }
      split; [done|]. intros Hpos'. by apply (least_time_positive g x).
    + intros Hnr. destruct d as [q|]; [|done]. exfalso. apply Hnr.
      destruct (Hatt q eq_refl) as (m & am & pm & Hmx & Hm & Hgm & Hpm & _).
      exists m, pm. split; [split; eauto|done].
  - destruct (nearest_other_grocery_networkx g x ax Hwf Hw Hx Hgx)
      as (g' & q & Hrun & Hval & Hreach & Hnone).
    exists g', (FNum q). split; [done|]. split; [done|]. split.
    + intros Hr. exists q. split; [done|]. split; [auto|].
      intros Hpos. apply (least_time_positive g x); auto.
    + intros Hnr. exists q. auto.
Qed.

Lemma nearest_grocery_time_of_grocery_node_witness :
  (graph_wf G_shops ∧ weights_ok G_shops
   ∧ nodes G_shops !! 1 = Some (shop true) ∧ is_grocery (shop true) = true
   ∧ ∃ y, other_grocery G_shops 1 y)
  ∧ ∃ g' v,
    add_grocery_travel_time G_shops true = Ok [] g'
    ∧ nodes g' !! 1 = Some (<[NEAREST := PNum v]> (shop true))
    ∧ (reaches_other_grocery G_shops 1 →
         ∃ q, v = FNum q ∧ least_time_to_other_grocery G_shops 1 q
              ∧ ((∀ a, road G_shops a → (0 < arc_weight a)%Q) → (0 < q)%Q))
    ∧ (¬ reaches_other_grocery G_shops 1 → v = FInf false).
Proof.
  assert (H1 : graph_wf G_shops) by (apply graph_wfb_spec; vm_compute; reflexivity).
  assert (H2 : weights_ok G_shops) by (apply weights_okb_spec; vm_compute; reflexivity).
  assert (H3 : nodes G_shops !! 1 = Some (shop true)) by reflexivity.
  assert (H4 : is_grocery (shop true) = true) by reflexivity.
  assert (H5 : ∃ y, other_grocery G_shops 1 y).
  { exists 3. split; [discriminate|]. exists (shop true). split; reflexivity. }
  split; [exact (conj H1 (conj H2 (conj H3 (conj H4 H5))))|].
  exact (nearest_grocery_time_of_grocery_node G_shops true 1 (shop true) H1 H2 H3 H4 H5).
Defined.

(** Both nodes of [G_zero] are grocery nodes, and the step leaves a
    travel time of zero on node 1, on either routing path: the other
    supermarket is a zero-time segment away. *)
Lemma nearest_grocery_time_zero_counterexample :
  is_grocery (shop true) = true
  ∧ nodes G_zero !! 1 = Some (shop true)
  ∧ nodes G_zero !! 2 = Some (shop true)
  ∧ nearest_of (add_grocery_travel_time G_zero true) 1 = Some (PNum (FNum 0))
  ∧ nearest_of (add_grocery_travel_time G_zero false) 1 = Some (PNum (FNum 0)).
Proof. repeat split; vm_compute; reflexivity. Qed.

(** With two supermarkets that cannot reach one another the igraph path
    stores infinity and the NetworkX path keeps the zero. *)
Example nearest_grocery_time_apart :
  nearest_of (add_grocery_travel_time G_apart true) 1 = Some (PNum (FInf false))
  ∧ nearest_of (add_grocery_travel_time G_apart false) 1 = Some (PNum (FNum 0)).
Proof. split; vm_compute; reflexivity. Qed.

Example nearest_grocery_time_shops :
  nearest_of (add_grocery_travel_time G_shops true) <$> [1; 2; 3; 4]
    = [Some (num 7); Some (num 5); Some (num 4); Some (num 1)]
  ∧ nearest_of (add_grocery_travel_time G_shops false) <$> [1; 2; 3; 4]
    = [Some (num 7); Some (num 2); Some (num 4); None].
Proof. split; vm_compute; reflexivity. Qed.

(** ** No grocery node *)

Lemma grocery_node_ids_nil g :
  (∀ n a, nodes g !! n = Some a → is_grocery a = false) → grocery_node_ids g = [].
Proof.
  intros Hno. destruct (grocery_node_ids g) as [|x l] eqn:Hl; [done|].
  assert (Hx : x ∈ grocery_node_ids g) by (rewrite Hl; left).
  apply elem_of_grocery_node_ids in Hx as (a & Ha & Hg).
  apply Hno in Ha. congruence.
Qed.

(** C2: on a graph without a grocery-flagged node the step as the
    pipeline runs it ([igraph=True]) raises nothing: it warns and
    returns the graph exactly as it received it, so no node gains a
    travel time.  The NetworkX variant ([igraph=False]) of the same step
    has no such guard and ends in the [ValueError] that
    [multi_source_dijkstra_path_length] raises for an empty source
    list. *)
Theorem add_grocery_travel_time_no_grocery (g : graph) :
  (∀ n a, nodes g !! n = Some a → is_grocery a = false) →
  add_grocery_travel_time g true
    = Ok [UserWarning "No grocery stores found in graph!"] g
  ∧ add_grocery_travel_time g false = Raise [] ValueError.
Proof.
  intros Hno. apply grocery_node_ids_nil in Hno.
  unfold add_grocery_travel_time, add_grocery_travel_time_igraph,
    multi_source_dijkstra_path_length.
  rewrite Hno. split; reflexivity.
Qed.

Lemma add_grocery_travel_time_no_grocery_witness :
  (∀ n a, nodes G_line !! n = Some a → is_grocery a = false)
  ∧ add_grocery_travel_time G_line true
    = Ok [UserWarning "No grocery stores found in graph!"] G_line
  ∧ add_grocery_travel_time G_line false = Raise [] ValueError.
Proof.
  assert (H : ∀ n a, nodes G_line !! n = Some a → is_grocery a = false).
  { intros n a Ha.
    assert (Hin : (n, a) ∈ map_to_list (nodes G_line)) by by apply elem_of_map_to_list.
    vm_compute in Hin.
    repeat (apply elem_of_cons in Hin as [Hin|Hin];
            [injection Hin as -> ->; reflexivity|]).
    by apply elem_of_nil in Hin. }
  split; [exact H|]. exact (add_grocery_travel_time_no_grocery G_line H).
Defined.

(* ===================================================================== *)
(** * Further properties *)
(* ===================================================================== *)

(** ** Node cleaning *)

Lemma clean_nodes_columns_eq (t : frame) :
  filter (λ c, c ∉ filter (λ col, col ∈ columns t) NODE_ARTIFACTS) (columns t)
  = filter (λ c, c ∉ NODE_ARTIFACTS) (columns t).
Proof.
  apply filter_ext_in. intros c Hc. rewrite list_elem_of_filter. tauto.
Qed.

Lemma lookup_replace_drop (cs : list string) (r : row) (c : string) (x : cell) :
  c ∉ cs →
  filter (λ kv : string * cell, finite_cell kv.2 = true)
    (filter (λ kv : string * cell, kv.1 ∉ cs) r) !! c = Some x
  ↔ r !! c = Some x ∧ finite_cell x = true.
Proof.
  intros Hc. rewrite map_lookup_filter_Some. simpl.
  by rewrite lookup_filter_not_in.
Qed.

(** What a successful run of [clean_nodes] returns. *)
Lemma clean_nodes_inv (t t' : frame) ws :
  clean_nodes t = Ok ws t' →
  ws = [] ∧ "geometry" ∈ columns t'
  ∧ crs t' = crs t
  ∧ columns t' = filter (λ c, c ∉ NODE_ARTIFACTS) (columns t)
  ∧ ∀ i r', (i, r') ∈ rows t' ↔
      ∃ r, (i, r) ∈ rows t
        ∧ r' = filter (λ kv : string * cell, finite_cell kv.2 = true)
                 (filter (λ kv : string * cell,
                            kv.1 ∉ filter (λ col, col ∈ columns t) NODE_ARTIFACTS) r)
        ∧ ∀ c, c ∈ columns t' → usable r c.
Proof.
  unfold clean_nodes. cbn zeta. rewrite columns_drop_columns, clean_nodes_columns_eq.
  destruct (bool_decide _) eqn:Hg; [|done].
  apply bool_decide_eq_true_1 in Hg. rewrite bind_mret.
  intros H. injection H as <- <-. split; [done|].
  assert (Hcols : columns (dropna_rows (replace_inf
            (drop_columns (filter (λ col, col ∈ columns t) NODE_ARTIFACTS) t)))
          = filter (λ c, c ∉ NODE_ARTIFACTS) (columns t))
    by apply clean_nodes_columns_eq.
  rewrite Hcols.
  split; [done|]. split; [done|]. split; [done|].
  intros i r'. unfold dropna_rows. rewrite elem_of_select.
  unfold replace_inf, drop_columns. cbn [rows set_rows columns].
  rewrite <- list_fmap_compose, list_elem_of_fmap, complete_row_spec.
  rewrite clean_nodes_columns_eq.
  split.
  - intros [([j r] & Heq & Hin) Hall]. simpl in Heq. injection Heq as -> ->.
    exists r. split; [done|]. split; [done|].
    intros c Hc. destruct (Hall c Hc) as [x Hx].
    apply lookup_replace_drop in Hx; [by exists x|].
    apply list_elem_of_filter in Hc as [Hc _]. intros [_ ?]%list_elem_of_filter. done.
  - intros (r & Hin & -> & Hall). split; [by exists (i, r)|].
    intros c Hc. destruct (Hall c Hc) as (x & Hx & Hf). exists x.
    apply lookup_replace_drop; [|done].
    apply list_elem_of_filter in Hc as [Hc _]. intros [_ ?]%list_elem_of_filter. done.
Qed.

(** X1: when [clean_nodes] returns, the columns of its result are the
    columns it was given without [lat], [lon], [index_right], [highway]
    and [ref]; every cell of every row it returns, in every such column,
    holds a value that is neither missing nor infinite, and is the cell
    of a row of the input with the same label; and every row of the
    input whose cells in those columns are all present and finite is
    returned.  So a node with an infinite travel time, or outside every
    census tract, leaves the table. *)
Theorem clean_nodes_complete_finite (nodes nodes' : frame) ws :
  clean_nodes nodes = Ok ws nodes' →
  columns nodes' = filter (λ c, c ∉ NODE_ARTIFACTS) (columns nodes)
  ∧ (∀ i r' c, (i, r') ∈ rows nodes' → c ∈ columns nodes' →
       usable r' c
       ∧ ∃ r, (i, r) ∈ rows nodes ∧ r !! c = r' !! c)
  ∧ (∀ i r, (i, r) ∈ rows nodes → (∀ c, c ∈ columns nodes' → usable r c) →
       ∃ r', (i, r') ∈ rows nodes').
Proof.
  intros H. apply clean_nodes_inv in H as (_ & _ & _ & Hcols & Hrows).
  split; [done|]. split.
  - intros i r' c Hin Hc. apply Hrows in Hin as (r & Hin & -> & Hall).
    destruct (Hall c Hc) as (x & Hx & Hf).
    assert (Hl : filter (λ kv : string * cell, finite_cell kv.2 = true)
                   (filter (λ kv : string * cell,
                      kv.1 ∉ filter (λ col, col ∈ columns nodes) NODE_ARTIFACTS) r) !! c
                 = Some x).
    { apply lookup_replace_drop; [|done].
      rewrite Hcols in Hc. apply list_elem_of_filter in Hc as [Hc _].
      intros [_ ?]%list_elem_of_filter. done. }
    split; [by exists x|]. exists r. by rewrite Hl.
  - intros i r Hin Hall. eexists. apply Hrows. eauto.
Qed.

Lemma clean_nodes_complete_finite_witness :
  clean_nodes T_nodes_joined = Ok [] T_nodes_cleaned
  ∧ columns T_nodes_cleaned
    = filter (λ c, c ∉ NODE_ARTIFACTS) (columns T_nodes_joined)
  ∧ (∀ i r' c, (i, r') ∈ rows T_nodes_cleaned → c ∈ columns T_nodes_cleaned →
       usable r' c
       ∧ ∃ r, (i, r) ∈ rows T_nodes_joined ∧ r !! c = r' !! c)
  ∧ (∀ i r, (i, r) ∈ rows T_nodes_joined →
       (∀ c, c ∈ columns T_nodes_cleaned → usable r c) →
       ∃ r', (i, r') ∈ rows T_nodes_cleaned).
Proof.
  assert (H : clean_nodes T_nodes_joined = Ok [] T_nodes_cleaned)
    by (vm_compute; reflexivity).
  split; [exact H|].
  exact (clean_nodes_complete_finite T_nodes_joined T_nodes_cleaned [] H).
Defined.

(** Nodes 2 (infinite travel time) and 3 (no density) leave the table;
    the bookkeeping columns [highway] and [index_right] leave it too. *)
Example clean_nodes_T :
  index T_nodes_cleaned = [1; 4]
  ∧ columns T_nodes_cleaned = ["geometry"; "x"; "y"; "nearest_grocery_time"; "density"].
Proof. split; vm_compute; reflexivity. Qed.

Lemma filter_all {A} (P : A → Prop) `{!∀ x, Decision (P x)} (l : list A) :
  Forall P l → filter P l = l.
Proof.
  induction 1 as [|x l Hx Hl IH]; [done|].
  rewrite filter_cons, decide_True by done. by rewrite IH.
Qed.

Lemma filter_none {A} (P : A → Prop) `{!∀ x, Decision (P x)} (l : list A) :
  Forall (λ x, ¬ P x) l → filter P l = [].
Proof.
  induction 1 as [|x l Hx Hl IH]; [done|].
  by rewrite filter_cons, decide_False.
Qed.

Lemma map_filter_all (P : string * cell → Prop) `{!∀ x, Decision (P x)} (r : row) :
  (∀ k x, r !! k = Some x → P (k, x)) → filter P r = r.
Proof.
  intros HP. apply map_eq. intros k. destruct (r !! k) as [x|] eqn:Hx.
  - apply map_lookup_filter_Some. auto.
  - apply map_lookup_filter_None. by left.
Qed.

Lemma fmap_fixed {A} (f : A → A) (l : list A) :
  Forall (λ x, f x = x) l → f <$> l = l.
Proof.
  induction 1 as [|x l Hx Hl IH]; [done|]. by rewrite fmap_cons, Hx, IH.
Qed.

(** X2: [clean_nodes] is idempotent: applied to a table it has returned,
    it returns that very table, without a warning. *)
Theorem clean_nodes_idempotent (nodes nodes' : frame) ws :
  clean_nodes nodes = Ok ws nodes' → clean_nodes nodes' = Ok [] nodes'.
Proof.
  intros H. apply clean_nodes_inv in H as (_ & Hg & _ & Hcols & Hrows).
  assert (Hnone : filter (λ col, col ∈ columns nodes') NODE_ARTIFACTS = []).
  { apply filter_none, Forall_forall. intros a Ha Hin. rewrite Hcols in Hin.
    by apply list_elem_of_filter in Hin as [Hin _]. }
  unfold clean_nodes. cbn zeta. rewrite Hnone, columns_drop_columns.
  assert (Hc : filter (λ c : string, c ∉ []) (columns nodes') = columns nodes').
  { apply filter_all, Forall_forall. intros c _. apply not_elem_of_nil. }
  rewrite Hc, bool_decide_eq_true_2, bind_mret by done. f_equal.
  unfold dropna_rows, select, replace_inf, drop_columns, set_rows.
  cbn [rows columns crs]. rewrite Hc.
  destruct nodes' as [e cols rs]. cbn [crs columns rows] in *.
  f_equal. rewrite <- list_fmap_compose.
  rewrite fmap_fixed.
  - apply filter_all, Forall_forall. intros [i r'] Hin. cbn [fst snd].
    apply complete_row_spec. intros c Hc'.
    apply Hrows in Hin as (r & Hin & -> & Hall).
    destruct (Hall c Hc') as (x & Hx & Hf). exists x.
    apply lookup_replace_drop; [|done].
    rewrite Hcols in Hc'. apply list_elem_of_filter in Hc' as [Hc' _].
    intros [_ ?]%list_elem_of_filter. done.
  - apply Forall_forall. intros [i r'] Hin. cbn [fst snd compose]. f_equal.
    rewrite (map_filter_all (λ kv, kv.1 ∉ [])) by (intros; apply not_elem_of_nil).
    apply map_filter_all. intros k x Hk. cbn [snd].
    apply Hrows in Hin as (r & _ & -> & _).
    by apply map_lookup_filter_Some in Hk as [_ Hf].
Qed.

Lemma clean_nodes_idempotent_witness :
  clean_nodes T_nodes_joined = Ok [] T_nodes_cleaned
  ∧ clean_nodes T_nodes_cleaned = Ok [] T_nodes_cleaned.
Proof.
  assert (H : clean_nodes T_nodes_joined = Ok [] T_nodes_cleaned)
    by (vm_compute; reflexivity).
  split; [exact H|].
  exact (clean_nodes_idempotent T_nodes_joined T_nodes_cleaned [] H).
Defined.

(** ** Road classes of the nodes *)

Lemma cell_num_put_num c x (r : row) : cell_num (put_num c x r !! c) = x.
Proof.
  destruct x as [|s|q]; simpl.
  - by rewrite lookup_delete_eq.
  - by rewrite lookup_insert_eq.
  - by rewrite lookup_insert_eq.
Qed.

Lemma lookup_foldr_put_num (f : string → fval) (cols : list string) (r : row) c :
  (c ∈ cols → cell_num (foldr (λ c acc, put_num c (f c) acc) r cols !! c) = f c)
  ∧ (c ∉ cols → foldr (λ c acc, put_num c (f c) acc) r cols !! c = r !! c).
Proof.
  induction cols as [|c' cols [IH1 IH2]]; simpl.
  - split; [by intros ?%elem_of_nil|done].
  - destruct (decide (c = c')) as [->|Hne].
    + split; [|intros []; left]. intros _. apply cell_num_put_num.
    + rewrite lookup_put_num_ne by done. split.
      * intros [?|?]%elem_of_cons; [done|auto].
      * intros Hn. apply IH2. intros ?. apply Hn. by right.
Qed.

Lemma rows_within_columnsb_spec t :
  rows_within_columnsb t = true → rows_within_columns t.
Proof.
  unfold rows_within_columnsb. rewrite forallb_forall.
  intros H i r c Hin [x Hx]. apply list_elem_of_In, H in Hin. simpl in Hin.
  rewrite forallb_forall in Hin.
  specialize (Hin (c, x)). simpl in Hin.
  eapply bool_decide_eq_true_1. apply Hin.
  by apply list_elem_of_In, elem_of_map_to_list.
Qed.

(** X3: when [merge_highway_dummies_to_nodes] returns, the node table
    keeps its rows, labels and cells, and gains the columns of the edge
    table whose name contains [_hwy].  In such a column a node from which
    edges start holds the sum of the column over those edges (the rows
    whose [u] is the node's label); a node from which no edge starts
    holds a missing value there, not zero. *)
Theorem merge_highway_dummies_sums (nodes edges nodes' : frame) ws :
  rows_within_columns nodes →
  merge_highway_dummies_to_nodes nodes edges = Ok ws nodes' →
  let highway_cols := filter (λ col, contains "_hwy" col = true) (columns edges) in
  index nodes' = index nodes
  ∧ columns nodes' = columns nodes ++ highway_cols
  ∧ ∀ i r', (i, r') ∈ rows nodes' →
      ∃ r, (i, r) ∈ rows nodes
        ∧ (∀ c, c ∉ highway_cols → r' !! c = r !! c)
        ∧ ∀ c, c ∈ highway_cols →
            match out_rows i edges with
            | [] => r' !! c = None
            | group => cell_num (r' !! c) = sum_cells ((λ e : row, e !! c) <$> group)
            end.
Proof.
  intros Hwf. unfold merge_highway_dummies_to_nodes. cbn zeta.
  destruct (bool_decide ("u" ∈ columns edges)); [|done]. rewrite bind_mret.
  destruct (bool_decide (Exists _ _)) eqn:Hov; [done|].
  apply bool_decide_eq_false_1 in Hov.
  intros H. injection H as <- <-. cbn [columns rows]. split; [|split; [done|]].
  - unfold index. cbn [rows]. rewrite <- list_fmap_compose. done.
  - intros i r' ([j r] & Heq & Hin)%list_elem_of_fmap. cbn [fst snd] in Heq.
    injection Heq as -> ->. exists r. split; [done|].
    unfold join_highways. split.
    + intros c Hc. destruct (out_rows j edges) as [|e group]; [done|].
      by apply lookup_foldr_put_num.
    + intros c Hc. destruct (out_rows j edges) as [|e group].
      * destruct (r !! c) as [x|] eqn:Hx; [|done].
        exfalso. apply Hov. apply Exists_exists. exists c. split; [done|].
        apply (Hwf j r c Hin). by eexists.
      * by apply (lookup_foldr_put_num
                    (λ c, sum_cells ((λ e0 : row, e0 !! c) <$> e :: group))).
Qed.

Lemma merge_highway_dummies_sums_witness :
  (rows_within_columns T_nodes
   ∧ merge_highway_dummies_to_nodes T_nodes T_edges_hwy = Ok [] T_nodes_hwy)
  ∧ index T_nodes_hwy = index T_nodes
  ∧ columns T_nodes_hwy
    = columns T_nodes
      ++ filter (λ col, contains "_hwy" col = true) (columns T_edges_hwy)
  ∧ ∀ i r', (i, r') ∈ rows T_nodes_hwy →
      ∃ r, (i, r) ∈ rows T_nodes
        ∧ (∀ c, c ∉ filter (λ col, contains "_hwy" col = true) (columns T_edges_hwy) →
             r' !! c = r !! c)
        ∧ ∀ c, c ∈ filter (λ col, contains "_hwy" col = true) (columns T_edges_hwy) →
            match out_rows i T_edges_hwy with
            | [] => r' !! c = None
            | group => cell_num (r' !! c) = sum_cells ((λ e : row, e !! c) <$> group)
            end.
Proof.
  assert (H1 : rows_within_columns T_nodes)
    by (apply rows_within_columnsb_spec; vm_compute; reflexivity).
  assert (H2 : merge_highway_dummies_to_nodes T_nodes T_edges_hwy = Ok [] T_nodes_hwy)
    by (vm_compute; reflexivity).
  split; [exact (conj H1 H2)|].
  exact (merge_highway_dummies_sums T_nodes T_edges_hwy T_nodes_hwy [] H1 H2).
Defined.

(** Two edges leave node 1, one of each class; one residential edge
    leaves node 2; none leaves nodes 3 and 4. *)
Example merge_highway_dummies_T :
  (λ ir : Z * row, (ir.1, cell_num (ir.2 !! "primary_hwy"),
                    cell_num (ir.2 !! "residential_hwy"))) <$> rows T_nodes_hwy
  = [ (1, FNum 1, FNum 1); (2, FNum 0, FNum 1); (3, FNaN, FNaN); (4, FNaN, FNaN) ].
Proof. vm_compute. reflexivity. Qed.

(** ** Edge cleaning without a usable road class *)

(** X4: when the [highway] column does not survive the 95% rule (it is
    absent, or missing on more rows than the rule allows), [clean_edges]
    does not return: the attribute access [edges.highway] raises
    [AttributeError]. *)
Theorem clean_edges_needs_highway (edges : frame) :
  "highway" ∉ kept_columns edges →
  clean_edges edges = Raise [] AttributeError.
Proof.
  intros Hno. unfold clean_edges. cbn zeta.
  assert (Hreq : require_column "highway"
            (reset_index (dropna_rows
               (dropna_columns (thresh_95 (length (rows edges))) edges)))
          = Raise [] AttributeError).
  { unfold require_column.
    change (columns (reset_index (dropna_rows
              (dropna_columns (thresh_95 (length (rows edges))) edges))))
      with (columns (dropna_columns (thresh_95 (length (rows edges))) edges)).
    rewrite columns_dropna_columns. by rewrite bool_decide_eq_false_2. }
  by rewrite Hreq.
Qed.

Lemma clean_edges_needs_highway_witness :
  ("highway" ∉ kept_columns T_edges_unclassified)
  ∧ clean_edges T_edges_unclassified = Raise [] AttributeError.
Proof.
  assert (H : "highway" ∉ kept_columns T_edges_unclassified).
  { apply (bool_decide_unpack _). vm_compute. exact I. }
  split; [exact H|]. exact (clean_edges_needs_highway T_edges_unclassified H).
Defined.

(** ** Nearest-food travel time of the other nodes *)

Lemma names_of_positions (names : list Z) :
  NoDup names →
  (idx_to_node (index_of_names names) !!!.) <$> seq 0 (length names) = names.
Proof.
  intros Hnd. apply list_eq. intros j. rewrite list_lookup_fmap.
  destruct (names !! j) as [x|] eqn:Hj.
  - rewrite (proj2 (lookup_seq 0 (length names) j j)); [|split; [done|by eapply lookup_lt_Some]].
    simpl. f_equal. by apply idx_to_node_lookup.
  - apply lookup_ge_None in Hj. rewrite lookup_seq_ge; [done|lia].
Qed.

Lemma lookup_by_position {A} (names : list Z) (h : nat → A) (j : nat) (x : Z) :
  NoDup names → names !! j = Some x →
  list_to_map (M := gmap Z A)
    ((λ j, (idx_to_node (index_of_names names) !!! j, h j)) <$> seq 0 (length names)) !! x
  = Some (h j).
Proof.
  intros Hnd Hj. apply elem_of_list_to_map_1.
  - rewrite <- list_fmap_compose.
    change (fst ∘ _) with (λ j : nat, idx_to_node (index_of_names names) !!! j).
    by rewrite names_of_positions.
  - apply list_elem_of_fmap. exists j. split.
    + by rewrite (idx_to_node_lookup names j x).
    + apply elem_of_seq. apply lookup_lt_Some in Hj. lia.
Qed.

(** X5: on a graph with at least one grocery-flagged node (edges between
    its nodes, finite non-negative travel times) the igraph path of the
    nearest-food step stores, on every node [x] that is not flagged, the
    least travel time of a walk from [x] to a grocery node, following
    the edges in their direction; it stores infinity when no grocery
    node can be reached from [x]. *)
Theorem nearest_grocery_time_igraph_other_nodes (g : graph) (x : Z) (ax : attrs) :
  graph_wf g → weights_ok g →
  nodes g !! x = Some ax → is_grocery ax = false →
  grocery_node_ids g ≠ [] →
  ∃ g' d,
    add_grocery_travel_time g true = Ok [] g'
    ∧ nodes g' !! x = Some (<[NEAREST := PNum (dist_val d)]> ax)
    ∧ least_time_to_grocery g x d.
Proof.
  intros Hwf Hw Hx Hgx HGne.
  destruct (graph_arcs_spec g Hw) as (arcs & Harcs & Hroad).
  set (names := node_names g).
  set (G := grocery_node_ids g) in *.
  set (gi := omap (λ node, index_of_names names !! node) G).
  set (sp := ig_shortest_paths names arcs gi).
  assert (Hnd : NoDup names) by apply NoDup_fst_map_to_list.
  assert (HGnames : ∀ z, z ∈ G → z ∈ names).
  { intros z (a & Ha & _)%elem_of_grocery_node_ids. apply elem_of_node_names. by eexists. }
  assert (HF : Forall2 (λ node i, names !! i = Some node) G gi)
    by by apply grocery_indices_spec.
  assert (Hgi : gi ≠ []).
  { intros Hnil. rewrite Hnil in HF. apply Forall2_nil_inv_r in HF. done. }
  assert (Hxn : x ∈ names) by (apply elem_of_node_names; by eexists).
  apply list_elem_of_lookup in Hxn as [jx Hjx].
  assert (Hjxlt : (jx < length names)%nat) by by eapply lookup_lt_Some.
  assert (HxG : x ∉ G).
  { intros (a & Ha & Hg)%elem_of_grocery_node_ids. congruence. }
  assert (Hnonneg : ∀ a, a ∈ arcs → (0 <= arc_weight a)%Q).
  { intros a (k & ed & _ & Hwe)%Hroad. by eapply edge_weight_nonneg. }
  assert (Hheads : ∀ a, a ∈ arcs → arc_head a ∈ names).
  { intros a Ha%Hroad. by apply road_head_is_node. }
  set (ds := (λ i, (sp !!! i) !!! jx) <$> seq 0 (length gi)).
  assert (Helem : ∀ d, d ∈ ds ↔ ∃ m, m ∈ G ∧ d = dist_to arcs (length names) m x).
  { intros d. unfold ds. rewrite list_elem_of_fmap. split.
    - intros (k & -> & [_ Hk]%elem_of_seq). simpl in Hk.
      unfold sp. rewrite ig_shortest_paths_lookup by done.
      pose proof (list_lookup_lookup_total_lt gi k Hk) as Hgik.
      destruct (Forall2_lookup_r _ _ _ _ _ HF Hgik) as (m & HGk & Hm).
      rewrite (list_lookup_total_correct _ _ _ Hm), (list_lookup_total_correct _ _ _ Hjx).
      exists m. split; [by eapply list_elem_of_lookup_2|done].
    - intros (m & [k HGk]%list_elem_of_lookup & ->).
      destruct (Forall2_lookup_l _ _ _ _ _ HF HGk) as (i & Hgik & Hi).
      exists k. split; [|apply elem_of_seq; apply lookup_lt_Some in Hgik; lia].
      unfold sp. rewrite ig_shortest_paths_lookup by (done || by eapply lookup_lt_Some).
      by rewrite (list_lookup_total_correct _ _ _ Hgik), (list_lookup_total_correct _ _ _ Hi),
        (list_lookup_total_correct _ _ _ Hjx). }
  assert (Hds : ds ≠ []).
  { destruct G as [|m G'] eqn:HG; [done|]. intros Hnil.
    assert (Hin : dist_to arcs (length names) m x ∈ ds)
      by (apply Helem; exists m; split; [left|done]).
    rewrite Hnil in Hin. by apply elem_of_nil in Hin. }
  destruct (dmin_list_spec ds Hds) as [Hmin_in Hmin_le].
  eexists _, (dmin_list ds). split; [|split; [|split]].
  - unfold add_grocery_travel_time, add_grocery_travel_time_igraph.
    fold names G gi. rewrite (match_nonempty gi _ _ Hgi).
    rewrite Harcs, bind_Ok_nil. reflexivity.
  - rewrite lookup_set_node_attributes, Hx. simpl. rewrite lookup_fmap.
    fold sp. rewrite foldl_other_store_untouched.
    + rewrite (lookup_by_position names
                 (λ j, dmin_list ((λ i, (sp !!! i) !!! j) <$> seq 0 (length gi))) jx x)
        by done.
      done.
    + intros j Hj Heq. apply HxG. rewrite <- Heq.
      rewrite <- (names_of_indices names G gi Hnd HF).
      apply list_elem_of_fmap. by exists j.
  - intros y ay p Hy Hgy Hp.
    assert (HyG : y ∈ G) by (apply elem_of_grocery_node_ids; eauto).
    eapply dle_trans; [apply Hmin_le, Helem; eauto|].
    apply (dist_to_least arcs Hnonneg names y x Hheads).
    eapply walk_impl; [|exact Hp]. intros a. apply (proj2 (Hroad a)).
  - intros q Hq. rewrite Hq in Hmin_in.
    apply Helem in Hmin_in as (m & HmG & Hm).
    apply elem_of_grocery_node_ids in HmG as (am & Ham & Hgm).
    symmetry in Hm.
    destruct (proj2 (dist_to_least arcs Hnonneg names m x Hheads) q Hm) as (p & Hp & Hwp).
    exists m, am, p. split; [done|]. split; [done|]. split; [|by rewrite Hwp].
    eapply walk_impl; [|exact Hp]. intros a. apply (proj1 (Hroad a)).
Qed.

Lemma nearest_grocery_time_igraph_other_nodes_witness :
  (graph_wf G_shops ∧ weights_ok G_shops
   ∧ nodes G_shops !! 4 = Some (shop false) ∧ is_grocery (shop false) = false
   ∧ grocery_node_ids G_shops ≠ [])
  ∧ ∃ g' d,
    add_grocery_travel_time G_shops true = Ok [] g'
    ∧ nodes g' !! 4 = Some (<[NEAREST := PNum (dist_val d)]> (shop false))
    ∧ least_time_to_grocery G_shops 4 d.
Proof.
  assert (H1 : graph_wf G_shops) by (apply graph_wfb_spec; vm_compute; reflexivity).
  assert (H2 : weights_ok G_shops) by (apply weights_okb_spec; vm_compute; reflexivity).
  assert (H3 : nodes G_shops !! 4 = Some (shop false)) by reflexivity.
  assert (H4 : is_grocery (shop false) = false) by reflexivity.
  assert (H5 : grocery_node_ids G_shops ≠ []) by (vm_compute; discriminate).
  split; [exact (conj H1 (conj H2 (conj H3 (conj H4 H5))))|].
  exact (nearest_grocery_time_igraph_other_nodes G_shops 4 (shop false) H1 H2 H3 H4 H5).
Defined.

(** X6: on the same graphs the NetworkX path of the step stores, on
    every node [x] that is not flagged, the least travel time of a walk
    from a grocery node to [x] (the direction opposite to the igraph
    path's); a node that no grocery node can reach receives no
    [nearest_grocery_time] at all and keeps its attributes as they
    were. *)
Theorem nearest_grocery_time_networkx_other_nodes (g : graph) (x : Z) (ax : attrs) :
  graph_wf g → weights_ok g →
  nodes g !! x = Some ax → is_grocery ax = false →
  grocery_node_ids g ≠ [] →
  ∃ g' d,
    add_grocery_travel_time g false = Ok [] g'
    ∧ nodes g' !! x = Some (match d with
                            | Some q => <[NEAREST := PNum (FNum q)]> ax
                            | None => ax
                            end)
    ∧ least_time_from_grocery g x d.
Proof.
  intros Hwf Hw Hx Hgx HG.
  destruct (graph_arcs_spec g Hw) as (arcs & Harcs & Hroad).
  set (names := node_names g).
  set (G := grocery_node_ids g) in *.
  assert (HGnames : ∀ z, z ∈ G → z ∈ names).
  { intros z (a & Ha & _)%elem_of_grocery_node_ids. apply elem_of_node_names. by eexists. }
  assert (HxG : x ∉ G).
  { intros (a & Ha & Hg)%elem_of_grocery_node_ids. congruence. }
  assert (Hxn : x ∈ names) by (apply elem_of_node_names; by eexists).
  assert (Hnonneg : ∀ a, a ∈ arcs → (0 <= arc_weight a)%Q).
  { intros a (k & ed & _ & Hwe)%Hroad. by eapply edge_weight_nonneg. }
  assert (Htails : ∀ a, a ∈ arcs → arc_tail a ∈ names).
  { intros a Ha%Hroad. by apply road_tail_is_node. }
  assert (HDF := λ s v, dist_from_least arcs names s v Hnonneg Htails).
  set (M0 := list_to_map (M := gmap Z Q) (omap (λ v,
              (λ q, (v, q)) <$>
                dmin_list ((λ s, dist_from arcs (length names) s v) <$> G)) names)).
  assert (Hmulti : multi_source_dijkstra_path_length g G = Ok [] M0).
  { unfold multi_source_dijkstra_path_length. rewrite (match_nonempty G _ _ HG).
    by rewrite Harcs, bind_Ok_nil. }
  assert (Hzero : ∀ z, z ∈ G → ∃ d, M0 !! z = Some d ∧ Qeq_bool d 0 = true).
  { intros z Hz. unfold M0. rewrite lookup_tabulate. rewrite decide_True by auto.
    set (ds := (λ s, dist_from arcs (length names) s z) <$> G).
    assert (Hds : ds ≠ []).
    { intros Hnil. apply fmap_nil_inv in Hnil. done. }
    destruct (dmin_list_spec ds Hds) as [Hin Hle].
    assert (Hself : dle (dmin_list ds) (Some 0%Q)).
    { eapply dle_trans; [apply Hle; apply list_elem_of_fmap; by exists z|].
      apply (proj1 (HDF z z) []). constructor. }
    destruct (dmin_list ds) as [d|] eqn:Hd; [|done]. exists d. split; [done|].
    apply list_elem_of_fmap in Hin as (s & Hs & _). symmetry in Hs.
    destruct (proj2 (HDF s z) d Hs) as (p & Hp & Hwp).
    pose proof (walk_weight_nonneg arcs Hnonneg _ _ _ Hp).
    apply Qeq_bool_iff. simpl in Hself. lra. }
  destruct (foldlM_nearest_other g arcs G M0 Harcs (NoDup_grocery_node_ids g) Hzero)
    as (acc' & Hfold & Hlook).
  set (ds := (λ s, dist_from arcs (length names) s x) <$> G).
  assert (Hds : ds ≠ []).
  { intros Hnil. apply fmap_nil_inv in Hnil. done. }
  destruct (dmin_list_spec ds Hds) as [Hmin_in Hmin_le].
  assert (Hfinal : acc' !! x = dmin_list ds).
  { rewrite Hlook, decide_False by done. unfold M0.
    rewrite lookup_tabulate, decide_True by done. done. }
  exists (set_node_attributes g ((λ q, PNum (FNum q)) <$> acc') NEAREST), (dmin_list ds).
  split; [|split; [|split]].
  - unfold add_grocery_travel_time. fold G. fold G in Hfold.
    rewrite Hmulti, bind_Ok_nil. rewrite Hfold, bind_Ok_nil. done.
  - rewrite lookup_set_node_attributes, Hx. simpl. rewrite lookup_fmap, Hfinal.
    by destruct (dmin_list ds).
  - intros y ay p Hy Hgy Hp.
    assert (HyG : y ∈ G) by (apply elem_of_grocery_node_ids; eauto).
    eapply dle_trans; [apply Hmin_le; apply list_elem_of_fmap; by exists y|].
    apply (proj1 (HDF y x) p).
    eapply walk_impl; [|exact Hp]. intros a. apply (proj2 (Hroad a)).
  - intros q Hq. rewrite Hq in Hmin_in.
    apply list_elem_of_fmap in Hmin_in as (m & Hm & HmG).
    apply elem_of_grocery_node_ids in HmG as (am & Ham & Hgm).
    symmetry in Hm.
    destruct (proj2 (HDF m x) q Hm) as (p & Hp & Hwp).
    exists m, am, p. split; [done|]. split; [done|]. split; [|done].
    eapply walk_impl; [|exact Hp]. intros a. apply (proj1 (Hroad a)).
Qed.

Lemma nearest_grocery_time_networkx_other_nodes_witness :
  (graph_wf G_shops ∧ weights_ok G_shops
   ∧ nodes G_shops !! 4 = Some (shop false) ∧ is_grocery (shop false) = false
   ∧ grocery_node_ids G_shops ≠ [])
  ∧ ∃ g' d,
    add_grocery_travel_time G_shops false = Ok [] g'
    ∧ nodes g' !! 4 = Some (match d with
                            | Some q => <[NEAREST := PNum (FNum q)]> (shop false)
                            | None => shop false
                            end)
    ∧ least_time_from_grocery G_shops 4 d.
Proof.
  assert (H1 : graph_wf G_shops) by (apply graph_wfb_spec; vm_compute; reflexivity).
  assert (H2 : weights_ok G_shops) by (apply weights_okb_spec; vm_compute; reflexivity).
  assert (H3 : nodes G_shops !! 4 = Some (shop false)) by reflexivity.
  assert (H4 : is_grocery (shop false) = false) by reflexivity.
  assert (H5 : grocery_node_ids G_shops ≠ []) by (vm_compute; discriminate).
  split; [exact (conj H1 (conj H2 (conj H3 (conj H4 H5))))|].
  exact (nearest_grocery_time_networkx_other_nodes G_shops 4 (shop false) H1 H2 H3 H4 H5).
Defined.

(** ** The disk cache and the batch driver *)

Section cached_call_properties.

Context {W : Type} (body : list argval → list (string * argval) → W → outcome * W).

Lemma disk_cache_miss (name : string)
    (func : list argval → list (string * argval) → W → outcome * W)
    (args : list argval) (kwargs : list (string * argval)) (w : W) (cache : cache_dir) :
  cache_miss cache (name, args, list_to_map kwargs) →
  disk_cache name func args kwargs (w, cache)
  = let '(o, w') := func args kwargs w in
    match o with
    | Returned value =>
        (o, (w', <[(name, args, list_to_map kwargs) := Some value]> cache))
    | _ => (o, (w', cache))
    end.
Proof. unfold disk_cache. cbn [fst snd]. by intros [-> | ->]. Qed.

(** X7: once a call through [disk_cache] has returned a value, every
    later call with the same function name, the same positional
    arguments and the same keyword arguments (in any order) returns that
    value and leaves the cache directory and everything else as they
    are, whatever the decorated function would now do: the function is
    not called again. *)
Theorem disk_cache_replays (name : string)
    (func func' : list argval → list (string * argval) → W → outcome * W)
    (args : list argval) (kwargs kwargs' : list (string * argval))
    (σ σ1 : W * cache_dir) (value : retval) :
  NoDup kwargs.*1 → kwargs ≡ₚ kwargs' →
  disk_cache name func args kwargs σ = (Returned value, σ1) →
  disk_cache name func' args kwargs' σ1 = (Returned value, σ1).
Proof.
  intros Hnd Hperm.
  assert (Hk : (list_to_map kwargs' : gmap string argval) = list_to_map kwargs)
    by (symmetry; by apply list_to_map_proper).
  unfold disk_cache. rewrite Hk.
  destruct (σ.2 !! (name, args, list_to_map kwargs)) as [[v|]|] eqn:Hc.
  - intros [= -> ->]. by rewrite Hc.
  - destruct (func args kwargs σ.1) as [[v| | |] w]; intros [= <- <-]. cbn [snd].
    by rewrite lookup_insert_eq.
  - destruct (func args kwargs σ.1) as [[v| | |] w]; intros [= <- <-]. cbn [snd].
    by rewrite lookup_insert_eq.
Qed.

Lemma check_keywords_unknown (positional : nat) (kwargs : list (string * argval)) :
  Exists (λ kv, kv.1 ∉ PARAMETERS) kwargs →
  is_Some (check_keywords positional kwargs).
Proof.
  induction 1 as [kv rest Hkv|kv rest _ IH]; cbn [check_keywords].
  - destruct (list_find _ PARAMETERS) as [[i p]|] eqn:Hf; [|by eexists].
    apply list_find_Some in Hf as (Hi & -> & _).
    exfalso. apply Hkv. by eapply list_elem_of_lookup_2.
  - destruct (list_find _ PARAMETERS) as [[i p]|]; [|by eexists].
    destruct (bool_decide _); [by eexists|done].
Qed.

(** X8: a call of the decorated [data_from_placename] that passes a
    keyword argument the function does not declare (the module's entry
    point and the batch driver pass [refresh_cache]) ends in an
    exception whenever the cache directory holds no readable file for
    the call: the pipeline is not run, and nothing is written to the
    cache. *)
Theorem data_from_placename_unknown_keyword (args : list argval)
    (kwargs : list (string * argval)) (w : W) (cache : cache_dir) :
  Exists (λ kv, kv.1 ∉ PARAMETERS) kwargs →
  cache_miss cache ("data_from_placename", args, list_to_map kwargs) →
  ∃ msg, data_from_placename body args kwargs (w, cache) = (Failure msg, (w, cache)).
Proof.
  intros Hkw Hmiss. unfold data_from_placename.
  rewrite disk_cache_miss by done. unfold data_from_placename_function.
  destruct (check_keywords_unknown (length args) kwargs Hkw) as [msg ->].
  by exists msg.
Qed.

Lemma total_wait_app l1 l2 : total_wait (l1 ++ l2) = total_wait l1 + total_wait l2.
Proof. unfold total_wait. induction l1 as [|x l1 IH]; simpl; lia. Qed.

Lemma wait_budget_nonneg attempts : 0 ≤ wait_budget attempts.
Proof.
  induction attempts as [|a rest IH]; simpl; [done|].
  unfold retry_delay. destruct (bool_decide _); lia.
Qed.

(** The retry loop always comes to an end without raising. *)
Lemma attempt_loop_returns (placename : string) (attempts : list nat) :
  ∀ σ : W * cache_dir,
  ∃ ws v sl σ',
    attempt_loop body placename attempts σ = Ok ws (v, sl, σ')
    ∧ (length ws ≤ length attempts)%nat
    ∧ (∀ value, v = Some value → valid_result value = true)
    ∧ total_wait sl ≤ wait_budget attempts.
Proof.
  induction attempts as [|a rest IH]; intros σ.
  - exists [], None, [], σ. by repeat split.
  - cbn [attempt_loop].
    destruct (data_from_placename body [AStr placename] batch_kwargs σ) as [o σ1].
    pose proof (wait_budget_nonneg rest) as Hnn.
    destruct (IH σ1) as (ws & v & sl & σ' & Heq & Hlen & Hval & Hsl).
    destruct o as [value| |msg|msg].
    + destruct (valid_result value) eqn:Hv.
      * exists [], (Some value), [], σ1. repeat split; [simpl; lia| |].
        -- intros ? [= <-]. done.
        -- cbn [wait_budget foldr]. fold (wait_budget rest).
           unfold total_wait, retry_delay. simpl. destruct (bool_decide _); lia.
      * rewrite Heq. eexists _, v, sl, σ'. split; [reflexivity|].
        repeat split; [simpl; rewrite ?length_app; simpl; lia|done|].
        cbn [wait_budget foldr]. fold (wait_budget rest).
        unfold retry_delay. destruct (bool_decide _); lia.
    + cbn [wait_budget foldr]. fold (wait_budget rest).
      destruct (bool_decide (a < retries - 1)%nat).
      * rewrite Heq. eexists _, v, _, σ'. split; [reflexivity|].
        repeat split; [simpl; rewrite ?length_app; simpl; lia|done|].
        cbn [fst snd]. unfold total_wait in *. simpl. lia.
      * rewrite Heq. eexists _, v, sl, σ'. split; [reflexivity|].
        repeat split; [simpl; rewrite ?length_app; simpl; lia|done|lia].
    + eexists _, None, [], σ1. split; [reflexivity|].
      repeat split; [simpl; rewrite ?length_app; simpl; lia|done|].
      cbn [wait_budget foldr]. fold (wait_budget rest).
      unfold total_wait, retry_delay. simpl. destruct (bool_decide _); lia.
    + rewrite Heq. eexists _, v, sl, σ'. split; [reflexivity|].
      repeat split; [simpl; rewrite ?length_app; simpl; lia|done|].
      cbn [wait_budget foldr]. fold (wait_budget rest).
      unfold retry_delay. destruct (bool_decide _); lia.
Qed.

Lemma foldlM_city_step_report (placenames : list string) : ∀ acc : tally W,
  (∀ p, p ∈ successful_cities acc ↔ is_Some (places acc !! p)) →
  (∀ p v, places acc !! p = Some v → valid_result v = true) →
  ∃ ws t,
    foldlM (city_step body) acc placenames = Ok ws t
    ∧ successful_cities t ++ failed_cities t
        ≡ₚ (successful_cities acc ++ failed_cities acc) ++ placenames
    ∧ (∀ p, p ∈ successful_cities t ↔ is_Some (places t !! p))
    ∧ (∀ p v, places t !! p = Some v → valid_result v = true)
    ∧ (length ws ≤ 3 * length placenames)%nat
    ∧ total_wait (slept t) ≤ total_wait (slept acc) + 180 * Z.of_nat (length placenames).
Proof.
  induction placenames as [|p ps IH]; intros acc Hdom Hvalid.
  - exists [], acc. cbn [foldlM]. rewrite app_nil_r. repeat split; try done; try apply Hdom.
    simpl. lia.
  - cbn [foldlM]. unfold city_step at 2.
    destruct (attempt_loop_returns p (seq 0 retries) (after acc))
      as (ws1 & v & sl & σ' & -> & Hlen & Hval & Hsl).
    cbn [mbind result_bind mret result_ret fst snd].
    rewrite length_seq in Hlen. change (wait_budget (seq 0 retries)) with 180 in Hsl.
    unfold retries in Hlen.
    destruct v as [value|].
    + edestruct (IH {| places := <[p := value]> (places acc);
                       successful_cities := successful_cities acc ++ [p];
                       failed_cities := failed_cities acc;
                       slept := slept acc ++ sl;
                       after := σ' |}) as (ws & t & -> & Hperm & Hd & Hv & Hl & Hs).
      { cbn [places successful_cities]. intros q. rewrite elem_of_app, list_elem_of_singleton.
        destruct (decide (q = p)) as [->|Hne].
        - rewrite lookup_insert_eq. split; [by eexists|by right].
        - rewrite lookup_insert_ne by done. rewrite Hdom. tauto. }
      { cbn [places]. intros q v. destruct (decide (q = p)) as [->|Hne].
        - rewrite lookup_insert_eq. intros [= <-]. by apply Hval.
        - rewrite lookup_insert_ne by done. apply Hvalid. }
      eexists _, t. split; [reflexivity|].
      cbn [places successful_cities failed_cities slept] in *.
      split; [|split; [done|split; [done|split]]].
      * rewrite Hperm. rewrite <- !app_assoc. apply Permutation_app_head.
        simpl. apply Permutation_middle.
      * rewrite !length_app. simpl. lia.
      * rewrite total_wait_app in Hs. rewrite length_cons. lia.
    + edestruct (IH {| places := places acc;
                       successful_cities := successful_cities acc;
                       failed_cities := failed_cities acc ++ [p];
                       slept := slept acc ++ sl;
                       after := σ' |}) as (ws & t & -> & Hperm & Hd & Hv & Hl & Hs);
        [done|done|].
      eexists _, t. split; [reflexivity|].
      cbn [places successful_cities failed_cities slept] in *.
      split; [|split; [done|split; [done|split]]].
      * rewrite Hperm. by rewrite <- !app_assoc.
      * rewrite !length_app. simpl. lia.
      * rewrite total_wait_app in Hs. rewrite length_cons. lia.
Qed.

(** X9: [batch_process_cities] never raises, whatever the calls of
    [data_from_placename] come to.  Every place name it was given ends
    in exactly one of the lists [successful] and [failed] (as often as
    it was given); the keys of [places] are the successful names, and
    every value stored there passed the validity test; it issues at most
    three warnings per place and sleeps at most 180 seconds (60 + 120)
    per place. *)
Theorem batch_process_cities_report (placenames : list string) (σ : W * cache_dir) :
  ∃ ws t,
    batch_process_cities body placenames σ = Ok ws t
    ∧ successful_cities t ++ failed_cities t ≡ₚ placenames
    ∧ (∀ p, p ∈ successful_cities t ↔ is_Some (places t !! p))
    ∧ (∀ p v, places t !! p = Some v → valid_result v = true)
    ∧ (length ws ≤ 3 * length placenames)%nat
    ∧ total_wait (slept t) ≤ 180 * Z.of_nat (length placenames).
Proof.
  unfold batch_process_cities.
  edestruct (foldlM_city_step_report placenames) as (ws & t & -> & H); last first.
  - exists ws, t. split; [reflexivity|]. exact H.
  - cbn [places]. intros p v. by rewrite lookup_empty.
  - cbn [places successful_cities]. intros p. rewrite lookup_empty.
    split; [by intros ?%elem_of_nil|by intros []].
Qed.

Lemma batch_call_fails (placename : string) (w : W) (cache : cache_dir) :
  cache_miss cache (batch_key placename) →
  data_from_placename body [AStr placename] batch_kwargs (w, cache)
  = (Failure UNEXPECTED_REFRESH_CACHE, (w, cache)).
Proof.
  intros Hmiss. unfold data_from_placename.
  rewrite disk_cache_miss by done. reflexivity.
Qed.

Lemma attempt_loop_fails (placename : string) (w : W) (cache : cache_dir)
    (attempts : list nat) :
  cache_miss cache (batch_key placename) →
  attempt_loop body placename attempts (w, cache)
  = Ok (replicate (length attempts)
          (UserWarning (failed_message placename UNEXPECTED_REFRESH_CACHE)))
       (None, [], (w, cache)).
Proof.
  intros Hmiss. induction attempts as [|a rest IH]; [done|].
  cbn [attempt_loop]. rewrite batch_call_fails by done. rewrite IH. done.
Qed.

Lemma foldlM_city_step_fails (w : W) (cache : cache_dir) (placenames : list string) :
  ∀ acc : tally W,
  Forall (λ p, cache_miss cache (batch_key p)) placenames →
  after acc = (w, cache) →
  foldlM (city_step body) acc placenames
  = Ok (placenames ≫= λ p,
          replicate retries (UserWarning (failed_message p UNEXPECTED_REFRESH_CACHE)))
       {| places := places acc;
          successful_cities := successful_cities acc;
          failed_cities := failed_cities acc ++ placenames;
          slept := slept acc;
          after := (w, cache) |}.
Proof.
  induction placenames as [|p ps IH]; intros acc Hmiss Hafter.
  - cbn [foldlM]. rewrite app_nil_r. destruct acc. simpl in Hafter. by subst.
  - apply Forall_cons in Hmiss as [Hp Hps].
    cbn [foldlM]. unfold city_step at 2. rewrite Hafter.
    rewrite attempt_loop_fails by done. cbn [fst snd].
    rewrite length_seq. cbn [mbind result_bind mret result_ret fst snd].
    rewrite IH by done. cbn [places successful_cities failed_cities slept].
    rewrite !app_nil_r, <- app_assoc. reflexivity.
Qed.

(** X10: as the batch driver calls it, [data_from_placename] cannot
    succeed: the keyword [refresh_cache] is not a parameter.  Unless the
    cache directory already holds a readable file for a place, each of
    the three attempts for it ends in the [TypeError], which the
    catch-all handler turns into a warning; so every place is reported
    as failed, [places] stays empty, nothing is slept, and the pipeline
    is never run nor the cache written. *)
Theorem batch_process_cities_all_fail (placenames : list string) (w : W)
    (cache : cache_dir) :
  Forall (λ p, cache_miss cache (batch_key p)) placenames →
  batch_process_cities body placenames (w, cache)
  = Ok (placenames ≫= λ p,
          replicate 3 (UserWarning (failed_message p UNEXPECTED_REFRESH_CACHE)))
       {| places := ∅;
          successful_cities := [];
          failed_cities := placenames;
          slept := [];
          after := (w, cache) |}.
Proof.
  intros Hmiss. unfold batch_process_cities.
  by rewrite (foldlM_city_step_fails w cache placenames) by done.
Qed.

End cached_call_properties.

Lemma disk_cache_replays_witness :
  (NoDup batch_kwargs.*1 ∧ batch_kwargs ≡ₚ reverse batch_kwargs
   ∧ disk_cache "data_from_placename" body_ok [AStr "Albany, NY"] batch_kwargs (tt, ∅)
     = (Returned V_ok, (tt, {[ batch_key "Albany, NY" := Some V_ok ]})))
  ∧ disk_cache "data_from_placename" body_down [AStr "Albany, NY"] (reverse batch_kwargs)
      (tt, {[ batch_key "Albany, NY" := Some V_ok ]})
    = (Returned V_ok, (tt, {[ batch_key "Albany, NY" := Some V_ok ]})).
Proof.
  assert (H1 : NoDup batch_kwargs.*1).
  { apply (bool_decide_unpack _). vm_compute. exact I. }
  assert (H2 : batch_kwargs ≡ₚ reverse batch_kwargs) by (symmetry; apply reverse_Permutation).
  assert (H3 : disk_cache "data_from_placename" body_ok [AStr "Albany, NY"] batch_kwargs
                 (tt, ∅)
               = (Returned V_ok, (tt, {[ batch_key "Albany, NY" := Some V_ok ]}))).
  { unfold disk_cache. cbn [fst snd]. rewrite lookup_empty. reflexivity. }
  split; [exact (conj H1 (conj H2 H3))|].
  exact (disk_cache_replays "data_from_placename" body_ok body_down [AStr "Albany, NY"]
           batch_kwargs (reverse batch_kwargs) (tt, ∅) _ V_ok H1 H2 H3).
Defined.

Lemma data_from_placename_unknown_keyword_witness :
  (Exists (λ kv : string * argval, kv.1 ∉ PARAMETERS) main_kwargs
   ∧ cache_miss ∅ ("data_from_placename", [AStr "Albany, NY"], list_to_map main_kwargs))
  ∧ ∃ msg, data_from_placename body_ok [AStr "Albany, NY"] main_kwargs (tt, ∅)
           = (Failure msg, (tt, ∅)).
Proof.
  assert (H1 : Exists (λ kv : string * argval, kv.1 ∉ PARAMETERS) main_kwargs).
  { apply Exists_cons_hd. apply (bool_decide_unpack _). vm_compute. exact I. }
  assert (H2 : cache_miss (∅ : cache_dir)
                 ("data_from_placename", [AStr "Albany, NY"], list_to_map main_kwargs))
    by (left; apply lookup_empty).
  split; [exact (conj H1 H2)|].
  exact (data_from_placename_unknown_keyword body_ok [AStr "Albany, NY"] main_kwargs
           tt ∅ H1 H2).
Defined.

Lemma batch_process_cities_all_fail_witness :
  Forall (λ p, cache_miss (∅ : cache_dir) (batch_key p)) ["Albany, NY"; "Denver, CO"]
  ∧ batch_process_cities body_ok ["Albany, NY"; "Denver, CO"] (tt, ∅)
    = Ok (["Albany, NY"; "Denver, CO"] ≫= λ p,
            replicate 3 (UserWarning (failed_message p UNEXPECTED_REFRESH_CACHE)))
         {| places := ∅;
            successful_cities := [];
            failed_cities := ["Albany, NY"; "Denver, CO"];
            slept := [];
            after := (tt, ∅) |}.
Proof.
  assert (H : Forall (λ p, cache_miss (∅ : cache_dir) (batch_key p))
                ["Albany, NY"; "Denver, CO"]).
  { repeat constructor; left; apply lookup_empty. }
  split; [exact H|].
  exact (batch_process_cities_all_fail body_ok ["Albany, NY"; "Denver, CO"] tt ∅ H).
Defined.

(** With the network down and an empty cache the driver would wait 60
    and 120 seconds per place, if the call got as far as the network; it
    does not, and reports the failure at once. *)
Example batch_process_cities_down :
  (λ t : tally unit, (successful_cities t, failed_cities t, slept t))
    <$> (match batch_process_cities body_down ["Albany, NY"] (tt, ∅) with
         | Ok _ t => Some t
         | Raise _ _ => None
         end)
  = Some ([], ["Albany, NY"], []).
Proof. vm_compute. reflexivity. Qed.

(** ** Street networks *)

Lemma foldl_max_spec (rest : list (Z * Z)) : ∀ (pre : list (Z * Z)) (best : Z * Z) (i : nat),
  (pre ++ rest) !! i = Some best → (i < length pre)%nat →
  (∀ j kv, (j < length pre)%nat → (pre ++ rest) !! j = Some kv → kv.2 ≤ best.2) →
  (∀ j kv, (j < i)%nat → (pre ++ rest) !! j = Some kv → kv.2 < best.2) →
  ∃ i' best', foldl (λ best kv : Z * Z, if best.2 <? kv.2 then kv else best) best rest = best'
    ∧ (pre ++ rest) !! i' = Some best'
    ∧ (∀ j kv, (pre ++ rest) !! j = Some kv → kv.2 ≤ best'.2)
    ∧ (∀ j kv, (j < i')%nat → (pre ++ rest) !! j = Some kv → kv.2 < best'.2).
Proof.
  induction rest as [|kv rest IH]; intros pre best i Hi Hlt Hle Hfirst.
  - exists i, best. rewrite app_nil_r in *. repeat split; [done| |done].
    intros j kv Hj. apply (Hle j kv); [|done]. by eapply lookup_lt_Some.
  - cbn [foldl].
    assert (Heq : pre ++ kv :: rest = (pre ++ [kv]) ++ rest) by by rewrite <- app_assoc.
    assert (Hkv : (pre ++ kv :: rest) !! length pre = Some kv) by by rewrite list_lookup_middle.
    rewrite Heq in *.
    destruct (best.2 <? kv.2) eqn:Hcmp.
    + apply Z.ltb_lt in Hcmp.
      apply (IH (pre ++ [kv]) kv (length pre)); [done|rewrite length_app; simpl; lia| |].
      * intros j kv' Hj Hl. rewrite length_app in Hj. simpl in Hj.
        destruct (decide (j = length pre)) as [->|Hne].
        -- rewrite Hkv in Hl. injection Hl as <-. lia.
        -- specialize (Hle j kv' ltac:(lia) Hl). lia.
      * intros j kv' Hj Hl. specialize (Hle j kv' Hj Hl). lia.
    + apply Z.ltb_ge in Hcmp.
      apply (IH (pre ++ [kv]) best i); [done|rewrite length_app; simpl; lia| |done].
      intros j kv' Hj Hl. rewrite length_app in Hj. simpl in Hj.
      destruct (decide (j = length pre)) as [->|Hne].
      * rewrite Hkv in Hl. by injection Hl as <-.
      * apply (Hle j kv'); [lia|done].
Qed.

(** X11: [key_to_max] raises [ValueError] exactly on the empty
    dictionary.  On any other dictionary it returns a key whose value no
    value of the dictionary exceeds, and among the keys with that
    greatest value the one inserted first. *)
Theorem key_to_max_first_maximum (dictionary : list (Z * Z)) :
  match key_to_max dictionary with
  | Ok ws k =>
      ws = [] ∧ ∃ i v, dictionary !! i = Some (k, v)
        ∧ (∀ j kv, dictionary !! j = Some kv → kv.2 ≤ v)
        ∧ (∀ j kv, (j < i)%nat → dictionary !! j = Some kv → kv.2 < v)
  | Raise ws e => ws = [] ∧ e = ValueError ∧ dictionary = []
  end.
Proof.
  destruct dictionary as [|first rest]; [done|].
  unfold key_to_max.
  destruct (foldl_max_spec rest [first] first 0%nat) as (i & best & Hf & Hi & Hle & Hfirst);
    [done|simpl; lia| |intros; lia|].
  { intros j kv Hj Hl. simpl in Hj. assert (j = 0%nat) as -> by lia.
    simpl in Hl. by injection Hl as <-. }
  simpl in Hf. rewrite Hf. split; [done|]. exists i, best.2.
  simpl in Hi, Hle, Hfirst. by destruct best.
Qed.

(** Nodes 7 and 9 both have the greatest degree; the earlier one wins. *)
Example key_to_max_tie : key_to_max [(5, 2); (7, 4); (8, 1); (9, 4)] = Ok [] 7.
Proof. reflexivity. Qed.

Lemma foldl_add_binary (S : gset Z) (label : string) (l : list Z) : ∀ G,
  let G' := foldl (λ G node,
      set_nodes G
        (alter (λ a, <[label := PBool (bool_decide (node ∈ S))]> a) node (nodes G))) G l in
  directed G' = directed G ∧ edges G' = edges G
  ∧ ∀ n, nodes G' !! n =
      if bool_decide (n ∈ l)
      then (λ a, <[label := PBool (bool_decide (n ∈ S))]> a) <$> nodes G !! n
      else nodes G !! n.
Proof.
  induction l as [|x l IH]; intros G; cbn [foldl].
  - by repeat split.
  - cbn zeta in *. destruct (IH (set_nodes G
        (alter (λ a, <[label := PBool (bool_decide (x ∈ S))]> a) x (nodes G))))
      as (Hd & He & Hn).
    split; [by rewrite Hd|]. split; [by rewrite He|].
    intros n. rewrite Hn. cbn [set_nodes nodes].
    destruct (decide (n = x)) as [->|Hne].
    + rewrite lookup_alter_eq. rewrite (bool_decide_eq_true_2 (x ∈ x :: l)); [|left].
      destruct (bool_decide (x ∈ l)); [|done].
      destruct (nodes G !! x); [|done]. simpl. f_equal. apply insert_insert_eq.
    + rewrite lookup_alter_ne by done.
      destruct (bool_decide (n ∈ l)) eqn:Hl.
      * apply bool_decide_eq_true_1 in Hl.
        rewrite (bool_decide_eq_true_2 (n ∈ x :: l)); [done|by right].
      * apply bool_decide_eq_false_1 in Hl.
        rewrite (bool_decide_eq_false_2 (n ∈ x :: l)); [done|].
        intros [?|?]%elem_of_cons; done.
Qed.

(** X12: [add_binary_attribute] leaves the node set, the edges and every
    other attribute as they are, and sets the attribute on every node of
    the graph: [True] on the nodes of the subset, [False] on all the
    others (an earlier value of the attribute is overwritten). *)
Theorem add_binary_attribute_flags (G : graph) (node_subset : gset Z)
    (attribute_label : string) :
  let G' := add_binary_attribute G node_subset attribute_label in
  directed G' = directed G ∧ edges G' = edges G
  ∧ ∀ n, nodes G' !! n =
      (λ a, <[attribute_label := PBool (bool_decide (n ∈ node_subset))]> a) <$> nodes G !! n.
Proof.
  cbn zeta. unfold add_binary_attribute.
  destruct (foldl_add_binary node_subset attribute_label (node_names G) G) as (Hd & He & Hn).
  split; [done|]. split; [done|]. intros n. rewrite Hn.
  destruct (bool_decide (n ∈ node_names G)) eqn:Hin; [done|].
  apply bool_decide_eq_false_1 in Hin. rewrite elem_of_node_names in Hin.
  destruct (nodes G !! n); [|done]. exfalso. apply Hin. by eexists.
Qed.

(** X13: after [add_binary_attribute(G, node_subset, "grocery")] the
    sources of the nearest-food step (the nodes it reads as grocery
    nodes) are exactly the nodes of the graph that belong to the subset,
    whatever [grocery] flags the graph carried before. *)
Theorem add_binary_attribute_grocery_sources (G : graph) (node_subset : gset Z) (n : Z) :
  n ∈ grocery_node_ids (add_binary_attribute G node_subset "grocery")
  ↔ n ∈ node_subset ∧ is_Some (nodes G !! n).
Proof.
  rewrite elem_of_grocery_node_ids. unfold add_binary_attribute.
  destruct (foldl_add_binary node_subset "grocery" (node_names G) G) as (_ & _ & Hn).
  rewrite Hn. split.
  - intros (a & Ha & Hg).
    destruct (bool_decide (n ∈ node_names G)) eqn:Hin.
    + destruct (nodes G !! n) as [a0|] eqn:Hn0; [|done]. simpl in Ha. injection Ha as <-.
      unfold is_grocery in Hg. rewrite lookup_insert_eq in Hg. simpl in Hg.
      apply bool_decide_eq_true_1 in Hg. split; [done|by eexists].
    + apply bool_decide_eq_false_1 in Hin. rewrite elem_of_node_names in Hin.
      exfalso. apply Hin. by eexists.
  - intros [HS [a Ha]].
    rewrite (bool_decide_eq_true_2 (n ∈ node_names G))
      by (apply elem_of_node_names; by eexists).
    rewrite Ha. simpl. eexists. split; [done|].
    unfold is_grocery. rewrite lookup_insert_eq. simpl. by apply bool_decide_eq_true_2.
Qed.

(** Flagging node 2 alone of [G_shops] replaces its supermarkets 1 and 3. *)
Example add_binary_attribute_G_shops :
  grocery_node_ids (add_binary_attribute G_shops {[ 2 ]} "grocery") = [2].
Proof. vm_compute. reflexivity. Qed.

(** ** Tag dictionaries *)

Lemma lookup_combine_item key value (m : gmap string tagval) k :
  combine_item key value m !! k =
  if decide (k = key)
  then merge_step (m !! key) value
  else m !! k.
Proof.
  unfold combine_item, merge_step. destruct (decide (k = key)) as [->|Hne].
  - destruct (m !! key) as [[]|]; by rewrite lookup_insert_eq.
  - destruct (m !! key) as [[]|]; by rewrite lookup_insert_ne.
Qed.

(** One dictionary merged into [combined_tags], key by key. *)
Lemma lookup_combine_dict (tag m : gmap string tagval) k :
  map_fold combine_item m tag !! k =
  match tag !! k with
  | Some value => merge_step (m !! k) value
  | None => m !! k
  end.
Proof.
  induction tag as [|key value tag Hkey Hfold IH] using map_first_key_ind.
  - by rewrite map_fold_empty, lookup_empty.
  - rewrite map_fold_insert_first_key by done.
    rewrite lookup_combine_item. destruct (decide (k = key)) as [->|Hne].
    + rewrite lookup_insert_eq. rewrite IH, Hkey. done.
    + rewrite lookup_insert_ne by done. apply IH.
Qed.

Lemma lookup_foldl_combine (tags : list (gmap string tagval)) k : ∀ m,
  foldl (λ combined_tags tag, map_fold combine_item combined_tags tag) m tags !! k
  = foldl merge_step (m !! k) (values_of k tags).
Proof.
  induction tags as [|tag tags IH]; intros m; [done|].
  cbn [foldl]. rewrite IH, lookup_combine_dict. unfold values_of. cbn [omap list_omap].
  by destruct (tag !! k).
Qed.

Lemma foldl_merge_step_list l vs :
  foldl merge_step (Some (TList l)) vs = Some (TList (l ++ vs)).
Proof.
  revert l. induction vs as [|v vs IH]; intros l; cbn [foldl].
  - by rewrite app_nil_r.
  - unfold merge_step at 2. rewrite IH. by rewrite <- app_assoc.
Qed.

Lemma foldl_merge_step_scalar (vs : list tagval) :
  Forall (λ v, scalar v = true) vs →
  foldl merge_step None vs = merged_value vs.
Proof.
  destruct vs as [|v [|v' vs]]; [done|done|].
  intros Hs. apply Forall_cons in Hs as [Hv _].
  cbn [foldl]. unfold merge_step at 3. unfold merge_step at 2.
  destruct v; try discriminate; by rewrite foldl_merge_step_list.
Qed.

Lemma Forall_values_of (P : tagval → Prop) k (tags : list (gmap string tagval)) :
  (∀ tag key v, tag ∈ tags → tag !! key = Some v → P v) →
  Forall P (values_of k tags).
Proof.
  intros HP. apply Forall_forall. intros v Hv.
  apply list_elem_of_omap in Hv as (tag & Hin & Hv). eauto.
Qed.

Lemma forallb_Forall {A} (f : A → bool) (l : list A) :
  forallb f l = true ↔ Forall (λ x, f x = true) l.
Proof.
  rewrite forallb_forall, Forall_forall.
  split; intros H x Hx; apply H; by apply list_elem_of_In.
Qed.

Lemma scalar_hashable v : scalar v = true → hashable v = true.
Proof. by destruct v. Qed.

Lemma merged_value_scalar_hashable vs v :
  Forall (λ v, scalar v = true) vs → merged_value vs = Some v →
  hashable (list_to_tuple v) = true ∧ tuple_to_list (list_to_tuple v) = v.
Proof.
  intros Hs Hm.
  assert (Hh : forallb hashable vs = true).
  { apply forallb_Forall. eapply Forall_impl; [exact Hs|]. apply scalar_hashable. }
  destruct vs as [|v1 [|v2 vs]]; [done| |].
  - injection Hm as <-. apply Forall_cons in Hs as [Hv _]. by destruct v1.
  - injection Hm as <-. done.
Qed.

(** X14: for a list of tag dictionaries whose values are scalars
    (strings, booleans) [_make_hashable_tags_helper] returns, and the
    dictionary that [_from_place_name_helper] and [_from_point_helper]
    rebuild from its result and hand to the OSM query holds, for every
    key, the value itself when one dictionary of the list has the key,
    the list of all its values in the order of the dictionaries when
    several have it, and nothing when none has it.  No value is lost. *)
Theorem make_hashable_tags_list_merges (tags : list (gmap string tagval)) :
  (∀ tag key v, tag ∈ tags → tag !! key = Some v → scalar v = true) →
  ∃ hashable_tags,
    _make_hashable_tags_helper (TagsList tags) = Ok [] hashable_tags
    ∧ ∀ key, tags_of_hashable hashable_tags !! key = merged_value (values_of key tags).
Proof.
  intros Hs.
  assert (Hlook : ∀ key, combine_tags tags !! key = merged_value (values_of key tags)).
  { intros key. unfold combine_tags. rewrite lookup_foldl_combine, lookup_empty.
    apply foldl_merge_step_scalar. by apply Forall_values_of. }
  exists (list_to_tuple <$> combine_tags tags). split.
  - unfold _make_hashable_tags_helper, frozenset_items.
    rewrite bool_decide_eq_true_2; [done|].
    intros key v Hv. rewrite lookup_fmap, Hlook in Hv.
    destruct (merged_value (values_of key tags)) as [v0|] eqn:Hm; [|done].
    injection Hv as <-.
    by destruct (merged_value_scalar_hashable (values_of key tags) v0
                   (Forall_values_of _ key tags Hs) Hm).
  - intros key. unfold tags_of_hashable. rewrite !lookup_fmap, Hlook.
    destruct (merged_value (values_of key tags)) as [v0|] eqn:Hm; [|done].
    simpl. f_equal.
    by destruct (merged_value_scalar_hashable (values_of key tags) v0
                   (Forall_values_of _ key tags Hs) Hm).
Qed.

Lemma scalar_tags_singletons (tags : list (gmap string tagval)) :
  Forall (λ tag, ∃ k s, tag = {[ k := TStr s ]}) tags →
  ∀ tag key v, tag ∈ tags → tag !! key = Some v → scalar v = true.
Proof.
  intros Hall tag key v Hin Hv. rewrite Forall_forall in Hall.
  destruct (Hall tag Hin) as (k & s & ->).
  apply lookup_singleton_Some in Hv as [_ <-]. done.
Qed.

Lemma make_hashable_tags_list_merges_witness :
  (∀ tag key v, tag ∈ TERTIARY → tag !! key = Some v → scalar v = true)
  ∧ ∃ hashable_tags,
    _make_hashable_tags_helper (TagsList TERTIARY) = Ok [] hashable_tags
    ∧ ∀ key, tags_of_hashable hashable_tags !! key = merged_value (values_of key TERTIARY).
Proof.
  assert (H : ∀ tag key v, tag ∈ TERTIARY → tag !! key = Some v → scalar v = true).
  { apply scalar_tags_singletons. repeat constructor; by eexists _, _. }
  split; [exact H|]. exact (make_hashable_tags_list_merges TERTIARY H).
Defined.

(** The tags the three kinds of query send. *)
Example tags_of_the_queries :
  query_tags (TagsDict PRIMARY) = Some {[ "shop" := TStr "supermarket" ]}
  ∧ query_tags (TagsList SECONDARY)
    = Some {[ "shop" := TList [TStr "general"; TStr "convenience"; TStr "greengrocer"] ]}
  ∧ query_tags (TagsList TERTIARY)
    = Some {[ "amenity" := TList [TStr "fast_food"; TStr "fuel"];
              "shop" := TStr "variety_store" ]}.
Proof. repeat split; vm_compute; reflexivity. Qed.

Lemma combine_tags_singleton (d : gmap string tagval) : combine_tags [d] = d.
Proof.
  apply map_eq. intros k. unfold combine_tags. cbn [foldl].
  rewrite lookup_combine_dict, lookup_empty. by destruct (d !! k).
Qed.

Lemma plain_round_trip v :
  plain v = true → hashable (list_to_tuple v) = true ∧ tuple_to_list (list_to_tuple v) = v.
Proof.
  destruct v as [| |l|]; try done. simpl. intros Hl. split; [|done].
  apply forallb_Forall. apply forallb_Forall in Hl.
  eapply Forall_impl; [exact Hl|]. apply scalar_hashable.
Qed.

(** X15: a tag dictionary whose values are scalars or lists of scalars
    goes through the helper unchanged when it is wrapped in a one-item
    list: the query receives the dictionary itself.  Passed as a bare
    dictionary it is accepted, and comes back unchanged, only when every
    value is a scalar: as soon as one value is a list,
    [frozenset(tags.items())] raises [TypeError]. *)
Theorem make_hashable_tags_list_valued (d : gmap string tagval) :
  (∀ key v, d !! key = Some v → plain v = true) →
  (∃ hashable_tags,
     _make_hashable_tags_helper (TagsList [d]) = Ok [] hashable_tags
     ∧ tags_of_hashable hashable_tags = d)
  ∧ ((∃ key l, d !! key = Some (TList l)) →
     _make_hashable_tags_helper (TagsDict d) = Raise [] TypeError)
  ∧ ((∀ key v, d !! key = Some v → scalar v = true) →
     _make_hashable_tags_helper (TagsDict d) = Ok [] d ∧ tags_of_hashable d = d).
Proof.
  intros Hp. split; [|split].
  - exists (list_to_tuple <$> d). unfold _make_hashable_tags_helper.
    rewrite combine_tags_singleton. unfold frozenset_items. split.
    + rewrite bool_decide_eq_true_2; [done|].
      intros key v Hv. rewrite lookup_fmap in Hv.
      destruct (d !! key) as [v0|] eqn:Hd; [|done]. injection Hv as <-.
      by destruct (plain_round_trip v0 (Hp _ _ Hd)).
    + apply map_eq. intros key. unfold tags_of_hashable. rewrite !lookup_fmap.
      destruct (d !! key) as [v0|] eqn:Hd; [|done]. simpl. f_equal.
      by destruct (plain_round_trip v0 (Hp _ _ Hd)).
  - intros (key & l & Hd). unfold _make_hashable_tags_helper, frozenset_items.
    rewrite bool_decide_eq_false_2; [done|].
    intros Hall. by specialize (Hall key _ Hd).
  - intros Hs. unfold _make_hashable_tags_helper, frozenset_items. split.
    + rewrite bool_decide_eq_true_2; [done|].
      intros key v Hv. apply scalar_hashable. eauto.
    + apply map_eq. intros key. unfold tags_of_hashable. rewrite lookup_fmap.
      destruct (d !! key) as [v0|] eqn:Hd; [|done]. simpl. f_equal.
      specialize (Hs _ _ Hd). by destruct v0.
Qed.

Lemma make_hashable_tags_list_valued_witness :
  (∀ key v, D_shops !! key = Some v → plain v = true)
  ∧ (∃ hashable_tags,
       _make_hashable_tags_helper (TagsList [D_shops]) = Ok [] hashable_tags
       ∧ tags_of_hashable hashable_tags = D_shops)
  ∧ ((∃ key l, D_shops !! key = Some (TList l)) →
     _make_hashable_tags_helper (TagsDict D_shops) = Raise [] TypeError)
  ∧ ((∀ key v, D_shops !! key = Some v → scalar v = true) →
     _make_hashable_tags_helper (TagsDict D_shops) = Ok [] D_shops
     ∧ tags_of_hashable D_shops = D_shops).
Proof.
  assert (H : ∀ key v, D_shops !! key = Some v → plain v = true).
  { intros key v Hv. unfold D_shops in Hv.
    apply lookup_singleton_Some in Hv as [_ <-]. reflexivity. }
  split; [exact H|]. exact (make_hashable_tags_list_valued D_shops H).
Defined.

(** ** The cleaning of the two tables *)

Lemma assert_column_ok c t ws u :
  assert_column c t = Ok ws u → ws = [] ∧ c ∈ columns t.
Proof.
  unfold assert_column. destruct (bool_decide _) eqn:H; [|done].
  intros [= <- _]. split; [done|]. by eapply bool_decide_eq_true_1.
Qed.

Lemma bind_Ok_inv {A B} (m : result A) (f : A → result B) ws b :
  (m ≫= f) = Ok ws b → ∃ ws1 a ws2, m = Ok ws1 a ∧ f a = Ok ws2 b ∧ ws = ws1 ++ ws2.
Proof.
  destruct m as [ws1 a|ws1 e]; [|done]. cbn [mbind result_bind].
  destruct (f a) as [ws2 b'|] eqn:Hf; [|done]. intros [= <- <-]. eauto 6.
Qed.

Lemma contains_hwy_cols (c : string) (cols : list string) :
  contains "_hwy" c = false → c ∉ filter (λ col, contains "_hwy" col = true) cols.
Proof. intros Hc [Hh _]%list_elem_of_filter. congruence. Qed.

Lemma clean_edges_drops_highway (edges e : frame) ws :
  clean_edges edges = Ok ws e → "highway" ∉ columns e.
Proof.
  unfold clean_edges. cbn zeta. intros H.
  apply bind_Ok_inv in H as (? & [] & ? & _ & H & _).
  apply bind_Ok_inv in H as (? & ej & ? & _ & H & _).
  injection H as _ <-.
  destruct (bool_decide ("highway" ∈ columns ej)) eqn:Hh.
  - rewrite columns_drop_columns. intros [Hn _]%list_elem_of_filter. apply Hn. left.
  - by apply bool_decide_eq_false_1 in Hh.
Qed.

(** X16: the cleaning stage of [data_from_placename] (edge cleaning,
    node cleaning, reconciliation, road classes of the nodes, with its
    assertions), when it completes, hands over two tables that fit
    together: every edge has both endpoints among the labels of the node
    table; in the node table every cell outside the road-class columns
    (those whose name contains [_hwy]) holds a value that is neither
    missing nor infinite; the bookkeeping columns [lat], [lon],
    [index_right], [highway] and [ref] are gone from the node table and
    the raw [highway] column is gone from the edge table. *)
Theorem clean_tables_consistent (nodes edges nodes' edges' : frame) ws :
  clean_tables nodes edges = Ok ws (nodes', edges') →
  (∀ j e, (j, e) ∈ rows edges' →
     ∃ u v, e !! "u" = Some (CInt u) ∧ e !! "v" = Some (CInt v)
       ∧ u ∈ index nodes' ∧ v ∈ index nodes')
  ∧ (∀ i r c, (i, r) ∈ rows nodes' → c ∈ columns nodes' →
       contains "_hwy" c = false → usable r c)
  ∧ (∀ c, c ∈ columns nodes' → c ∉ NODE_ARTIFACTS)
  ∧ "highway" ∉ columns edges'.
Proof.
  unfold clean_tables. intros H.
  apply bind_Ok_inv in H as (w1 & e1 & w1' & He1 & H & _).
  apply bind_Ok_inv in H as (w2 & n1 & w2' & Hn1 & H & _).
  apply bind_Ok_inv in H as (w3 & [] & w3' & _ & H & _).
  apply bind_Ok_inv in H as (w4 & [] & w4' & _ & H & _).
  apply bind_Ok_inv in H as (w5 & [n2 e2] & w5' & Hrec & H & _).
  apply bind_Ok_inv in H as (w6 & n3 & w6' & Hmerge & H & _).
  apply bind_Ok_inv in H as (w7 & [] & w7' & _ & H & _).
  apply bind_Ok_inv in H as (w8 & [] & w8' & _ & H & _).
  cbn [fst snd] in *. injection H as _ <- <-.
  apply clean_edges_drops_highway in He1.
  apply clean_nodes_inv in Hn1 as (_ & _ & _ & Hcols1 & Hrows1).
  (* reconciliation *)
  unfold reconcile_nodes_edges in Hrec.
  apply bind_Ok_inv in Hrec as (? & [] & ? & _ & Hrec & _).
  apply bind_Ok_inv in Hrec as (? & [] & ? & _ & Hrec & _).
  cbn zeta in Hrec. injection Hrec as _ <- <-.
  (* the join *)
  unfold merge_highway_dummies_to_nodes in Hmerge. cbn zeta in Hmerge.
  apply bind_Ok_inv in Hmerge as (? & [] & ? & _ & Hmerge & _).
  destruct (bool_decide (Exists _ _)) eqn:Hov; [done|].
  injection Hmerge as _ <-.
  set (complete := list_to_set (index n1) ∩ column_set "u" e1 ∩ column_set "v" e1) in *.
  assert (Hidx : ∀ z, z ∈ complete →
            z ∈ index {| crs := crs (select (λ i _, bool_decide (i ∈ complete)) n1);
                         columns := columns (select (λ i _, bool_decide (i ∈ complete)) n1)
                           ++ filter (λ col, contains "_hwy" col = true)
                                (columns (select (λ _ r, isin "u" complete r
                                                         && isin "v" complete r) e1));
                         rows := (λ ir : Z * row,
                            (ir.1, join_highways
                               (filter (λ col, contains "_hwy" col = true)
                                  (columns (select (λ _ r, isin "u" complete r
                                                           && isin "v" complete r) e1)))
                               (select (λ _ r, isin "u" complete r && isin "v" complete r) e1)
                               ir.1 ir.2))
                           <$> rows (select (λ i _, bool_decide (i ∈ complete)) n1) |}).
  { intros z Hz. unfold index. cbn [rows]. rewrite <- list_fmap_compose.
    assert (Hzn : z ∈ index n1).
    { unfold complete in Hz. apply elem_of_intersection in Hz as [Hz _].
      apply elem_of_intersection in Hz as [Hz _]. by apply elem_of_list_to_set in Hz. }
    apply list_elem_of_fmap in Hzn as ([i r] & -> & Hin).
    apply list_elem_of_fmap. exists (i, r). split; [done|].
    apply elem_of_select. split; [done|]. by apply bool_decide_eq_true_2. }
  split; [|split; [|split]].
  - intros j e [Hin Hk]%elem_of_select. apply andb_true_iff in Hk as [Hu Hv].
    apply isin_true in Hu as (u & Hu & Huc). apply isin_true in Hv as (v & Hv & Hvc).
    exists u, v. auto.
  - cbn [rows columns]. intros i r c ([j r2] & Heq & Hin)%list_elem_of_fmap Hc Hnh.
    cbn [fst snd] in Heq. injection Heq as -> ->.
    apply list_elem_of_filter in Hin as [_ Hin].
    apply elem_of_app in Hc as [Hc|Hc]; [|by apply contains_hwy_cols in Hc].
    apply Hrows1 in Hin as (r0 & Hin0 & -> & Hall).
    destruct (Hall c Hc) as (cx & Hx & Hf).
    assert (Hl : filter (λ kv : string * cell, finite_cell kv.2 = true)
                   (filter (λ kv : string * cell,
                      kv.1 ∉ filter (λ col, col ∈ columns nodes) NODE_ARTIFACTS) r0) !! c
                 = Some cx).
    { apply lookup_replace_drop; [|done].
      rewrite Hcols1 in Hc. apply list_elem_of_filter in Hc as [Hc _].
      intros [_ ?]%list_elem_of_filter. done. }
    exists cx. split; [|done]. rewrite <- Hl.
    unfold join_highways. destruct (out_rows j _) as [|e0 group]; [done|].
    apply lookup_foldr_put_num. by apply contains_hwy_cols.
  - cbn [columns]. intros c Hc Hart.
    apply elem_of_app in Hc as [Hc|Hc].
    + change (columns (select _ n1)) with (columns n1) in Hc.
      rewrite Hcols1 in Hc. by apply list_elem_of_filter in Hc as [Hc _].
    + apply list_elem_of_filter in Hc as [Hc _].
      unfold NODE_ARTIFACTS in Hart.
      repeat (apply elem_of_cons in Hart as [->|Hart]; [by vm_compute in Hc|]).
      by apply elem_of_nil in Hart.
  - exact He1.
Qed.

Lemma clean_tables_consistent_witness :
  clean_tables T_nodes_joined T_segments = Ok [] T_cleaned
  ∧ (∀ j e, (j, e) ∈ rows T_cleaned.2 →
       ∃ u v, e !! "u" = Some (CInt u) ∧ e !! "v" = Some (CInt v)
         ∧ u ∈ index T_cleaned.1 ∧ v ∈ index T_cleaned.1)
  ∧ (∀ i r c, (i, r) ∈ rows T_cleaned.1 → c ∈ columns T_cleaned.1 →
       contains "_hwy" c = false → usable r c)
  ∧ (∀ c, c ∈ columns T_cleaned.1 → c ∉ NODE_ARTIFACTS)
  ∧ "highway" ∉ columns T_cleaned.2.
Proof.
  assert (H : clean_tables T_nodes_joined T_segments = Ok [] (T_cleaned.1, T_cleaned.2))
    by (vm_compute; reflexivity).
  split; [exact H|].
  exact (clean_tables_consistent T_nodes_joined T_segments T_cleaned.1 T_cleaned.2 [] H).
Defined.

(** Nodes 1 and 4 and the two segments between them remain. *)
Example clean_tables_T :
  index T_cleaned.1 = [1; 4]
  ∧ (λ ir : Z * row, (ir.2 !! "u", ir.2 !! "v")) <$> rows T_cleaned.2
    = [ (Some (CInt 1), Some (CInt 4)); (Some (CInt 4), Some (CInt 1)) ]
  ∧ columns T_cleaned.1
    = ["geometry"; "x"; "y"; "nearest_grocery_time"; "density";
       "primary_hwy"; "residential_hwy"].
Proof. repeat split; vm_compute; reflexivity. Qed.

(** ** The choropleth of the dashboard *)



(** Asking for a GeoDataFrame fails whether or not the file exists, and
    a state without a file is reported. *)
Example create_geo_json_data_T :
  create_geo_json_data files_T "CO" true = Raise [] AttributeError
  ∧ create_geo_json_data files_T "NY" false = Raise [] FileNotFoundError.
Proof. split; reflexivity. Qed.

Lemma foldl_max_nan (l : list fval) :
  foldl (λ m y, if fgtb y m then y else m) FNaN l = FNaN.
Proof.
  induction l as [|y l IH]; [done|]. cbn [foldl].
  assert (fgtb y FNaN = false) as -> by (by destruct y as [|[]|]). done.
Qed.

Lemma prefix_E_not_density svi : String.prefix "E_" svi = true → svi ≠ "POP_DENSITY".
Proof. intros H ->. discriminate. Qed.

(** X18: the maximum that scales the colours is taken with [max], which
    keeps its first item when the comparison with NaN is false.  So when
    the first feature of a loaded file had the sentinel -999 for a count
    variable (a name starting with [E_]), which the loader turned into
    NaN, [properties_max] is NaN and so are all nine class breakpoints,
    whatever the other features hold: no feature matches a class. *)
Theorem generate_style_handle_first_sentinel (svi : string) (r0 : row)
    (rest : list row) :
  String.prefix "E_" svi = true →
  r0 !! svi = Some (CInt (-999)) →
  generate_style_handle svi (clean_invalid_values (r0 :: rest))
  = Ok [] (replicate 9 FNaN, FNaN).
Proof.
  intros Hpre Hr0. unfold generate_style_handle, properties_values.
  rewrite decide_False by by apply prefix_E_not_density.
  rewrite bind_mret, Hpre.
  unfold clean_invalid_values. rewrite fmap_cons, fmap_cons.
  assert (Hfirst : property (filter (λ kv : string * cell, is_sentinel kv.2 = false) r0) svi
                   = FNaN).
  { unfold property.
    assert (Hl : filter (λ kv : string * cell, is_sentinel kv.2 = false) r0 !! svi = None).
    { apply map_lookup_filter_None. right. intros x Hx. simpl.
      rewrite Hr0 in Hx. injection Hx as <-. done. }
    by rewrite Hl. }
  rewrite Hfirst, filter_cons, decide_True by done.
  unfold py_max. rewrite foldl_max_nan, bind_mret, bind_mret. reflexivity.
Qed.

Lemma generate_style_handle_first_sentinel_witness :
  (String.prefix "E_" "E_POV150" = true
   ∧ tract 1200 (-999) !! "E_POV150" = Some (CInt (-999)))
  ∧ generate_style_handle "E_POV150" (clean_invalid_values F_colorado)
    = Ok [] (replicate 9 FNaN, FNaN).
Proof.
  assert (H1 : String.prefix "E_" "E_POV150" = true) by reflexivity.
  assert (H2 : tract 1200 (-999) !! "E_POV150" = Some (CInt (-999))) by reflexivity.
  split; [exact (conj H1 H2)|].
  exact (generate_style_handle_first_sentinel "E_POV150" (tract 1200 (-999))
           [tract 800 200; tract 4000 1000] H1 H2).
Defined.

(** X19: for a variable whose name starts with none of [E_], [EPL_],
    [RPL_] and [EP_] (the population density [POP_DENSITY] that the
    function computes is one) [generate_style_handle] never returns:
    [properties_max] is read before it is assigned. *)
Theorem generate_style_handle_unknown_prefix (svi : string) (features : list row) :
  String.prefix "E_" svi = false →
  String.prefix "EPL_" svi = false →
  String.prefix "RPL_" svi = false →
  String.prefix "EP_" svi = false →
  ∃ ws e, generate_style_handle svi features = Raise ws e.
Proof.
  intros H1 H2 H3 H4. unfold generate_style_handle.
  destruct (properties_values svi features) as [ws vs|ws e]; [|by eexists _, _].
  cbn [mbind result_bind]. rewrite H1, H2, H3, H4. cbn. by eexists _, _.
Qed.

Lemma generate_style_handle_unknown_prefix_witness :
  (String.prefix "E_" "POP_DENSITY" = false
   ∧ String.prefix "EPL_" "POP_DENSITY" = false
   ∧ String.prefix "RPL_" "POP_DENSITY" = false
   ∧ String.prefix "EP_" "POP_DENSITY" = false)
  ∧ ∃ ws e, generate_style_handle "POP_DENSITY" (clean_invalid_values F_colorado)
            = Raise ws e.
Proof.
  assert (H1 : String.prefix "E_" "POP_DENSITY" = false) by reflexivity.
  assert (H2 : String.prefix "EPL_" "POP_DENSITY" = false) by reflexivity.
  assert (H3 : String.prefix "RPL_" "POP_DENSITY" = false) by reflexivity.
  assert (H4 : String.prefix "EP_" "POP_DENSITY" = false) by reflexivity.
  split; [exact (conj H1 (conj H2 (conj H3 H4)))|].
  exact (generate_style_handle_unknown_prefix "POP_DENSITY"
           (clean_invalid_values F_colorado) H1 H2 H3 H4).
Defined.

Example generate_style_handle_density :
  generate_style_handle "POP_DENSITY" (clean_invalid_values F_colorado)
  = Raise [] UnboundLocalError.
Proof. vm_compute. reflexivity. Qed.

Lemma inject_nat_succ (n : nat) :
  (inject_Z (Z.of_nat (S n)) == inject_Z (Z.of_nat n) + 1)%Q.
Proof. rewrite Nat2Z.inj_succ, <- Z.add_1_r, inject_Z_plus. reflexivity. Qed.









(** The total population of the three tracts is coloured on a scale
    that ends just above 4000. *)
Example generate_style_handle_T :
  generate_style_handle "E_TOTPOP" (clean_invalid_values F_colorado)
  = Ok [] (linspace0 (FNum (4000 * (1001 # 1000))) 9, FNum 4000).
Proof. vm_compute. reflexivity. Qed.
